(** * Cifra Carmesim: the row-profile dynamic programme of [src/main.cpp]

    The development embeds the class [Cifra] of [src/main.cpp] and proves the
    properties of its solver [Resolve].

    Conventions of the embedding.
    - A C++ [int] that stores a value (a brightness, a configuration, a
      counter) is a [Z].  The two additions of brightness values, in the
      loop that sums a row and in the comparison of [f], are additions of
      32-bit [int]: their result is reduced to the two's complement range
      by [int_de].
    - Loop counters that index a vector (rows, columns) are [nat], and so
      are the dimensions [L_] and [C_], which the constructor takes
      non-negative; a loop [for (x = 0; x < n; x++)] is a traversal of
      [seq 0 n] and the reversed loop a traversal of [rev (seq 0 n)].
    - [caixa_] is a list of rows.  [memo_] is allocated once by the
      constructor with the dimensions [L_ x num_possibilidades_ x
      num_possibilidades_] and is never resized: its contents are a total
      function of the three indices and every access is checked against the
      dimensions, an access outside them being an error ([None]).
    - The methods that mutate the object run in a state and error monad over
      the record [Cifra]. *)

From Stdlib Require Import ZArith List Bool Lia Arith Sorted Permutation.
Import ListNotations.
Local Open Scope Z_scope.

(** ** Bit helpers *)

Definition SET_BIT (number : Z) (bit : nat) : Z :=
  Z.lor number (Z.shiftl 1 (Z.of_nat bit)).

Definition CLEAR_BIT (number : Z) (bit : nat) : Z :=
  Z.land number (Z.lnot (Z.shiftl 1 (Z.of_nat bit))).

Definition GET_BIT (number : Z) (bit : nat) : Z :=
  Z.land (Z.shiftr number (Z.of_nat bit)) 1.

(** ** Data *)

Record Cristal := { brilho : Z; conexoes : Z }.

(** [Cristal()]: the default member initialisers. *)
Definition Cristal_padrao : Cristal := {| brilho := -1; conexoes := 0 |}.

Record Resposta := { calculado : bool; valor : Z; conf : Z }.

(** [Resposta()]: the default member initialisers. *)
Definition Resposta_padrao : Resposta :=
  {| calculado := false; valor := -1; conf := 0 |}.

(** The aggregate [{true, -1, 0}] written in [f] and in [Resolve]. *)
Definition invalida : Resposta :=
  {| calculado := true; valor := -1; conf := 0 |}.

Definition Memo := nat -> Z -> Z -> Resposta.

Record Cifra := {
  L_ : nat;
  C_ : nat;
  N_ : Z;
  num_possibilidades_ : Z;
  num_cristais_usados_ : Z;
  max_valor_caixa_ : Z;
  cristais_solucao_ : list (Z * Z);
  caixa_ : list (list Cristal);
  memo_ : Memo
}.

(** [for (x = 0; x < n; x++)] over an [int] bound. *)
Definition intervalo (n : nat) : list Z := map Z.of_nat (seq 0 n).

(** The configurations [0 .. num_possibilidades_ - 1] in increasing order. *)
Definition possibilidades (this : Cifra) : list Z :=
  intervalo (Z.to_nat (num_possibilidades_ this)).

(** [Cifra(l, c, n)]. *)
Definition Cifra_novo (l c : nat) (n : Z) : Cifra :=
  {| L_ := l; C_ := c; N_ := n;
     num_possibilidades_ := Z.shiftl 1 (Z.of_nat c);
     num_cristais_usados_ := 0;
     max_valor_caixa_ := 0;
     cristais_solucao_ := [];
     caixa_ := repeat (repeat Cristal_padrao c) l;
     memo_ := fun _ _ _ => Resposta_padrao |}.

(** [caixa_[linha][j]] for indices inside the box. *)
Definition celula (this : Cifra) (linha j : nat) : Cristal :=
  nth j (nth linha (caixa_ this) []) Cristal_padrao.

(** [v[n] = a] on a vector: [None] outside its bounds. *)
Fixpoint atribui {A : Type} (v : list A) (n : nat) (a : A) : option (list A) :=
  match v, n with
  | [], _ => None
  | _ :: t, O => Some (a :: t)
  | h :: t, S n' =>
      match atribui t n' a with
      | Some t' => Some (h :: t')
      | None => None
      end
  end.

Definition com_caixa (this : Cifra) (cx : list (list Cristal)) : Cifra :=
  {| L_ := L_ this; C_ := C_ this; N_ := N_ this;
     num_possibilidades_ := num_possibilidades_ this;
     num_cristais_usados_ := num_cristais_usados_ this;
     max_valor_caixa_ := max_valor_caixa_ this;
     cristais_solucao_ := cristais_solucao_ this;
     caixa_ := cx;
     memo_ := memo_ this |}.

Definition com_memo (this : Cifra) (m : Memo) : Cifra :=
  {| L_ := L_ this; C_ := C_ this; N_ := N_ this;
     num_possibilidades_ := num_possibilidades_ this;
     num_cristais_usados_ := num_cristais_usados_ this;
     max_valor_caixa_ := max_valor_caixa_ this;
     cristais_solucao_ := cristais_solucao_ this;
     caixa_ := caixa_ this;
     memo_ := m |}.

(** [AdicionaCristal(x, y, v, d, c, e, b)]; the coordinates are 1-based and
    an index outside [caixa_] is an error. *)
Definition AdicionaCristal (x y v d c e b : Z) (this : Cifra) : option Cifra :=
  let conexoes := 0 in
  let conexoes := if d =? 1 then SET_BIT conexoes 0 else CLEAR_BIT conexoes 0 in
  let conexoes := if c =? 1 then SET_BIT conexoes 1 else CLEAR_BIT conexoes 1 in
  let conexoes := if e =? 1 then SET_BIT conexoes 2 else CLEAR_BIT conexoes 2 in
  let conexoes := if b =? 1 then SET_BIT conexoes 3 else CLEAR_BIT conexoes 3 in
  if (x - 1 <? 0) || (y - 1 <? 0) then None
  else
    match nth_error (caixa_ this) (Z.to_nat (x - 1)) with
    | None => None
    | Some fila =>
        match atribui fila (Z.to_nat (y - 1))
                {| brilho := v; conexoes := conexoes |} with
        | None => None
        | Some fila' =>
            match atribui (caixa_ this) (Z.to_nat (x - 1)) fila' with
            | None => None
            | Some cx => Some (com_caixa this cx)
            end
        end
    end.

(** ** The compatibility predicates *)

Definition EhInternamenteConsistente (this : Cifra) (linha : nat) (cfg : Z)
  : bool :=
  forallb
    (fun j =>
       negb ((GET_BIT cfg j =? 1) && (brilho (celula this linha j) =? -1))
       && negb ((GET_BIT cfg j =? 1)
                && (GET_BIT cfg ((j + 1) mod C_ this) =? 1)
                && (GET_BIT (conexoes (celula this linha j)) 0 =? 1)))
    (seq 0 (C_ this)).

Definition SaoCompativeis (this : Cifra) (linha : nat) (conf_i conf_s : Z)
  : bool :=
  forallb
    (fun j =>
       negb ((GET_BIT conf_i j =? 1)
             && (GET_BIT conf_s j =? 1)
             && negb (GET_BIT (conexoes (celula this linha j)) 1 =? 0)))
    (seq 0 (C_ this)).

(** ** Arithmetic of [int] *)

Definition INT_MAX : Z := 2147483647.

Definition INT_MIN : Z := -2147483648.

(** The 32-bit two's complement [int] that holds [z] after wrap-around. *)
Definition int_de (z : Z) : Z :=
  (z + 2147483648) mod 4294967296 - 2147483648.

(** [a + b] on [int]. *)
Definition soma_int (a b : Z) : Z := int_de (a + b).

(** The loop that sums the brightness of the crystals of the row:
    [valor_linha += caixa_[linha][j].brilho]. *)
Definition valor_da_linha (this : Cifra) (linha : nat) (cfg : Z) : Z :=
  fold_left
    (fun valor_linha j =>
       if GET_BIT cfg j =? 1
       then soma_int valor_linha (brilho (celula this linha j))
       else valor_linha)
    (seq 0 (C_ this)) 0.

(** ** The memo table *)

Definition dentro (this : Cifra) (linha : nat) (cfg conf_inicial : Z) : bool :=
  (linha <? L_ this)%nat
  && (0 <=? cfg) && (cfg <? num_possibilidades_ this)
  && (0 <=? conf_inicial) && (conf_inicial <? num_possibilidades_ this).

(** [memo_[linha][cfg][conf_inicial]] as an rvalue. *)
Definition le_memo (this : Cifra) (linha : nat) (cfg conf_inicial : Z)
  : option Resposta :=
  if dentro this linha cfg conf_inicial
  then Some (memo_ this linha cfg conf_inicial)
  else None.

Definition grava (m : Memo) (linha : nat) (cfg conf_inicial : Z) (r : Resposta)
  : Memo :=
  fun l c a =>
    if (l =? linha)%nat && (c =? cfg) && (a =? conf_inicial)
    then r else m l c a.

(** [memo_[linha][cfg][conf_inicial] = r; return memo_[...]]. *)
Definition memoiza (this : Cifra) (linha : nat) (cfg conf_inicial : Z)
  (r : Resposta) : option (Resposta * Cifra) :=
  Some (r, com_memo this (grava (memo_ this) linha cfg conf_inicial r)).

(** ** Loops in the state and error monad *)

Fixpoint laco {A S : Type} (corpo : A -> S -> Cifra -> option (S * Cifra))
  (xs : list A) (acc : S) (this : Cifra) : option (S * Cifra) :=
  match xs with
  | [] => Some (acc, this)
  | x :: xs' =>
      match corpo x acc this with
      | None => None
      | Some (acc', this') => laco corpo xs' acc' this'
      end
  end.

(** ** The dynamic programme *)

(** The body of the loop over the configurations of the row above, once
    the answer [resp] of the recursive call is known. *)
Definition escolhe (valor_linha : Z) (poss : Z) (resp maximo : Resposta)
  : Resposta :=
  if valor resp =? -1 then maximo
  else if soma_int (valor resp) valor_linha >? valor maximo
       then {| calculado := true; valor := soma_int (valor resp) valor_linha;
               conf := poss |}
       else maximo.

Fixpoint f (linha : nat) (cfg conf_inicial : Z) (this : Cifra)
  {struct linha} : option (Resposta * Cifra) :=
  match le_memo this linha cfg conf_inicial with
  | None => None
  | Some r =>
      if calculado r then Some (r, this)
      else if negb (EhInternamenteConsistente this linha cfg)
      then memoiza this linha cfg conf_inicial invalida
      else
        let valor_linha := valor_da_linha this linha cfg in
        match linha with
        | O =>
            if negb (SaoCompativeis this linha cfg conf_inicial)
            then memoiza this linha cfg conf_inicial invalida
            else memoiza this linha cfg conf_inicial
                   {| calculado := true; valor := valor_linha;
                      conf := conf_inicial |}
        | S acima =>
            match
              laco
                (fun poss maximo this' =>
                   if negb (SaoCompativeis this' linha cfg poss)
                   then Some (maximo, this')
                   else
                     match f acima poss conf_inicial this' with
                     | None => None
                     | Some (resp, this'') =>
                         Some (escolhe valor_linha poss resp maximo, this'')
                     end)
                (possibilidades this) invalida this
            with
            | None => None
            | Some (maximo, this') =>
                memoiza this' linha cfg conf_inicial maximo
            end
        end
  end.

(** ** [Resolve] *)

(** The loop of [Resolve] over the anchor configurations; it yields the
    locals [maximo] and [conf_inicial_maxima]. *)
Definition melhor_ancora (ultima : nat) (this : Cifra)
  : option ((Resposta * Z) * Cifra) :=
  laco
    (fun i (acc : Resposta * Z) this' =>
       match f ultima i i this' with
       | None => None
       | Some (resp, this'') =>
           Some (if valor resp >? valor (fst acc) then (resp, i) else acc,
                 this'')
       end)
    (possibilidades this) (invalida, -1) this.

(** [num_cristais_usados_++; cristais_solucao_.push_back(p)]. *)
Definition usa (this : Cifra) (p : Z * Z) : Cifra :=
  {| L_ := L_ this; C_ := C_ this; N_ := N_ this;
     num_possibilidades_ := num_possibilidades_ this;
     num_cristais_usados_ := num_cristais_usados_ this + 1;
     max_valor_caixa_ := max_valor_caixa_ this;
     cristais_solucao_ := cristais_solucao_ this ++ [p];
     caixa_ := caixa_ this;
     memo_ := memo_ this |}.

Definition com_max_valor (this : Cifra) (v : Z) : Cifra :=
  {| L_ := L_ this; C_ := C_ this; N_ := N_ this;
     num_possibilidades_ := num_possibilidades_ this;
     num_cristais_usados_ := num_cristais_usados_ this;
     max_valor_caixa_ := v;
     cristais_solucao_ := cristais_solucao_ this;
     caixa_ := caixa_ this;
     memo_ := memo_ this |}.

(** The inner loop of the reconstruction: columns [C_ - 1] down to [0] of
    row [i] under the configuration [cfg]. *)
Definition marca (i : nat) (cfg : Z) (this : Cifra) : Cifra :=
  fold_left
    (fun this' j =>
       if GET_BIT cfg j =? 1
       then usa this' (Z.of_nat i + 1, Z.of_nat j + 1)
       else this')
    (rev (seq 0 (C_ this))) this.

(** One turn of the outer loop of the reconstruction.  The accumulator is
    the local [conf] together with the indices of the entries of [memo_]
    that the loop has read so far (a ghost list, not part of the program
    state). *)
Definition visita (conf_inicial_maxima : Z) (i : nat)
  (acc : Z * list (nat * Z * Z)) (this : Cifra)
  : option ((Z * list (nat * Z * Z)) * Cifra) :=
  let this' := marca i (fst acc) this in
  let linha := ((i + L_ this') mod L_ this')%nat in
  match le_memo this' linha (fst acc) conf_inicial_maxima with
  | None => None
  | Some r =>
      Some ((conf r, snd acc ++ [(linha, fst acc, conf_inicial_maxima)]),
            this')
  end.

(** The outer loop of the reconstruction: rows [L_ - 1] down to [0]. *)
Definition percorre (conf_inicial_maxima : Z) (cfg : Z) (this : Cifra)
  : option ((Z * list (nat * Z * Z)) * Cifra) :=
  laco (visita conf_inicial_maxima) (rev (seq 0 (L_ this))) (cfg, []) this.

(** [Resolve()], returning also the ghost list of the memo indices read by
    the reconstruction.  With [L_ = 0] the first call [f(L_ - 1, 0, 0)]
    indexes [memo_] at row [-1]. *)
Definition Resolve_rastro (this : Cifra)
  : option (list (nat * Z * Z) * Cifra) :=
  match L_ this with
  | O => None
  | S ultima =>
      match melhor_ancora ultima this with
      | None => None
      | Some ((maximo, conf_inicial_maxima), this1) =>
          let this2 := com_max_valor this1 (valor maximo) in
          match percorre conf_inicial_maxima conf_inicial_maxima this2 with
          | None => None
          | Some ((_, lidas), this3) => Some (lidas, this3)
          end
      end
  end.

Definition Resolve (this : Cifra) : option Cifra :=
  option_map snd (Resolve_rastro this).

Definition GetValoresSolucao (this : Cifra) : Z * Z :=
  (num_cristais_usados_ this, max_valor_caixa_ this).

Definition GetCristaisSolucao (this : Cifra) : list (Z * Z) :=
  cristais_solucao_ this.

(** ** [main] *)

(** One input record [x y v d c e b]. *)
Record Registro := {
  rx : Z; ry : Z; rv : Z; rd : Z; rc : Z; re : Z; rb : Z
}.

Definition adiciona (r : Registro) (this : Cifra) : option Cifra :=
  AdicionaCristal (rx r) (ry r) (rv r) (rd r) (rc r) (re r) (rb r) this.

(** The reading loop of [main]: the [N] records are added in order. *)
Fixpoint adiciona_todos (rs : list Registro) (this : Cifra) : option Cifra :=
  match rs with
  | [] => Some this
  | r :: rs' =>
      match adiciona r this with
      | None => None
      | Some this' => adiciona_todos rs' this'
      end
  end.

(** The object [cifra] of [main] when [Resolve] is about to be called. *)
Definition constroi (L C : nat) (rs : list Registro) : option Cifra :=
  adiciona_todos rs (Cifra_novo L C (Z.of_nat (length rs))).

(** What [main] prints: each line is a pair of integers, the first line
    being [GetValoresSolucao()] and the others [GetCristaisSolucao()]. *)
Definition saida (this : Cifra) : list (Z * Z) :=
  GetValoresSolucao this :: GetCristaisSolucao this.

Definition main (L C : nat) (rs : list Registro) : option (list (Z * Z)) :=
  match constroi L C rs with
  | None => None
  | Some cifra => option_map saida (Resolve cifra)
  end.

Definition reg (x y v d c e b : Z) : Registro :=
  {| rx := x; ry := y; rv := v; rd := d; rc := c; re := e; rb := b |}.

(** ** [f] without the table

    [f_pura] follows the body of [f] with the reads and writes of [memo_]
    taken out; [f_correta] below shows that [f] returns this value whatever
    the table already holds. *)

Definition passo (this : Cifra) (linha : nat) (cfg : Z) (valor_linha : Z)
  (acima : Z -> Resposta) (maximo : Resposta) (poss : Z) : Resposta :=
  if negb (SaoCompativeis this linha cfg poss) then maximo
  else escolhe valor_linha poss (acima poss) maximo.

Section Sem_tabela.
Variable this : Cifra.

Fixpoint f_pura (linha : nat) (cfg conf_inicial : Z)
  {struct linha} : Resposta :=
  if negb (EhInternamenteConsistente this linha cfg) then invalida
  else
    let valor_linha := valor_da_linha this linha cfg in
    match linha with
    | O =>
        if negb (SaoCompativeis this linha cfg conf_inicial) then invalida
        else {| calculado := true; valor := valor_linha;
                conf := conf_inicial |}
    | S acima =>
        fold_left
          (passo this linha cfg valor_linha
             (fun poss => f_pura acima poss conf_inicial))
          (possibilidades this) invalida
    end.

(** The configuration of each row [linha, linha - 1, .., 0] met by the
    reconstruction when it enters row [linha] with [cfg]. *)
Fixpoint cadeia (conf_inicial : Z) (linha : nat) (cfg : Z)
  : list (nat * Z) :=
  (linha, cfg) ::
  match linha with
  | O => []
  | S acima =>
      cadeia conf_inicial acima (conf (f_pura linha cfg conf_inicial))
  end.

End Sem_tabela.

(** The anchor loop of [Resolve] over [f_pura]. *)
Definition ancora_pura (this : Cifra) (ultima : nat) : Resposta * Z :=
  fold_left
    (fun (acc : Resposta * Z) i =>
       let resp := f_pura this ultima i i in
       if valor resp >? valor (fst acc) then (resp, i) else acc)
    (possibilidades this) (invalida, -1).

(** The cells that the inner reconstruction loop appends for row [i]. *)
Definition celulas_da_linha (this : Cifra) (i : nat) (cfg : Z)
  : list (Z * Z) :=
  map (fun j => (Z.of_nat i + 1, Z.of_nat j + 1))
      (filter (fun j => GET_BIT cfg j =? 1) (rev (seq 0 (C_ this)))).

Definition celulas_da_cadeia (this : Cifra) (cs : list (nat * Z))
  : list (Z * Z) :=
  flat_map (fun ic => celulas_da_linha this (fst ic) (snd ic)) cs.

(** ** Invariant of the table

    The table holds only answers of [f_pura], and the predecessor recorded
    by an entry of a row above 0 whose value is not [-1] has been computed
    too. *)
Definition memo_ok (this : Cifra) (m : Memo) : Prop :=
  (forall l c a, calculado (m l c a) = true -> m l c a = f_pura this l c a)
  /\ (forall l c a,
        calculado (m (S l) c a) = true ->
        valor (m (S l) c a) <> -1 ->
        calculado (m l (conf (m (S l) c a)) a) = true).

(** Entries are never un-computed. *)
Definition memo_cresce (m m' : Memo) : Prop :=
  forall l c a, calculado (m l c a) = true -> calculado (m' l c a) = true.

(** The effect on the object of using the cells [ps] one after the other:
    the counter grows by their number and they are appended to the list. *)
Definition acrescenta (this : Cifra) (ps : list (Z * Z)) : Cifra :=
  {| L_ := L_ this; C_ := C_ this; N_ := N_ this;
     num_possibilidades_ := num_possibilidades_ this;
     num_cristais_usados_ :=
       num_cristais_usados_ this + Z.of_nat (length ps);
     max_valor_caixa_ := max_valor_caixa_ this;
     cristais_solucao_ := cristais_solucao_ this ++ ps;
     caixa_ := caixa_ this;
     memo_ := memo_ this |}.

(** The indices of [memo_] read along a chain for the anchor
    [conf_inicial]. *)
Definition leituras (conf_inicial : Z) (cs : list (nat * Z))
  : list (nat * Z * Z) :=
  map (fun ic => (fst ic, snd ic, conf_inicial)) cs.

(** An entry of the chain is inside the table, has been computed and is
    alive. *)
Definition elo_ok (this : Cifra) (m : Memo) (conf_inicial : Z)
  (ic : nat * Z) : Prop :=
  dentro this (fst ic) (snd ic) conf_inicial = true
  /\ calculado (m (fst ic) (snd ic) conf_inicial) = true
  /\ valor (f_pura this (fst ic) (snd ic) conf_inicial) <> -1.

(** ** Vocabulary of the statements *)

Definition soma (l : list Z) : Z := fold_right Z.add 0 l.

(** The brightness stored at the 1-based position [p]. *)
Definition brilho_em (this : Cifra) (p : Z * Z) : Z :=
  brilho (celula this (Z.to_nat (fst p - 1)) (Z.to_nat (snd p - 1))).

(** The cell at row [r] and column [j] (0-based) is in the list of 1-based
    positions [ps]. *)
Definition selecionada (ps : list (Z * Z)) (r j : nat) : Prop :=
  In (Z.of_nat r + 1, Z.of_nat j + 1) ps.

(** An object on which [Resolve] may be called: the table satisfies its
    invariant and there is at least one configuration. *)
Definition pronta (this : Cifra) : Prop :=
  memo_ok this (memo_ this) /\ 0 < num_possibilidades_ this.

(** The row cyclically above row [r] in a box of [L] rows:
    [(r - 1 + L) % L]. *)
Definition linha_acima (L r : nat) : nat :=
  Z.to_nat (Z.rem (Z.of_nat r - 1 + Z.of_nat L) (Z.of_nat L)).

(** The box of the second example: two rows, two columns, every crystal of
    brightness 1, the crystal at (1, 1) connected to its right and the
    crystal at (2, 1) connected upwards. *)
Definition caixa_exemplo : list Registro :=
  [reg 1 1 1 1 0 0 1; reg 1 2 1 0 0 0 0;
   reg 2 1 1 0 1 0 0; reg 2 2 1 0 0 0 0].

(** The entry of [memo_] at the indices [k] is inside the table and has
    been computed. *)
Definition lida_ok (this : Cifra) (k : nat * Z * Z) : Prop :=
  dentro this (fst (fst k)) (snd (fst k)) (snd k) = true
  /\ calculado (memo_ this (fst (fst k)) (snd (fst k)) (snd k)) = true.

(** [p] is a candidate of the loop of [f] at row [S acima] under
    [cfg]: a configuration of the row above that is compatible with [cfg]
    and whose own state is not dead, so that its cumulative value reaches
    the comparison with [maximo]. *)
Definition candidata (this : Cifra) (acima : nat) (cfg a p : Z) : Prop :=
  0 <= p < num_possibilidades_ this
  /\ SaoCompativeis this (S acima) cfg p = true
  /\ valor (f_pura this acima p a) <> -1.

(** The cumulative value compared with [maximo] for the candidate [p]. *)
Definition acumulado (this : Cifra) (acima : nat) (cfg a p : Z) : Z :=
  soma_int (valor (f_pura this acima p a)) (valor_da_linha this (S acima) cfg).

(** The order of the printed cells: [p] comes before [q] when it lies in
    a row of greater index, or in the same row at a column of greater
    index. *)
Definition antes (p q : Z * Z) : Prop :=
  fst q < fst p \/ (fst q = fst p /\ snd q < snd p).

(** The 1-based cells of row [i] that the configuration [cfg] selects,
    from column [C - 1] down to column 0. *)
Definition linha_impressa (C : nat) (i : nat) (cfg : Z) : list (Z * Z) :=
  map (fun j => (Z.of_nat i + 1, Z.of_nat j + 1))
      (filter (fun j => GET_BIT cfg j =? 1) (rev (seq 0 C))).

(** Two input records that differ at most in the flags [e] and [b]. *)
Definition mesmo_registro (r1 r2 : Registro) : Prop :=
  rx r1 = rx r2 /\ ry r1 = ry r2 /\ rv r1 = rv r2
  /\ rd r1 = rd r2 /\ rc r1 = rc r2.

(** Two crystals with the same brightness and the same bits 0 and 1 of
    the connection mask. *)
Definition ve_igual (c1 c2 : Cristal) : Prop :=
  brilho c1 = brilho c2
  /\ GET_BIT (conexoes c1) 0 = GET_BIT (conexoes c2) 0
  /\ GET_BIT (conexoes c1) 1 = GET_BIT (conexoes c2) 1.

(** Two results that are both errors or both values related by [R]. *)
Definition rel_opcao {A B : Type} (R : A -> B -> Prop)
  (o1 : option A) (o2 : option B) : Prop :=
  match o1, o2 with
  | Some a, Some b => R a b
  | None, None => True
  | _, _ => False
  end.

(** A selection gives a configuration to each row.  It is feasible when
    every row passes [EhInternamenteConsistente] and every row passes
    [SaoCompativeis] against the row cyclically above it: the two
    predicates are the whole constraint system. *)
Definition viavel (this : Cifra) (sel : nat -> Z) : bool :=
  forallb
    (fun r =>
       EhInternamenteConsistente this r (sel r)
       && SaoCompativeis this r (sel r) (sel (linha_acima (L_ this) r)))
    (seq 0 (L_ this)).

(** What a call of [f] does on a table that satisfies the invariant: it
    returns the answer of [f_pura] and leaves a table that satisfies the
    invariant, has lost no entry and holds the entry asked for. *)
Definition f_correta_em (this : Cifra) (linha : nat) : Prop :=
  forall cfg a m,
    dentro this linha cfg a = true ->
    memo_ok this m ->
    exists m',
      f linha cfg a (com_memo this m)
      = Some (f_pura this linha cfg a, com_memo this m')
      /\ memo_ok this m'
      /\ memo_cresce m m'
      /\ calculado (m' linha cfg a) = true.

(** The configuration [cfg] of row [linha] does not select the cell of
    row [X] and column [Y]. *)
Definition nao_usa (X Y : nat) (linha : nat) (cfg : Z) : Prop :=
  linha = X -> GET_BIT cfg Y <> 1.



(** The box of the example with the position (2, 1) left empty. *)
Definition caixa_com_vaga : list Registro :=
  [reg 1 1 1 1 0 0 1; reg 1 2 1 0 0 0 0; reg 2 2 1 0 0 0 0].

(** The box has [L_] rows of [C_] crystals each. *)
Definition forma (this : Cifra) : Prop :=
  length (caixa_ this) = L_ this
  /\ Forall (fun fila => length fila = C_ this) (caixa_ this).

(** ** Vocabulary of the further properties *)

(** The crystal that [AdicionaCristal] stores for the record [r]: its
    brightness and the mask with one bit per flag that equals 1. *)
Definition cristal_de (r : Registro) : Cristal :=
  {| brilho := rv r;
     conexoes := Z.b2z (rd r =? 1) + 2 * Z.b2z (rc r =? 1)
                 + 4 * Z.b2z (re r =? 1) + 8 * Z.b2z (rb r =? 1) |}.

(** The record [r] is for the cell of row [i] and column [j] (0-based). *)
Definition registro_em (r : Registro) (i j : nat) : bool :=
  (rx r - 1 =? Z.of_nat i) && (ry r - 1 =? Z.of_nat j).

(** The last record of [rs] for the cell of row [i] and column [j]. *)
Fixpoint ultimo_em (rs : list Registro) (i j : nat) : option Registro :=
  match rs with
  | [] => None
  | r :: rs' =>
      match ultimo_em rs' i j with
      | Some r' => Some r'
      | None => if registro_em r i j then Some r else None
      end
  end.

(** The record [r] names a position inside a box of [L] rows and [C]
    columns. *)
Definition registro_dentro (L C : nat) (r : Registro) : Prop :=
  1 <= rx r <= Z.of_nat L /\ 1 <= ry r <= Z.of_nat C.

(** The sum, in [Z], of the brightness of the cells of row [i] that [cfg]
    selects. *)
Definition brilho_da_linha (this : Cifra) (i : nat) (cfg : Z) : Z :=
  soma (map (brilho_em this) (celulas_da_linha this i cfg)).

(** The value of a selection: the sum, in [Z], of the brightness of its
    cells. *)
Definition valor_da_selecao (this : Cifra) (sel : nat -> Z) : Z :=
  soma (map (fun r => brilho_da_linha this r (sel r)) (seq 0 (L_ this))).

(** The configuration that the chain [cs] gives to row [r]. *)
Definition config_da_linha (cs : list (nat * Z)) (r : nat) : Z :=
  match find (fun ic => (fst ic =? r)%nat) cs with
  | Some ic => snd ic
  | None => 0
  end.

(** What a call of [f] for row [linha] and anchor [a] may change in going
    from [s] to [s']: only [memo_], no entry that was computed, no entry of
    a row whose index is greater than [linha] and no entry of another
    anchor. *)
Definition estavel (linha : nat) (a : Z) (s s' : Cifra) : Prop :=
  s' = com_memo s (memo_ s')
  /\ (forall l c a',
        calculado (memo_ s l c a') = true ->
        memo_ s' l c a' = memo_ s l c a')
  /\ (forall l c a',
        (linha < l)%nat \/ a' <> a ->
        memo_ s' l c a' = memo_ s l c a').

(** ** Bits *)

Lemma GET_BIT_testbit (a : Z) (j : nat) :
  GET_BIT a j = Z.b2z (Z.testbit a (Z.of_nat j)).
Proof.
  unfold GET_BIT.
  change 1 with (Z.ones 1).
  rewrite Z.land_ones by lia.
  change (2 ^ 1) with 2.
  rewrite <- Z.bit0_mod, Z.shiftr_spec by lia.
  reflexivity.
Qed.

Lemma GET_BIT_zero (j : nat) : GET_BIT 0 j = 0.
Proof. unfold GET_BIT. now rewrite Z.shiftr_0_l. Qed.

Lemma GET_BIT_um (a : Z) (j : nat) :
  (GET_BIT a j =? 1) = Z.testbit a (Z.of_nat j).
Proof. rewrite GET_BIT_testbit. now destruct (Z.testbit _ _). Qed.

Lemma GET_BIT_nao_zero (a : Z) (j : nat) :
  negb (GET_BIT a j =? 0) = Z.testbit a (Z.of_nat j).
Proof. rewrite GET_BIT_testbit. now destruct (Z.testbit _ _). Qed.


Lemma intervalo_S (k : nat) : intervalo (S k) = intervalo k ++ [Z.of_nat k].
Proof. unfold intervalo. now rewrite seq_S, map_app. Qed.

Lemma intervalo_In (k : nat) (p : Z) :
  In p (intervalo k) <-> 0 <= p < Z.of_nat k.
Proof.
  unfold intervalo. rewrite in_map_iff. split.
  - intros (n & <- & Hn). apply in_seq in Hn. lia.
  - intros H. exists (Z.to_nat p). split; [lia|]. apply in_seq. lia.
Qed.

(** ** Additions of [int] *)

Lemma int_de_faixa (z : Z) : INT_MIN <= int_de z <= INT_MAX.
Proof.
  unfold int_de, INT_MIN, INT_MAX.
  pose proof (Z.mod_pos_bound (z + 2147483648) 4294967296 ltac:(lia)).
  lia.
Qed.

Lemma int_de_id (z : Z) : INT_MIN <= z <= INT_MAX -> int_de z = z.
Proof.
  unfold int_de, INT_MIN, INT_MAX. intros H.
  rewrite Z.mod_small by lia. lia.
Qed.

Lemma soma_int_faixa (a b : Z) : INT_MIN <= soma_int a b <= INT_MAX.
Proof. apply int_de_faixa. Qed.

Lemma soma_int_exata (a b : Z) :
  INT_MIN <= a + b <= INT_MAX -> soma_int a b = a + b.
Proof. apply int_de_id. Qed.

(** ** The transition of the dynamic programme *)

Section Transicao.
Variable this : Cifra.
Variable linha : nat.
Variable cfg valor_linha : Z.
Variable acima : Z -> Resposta.

(** [poss] reaches the comparison with [maximo]. *)
Let candidata (poss : Z) : Prop :=
  SaoCompativeis this linha cfg poss = true /\ valor (acima poss) <> -1.

Let total (poss : Z) : Z := soma_int (valor (acima poss)) valor_linha.

Lemma passo_casos (maximo : Resposta) (poss : Z) :
  (passo this linha cfg valor_linha acima maximo poss = maximo
  /\ (candidata poss -> total poss <= valor maximo))
  \/ (passo this linha cfg valor_linha acima maximo poss
    = {| calculado := true; valor := total poss; conf := poss |}
    /\ candidata poss /\ valor maximo < total poss).
Proof.
  unfold passo, escolhe, candidata, total.
  destruct (SaoCompativeis this linha cfg poss); cbn [negb].
  - destruct (Z.eqb_spec (valor (acima poss)) (-1)) as [E|E].
    + left. split; [reflexivity|]. intros [_ H]. contradiction.
    + destruct (Z.gtb_spec (soma_int (valor (acima poss)) valor_linha)
        (valor maximo)) as [G|G].
      * right. repeat split; auto.
      * left. split; [reflexivity|]. intros _. lia.
  - left. split; [reflexivity|]. intros [H _]. discriminate.
Qed.

Lemma melhor_intervalo (k : nat) :
  let r := fold_left (passo this linha cfg valor_linha acima)
           (intervalo k) invalida in
  calculado r = true
  /\ -1 <= valor r
  /\ (forall p, 0 <= p < Z.of_nat k -> candidata p -> total p <= valor r)
  /\ ((valor r = -1 /\ conf r = 0)
    \/ (-1 < valor r /\ 0 <= conf r < Z.of_nat k
        /\ candidata (conf r) /\ total (conf r) = valor r
        /\ forall p, 0 <= p < conf r -> candidata p ->
                     total p < valor r)).
Proof.
  induction k as [|k IH]; cbn zeta.
  - cbn. repeat split; lia.
  - rewrite intervalo_S, fold_left_app. cbn [fold_left].
    cbn zeta in IH.
    set (r := fold_left _ (intervalo k) invalida) in *.
    destruct IH as (Hc & Hlo & Hmax & Hsel).
    destruct (passo_casos r (Z.of_nat k)) as [[-> Hk]|(-> & Hk & Hgt)].
    + repeat split; auto.
      * intros p Hp Hcand.
        destruct (Z.eq_dec p (Z.of_nat k)) as [->|]; [auto|].
        apply Hmax; [lia|auto].
      * destruct Hsel as [Hd|(H1 & H2 & [H3 H3'] & H4 & H5)];
          [now left|right].
        repeat split; auto; lia.
    + cbn [calculado valor conf]. repeat split; auto; try lia.
      * intros p Hp Hcand.
        destruct (Z.eq_dec p (Z.of_nat k)) as [->|]; [lia|].
        specialize (Hmax p ltac:(lia) Hcand). lia.
      * right. destruct Hk as [Hk Hk'].
        repeat split; auto; try lia.
        intros p Hp Hcand. specialize (Hmax p ltac:(lia) Hcand). lia.
Qed.
End Transicao.

(** ** The predicates on the empty configuration *)

Lemma consistente_zero (this : Cifra) (linha : nat) :
  EhInternamenteConsistente this linha 0 = true.
Proof.
  unfold EhInternamenteConsistente. apply forallb_forall. intros j _.
  now rewrite !GET_BIT_zero.
Qed.

Lemma compativeis_zero_l (this : Cifra) (linha : nat) (conf_s : Z) :
  SaoCompativeis this linha 0 conf_s = true.
Proof.
  unfold SaoCompativeis. apply forallb_forall. intros j _.
  now rewrite GET_BIT_zero.
Qed.

Lemma compativeis_zero_r (this : Cifra) (linha : nat) (conf_i : Z) :
  SaoCompativeis this linha conf_i 0 = true.
Proof.
  unfold SaoCompativeis. apply forallb_forall. intros j _.
  rewrite GET_BIT_zero. cbn. now rewrite andb_false_r.
Qed.

Lemma valor_da_linha_zero (this : Cifra) (linha : nat) :
  valor_da_linha this linha 0 = 0.
Proof.
  unfold valor_da_linha. generalize (seq 0 (C_ this)).
  induction l as [|j l IH]; cbn [fold_left]; [reflexivity|].
  now rewrite GET_BIT_zero.
Qed.

(** ** Facts about [f_pura] *)

Section Pura.
Variable this : Cifra.

Local Abbreviation np := (num_possibilidades_ this).

Lemma possibilidades_In (p : Z) :
  In p (possibilidades this) <-> 0 <= p < np.
Proof. unfold possibilidades. rewrite intervalo_In. lia. Qed.

Lemma f_pura_inconsistente (linha : nat) (cfg a : Z) :
  EhInternamenteConsistente this linha cfg = false ->
  f_pura this linha cfg a = invalida.
Proof. intros H. destruct linha; cbn [f_pura]; now rewrite H. Qed.

Lemma f_pura_O (cfg a : Z) :
  EhInternamenteConsistente this 0 cfg = true ->
  f_pura this 0 cfg a =
  if SaoCompativeis this 0 cfg a
  then {| calculado := true; valor := valor_da_linha this 0 cfg;
        conf := a |}
  else invalida.
Proof.
  intros H. cbn [f_pura]. rewrite H. cbn [negb].
  now destruct (SaoCompativeis this 0 cfg a).
Qed.

Lemma f_pura_S (acima : nat) (cfg a : Z) :
  EhInternamenteConsistente this (S acima) cfg = true ->
  f_pura this (S acima) cfg a =
  fold_left
  (passo this (S acima) cfg (valor_da_linha this (S acima) cfg)
     (fun poss => f_pura this acima poss a))
  (possibilidades this) invalida.
Proof. intros H. cbn [f_pura]. now rewrite H. Qed.

Lemma f_pura_calculado (linha : nat) (cfg a : Z) :
  calculado (f_pura this linha cfg a) = true.
Proof.
  destruct (EhInternamenteConsistente this linha cfg) eqn:E.
  - destruct linha.
    + rewrite f_pura_O by assumption.
      now destruct (SaoCompativeis this 0 cfg a).
    + rewrite f_pura_S by assumption.
      apply (melhor_intervalo this (S linha) cfg _ _ (Z.to_nat np)).
  - now rewrite f_pura_inconsistente.
Qed.

(** A row-0 state with a value other than [-1]. *)
Lemma f_pura_viva_O (cfg a : Z) :
  valor (f_pura this 0 cfg a) <> -1 ->
  EhInternamenteConsistente this 0 cfg = true
  /\ SaoCompativeis this 0 cfg a = true
  /\ valor (f_pura this 0 cfg a) = valor_da_linha this 0 cfg
  /\ conf (f_pura this 0 cfg a) = a.
Proof.
  destruct (EhInternamenteConsistente this 0 cfg) eqn:E.
  - rewrite f_pura_O by assumption.
    destruct (SaoCompativeis this 0 cfg a); cbn; intros H; auto.
    contradiction.
  - rewrite f_pura_inconsistente by assumption. cbn. contradiction.
Qed.

(** A state of a row above 0 with a value other than [-1]: the recorded
    predecessor is a compatible configuration whose own state is alive,
    and the value is the predecessor's plus the value of the row. *)
Lemma f_pura_viva_S (acima : nat) (cfg a : Z) :
  valor (f_pura this (S acima) cfg a) <> -1 ->
  let p := conf (f_pura this (S acima) cfg a) in
  EhInternamenteConsistente this (S acima) cfg = true
  /\ 0 <= p < np
  /\ SaoCompativeis this (S acima) cfg p = true
  /\ valor (f_pura this acima p a) <> -1
  /\ valor (f_pura this (S acima) cfg a)
   = soma_int (valor (f_pura this acima p a))
       (valor_da_linha this (S acima) cfg)
  /\ -1 < valor (f_pura this (S acima) cfg a).
Proof.
  destruct (EhInternamenteConsistente this (S acima) cfg) eqn:E.
  - rewrite f_pura_S by assumption. intros H p.
    pose proof (melhor_intervalo this (S acima) cfg
      (valor_da_linha this (S acima) cfg)
      (fun poss => f_pura this acima poss a)
      (Z.to_nat np)) as M.
    cbn zeta in M. fold (possibilidades this) in M.
    destruct M as (_ & _ & _ & [[Hd _]|(H1 & H2 & [H3 H3'] & H4 & _)]).
    + contradiction.
    + subst p. repeat split; auto; lia.
  - rewrite f_pura_inconsistente by assumption. cbn. contradiction.
Qed.

Lemma f_pura_limite_inferior (acima : nat) (cfg a : Z) :
  -1 <= valor (f_pura this (S acima) cfg a).
Proof.
  destruct (EhInternamenteConsistente this (S acima) cfg) eqn:E.
  - rewrite f_pura_S by assumption.
    apply (melhor_intervalo this (S acima) cfg _ _ (Z.to_nat np)).
  - rewrite f_pura_inconsistente by assumption. cbn. lia.
Qed.

(** Every candidate of the loop is bounded by the recorded value. *)
Lemma f_pura_maximo (acima : nat) (cfg a p : Z) :
  EhInternamenteConsistente this (S acima) cfg = true ->
  0 <= p < np ->
  SaoCompativeis this (S acima) cfg p = true ->
  valor (f_pura this acima p a) <> -1 ->
  soma_int (valor (f_pura this acima p a))
    (valor_da_linha this (S acima) cfg)
  <= valor (f_pura this (S acima) cfg a).
Proof.
  intros E Hp Hc Hv. rewrite f_pura_S by assumption.
  destruct (melhor_intervalo this (S acima) cfg
    (valor_da_linha this (S acima) cfg)
    (fun poss => f_pura this acima poss a)
    (Z.to_nat np)) as (_ & _ & M & _).
  apply M; [lia|]. now split.
Qed.

(** Every value that [f] returns is an [int]. *)
Lemma valor_da_linha_int (linha : nat) (cfg : Z) :
  INT_MIN <= valor_da_linha this linha cfg <= INT_MAX.
Proof.
  unfold valor_da_linha.
  enough (H : forall l z, INT_MIN <= z <= INT_MAX ->
            INT_MIN
            <= fold_left
                 (fun valor_linha j =>
                    if GET_BIT cfg j =? 1
                    then soma_int valor_linha (brilho (celula this linha j))
                    else valor_linha) l z
            <= INT_MAX)
    by (apply H; unfold INT_MIN, INT_MAX; lia).
  induction l as [|j l IH]; intros z Hz; cbn [fold_left]; [exact Hz|].
  apply IH. destruct (GET_BIT cfg j =? 1); [apply soma_int_faixa|exact Hz].
Qed.

Lemma f_pura_int (linha : nat) (cfg a : Z) :
  INT_MIN <= valor (f_pura this linha cfg a) <= INT_MAX.
Proof.
  destruct (Z.eq_dec (valor (f_pura this linha cfg a)) (-1)) as [E|E].
  - rewrite E. unfold INT_MIN, INT_MAX. lia.
  - destruct linha as [|acima].
    + destruct (f_pura_viva_O cfg a E) as (_ & _ & -> & _).
      apply valor_da_linha_int.
    + destruct (f_pura_viva_S acima cfg a E) as (_ & _ & _ & _ & -> & _).
      apply soma_int_faixa.
Qed.

(** The empty configuration is alive in every row, for every anchor. *)
Lemma f_pura_zero (linha : nat) (a : Z) :
  0 < np -> 0 <= valor (f_pura this linha 0 a).
Proof.
  intros Hnp. induction linha as [|acima IH].
  - rewrite f_pura_O by apply consistente_zero.
    rewrite compativeis_zero_l. cbn. now rewrite valor_da_linha_zero.
  - pose proof (f_pura_maximo acima 0 a 0 (consistente_zero _ _)
      ltac:(lia) (compativeis_zero_l _ _ _) ltac:(lia)) as H.
    rewrite valor_da_linha_zero in H.
    rewrite soma_int_exata in H
      by (pose proof (f_pura_int acima 0 a); lia).
    lia.
Qed.
End Pura.

(** ** [f] computes [f_pura] *)

Lemma f_eq (linha : nat) (cfg conf_inicial : Z) (this : Cifra) :
  f linha cfg conf_inicial this =
  match le_memo this linha cfg conf_inicial with
  | None => None
  | Some r =>
      if calculado r then Some (r, this)
      else if negb (EhInternamenteConsistente this linha cfg)
      then memoiza this linha cfg conf_inicial invalida
      else
        match linha with
        | O =>
            if negb (SaoCompativeis this linha cfg conf_inicial)
            then memoiza this linha cfg conf_inicial invalida
            else memoiza this linha cfg conf_inicial
                   {| calculado := true;
                      valor := valor_da_linha this linha cfg;
                      conf := conf_inicial |}
        | S acima =>
            match
              laco
                (fun poss maximo this' =>
                   if negb (SaoCompativeis this' linha cfg poss)
                   then Some (maximo, this')
                   else
                     match f acima poss conf_inicial this' with
                     | None => None
                     | Some (resp, this'') =>
                         Some (escolhe (valor_da_linha this linha cfg)
                                 poss resp maximo, this'')
                     end)
                (possibilidades this) invalida this
            with
            | None => None
            | Some (maximo, this') =>
                memoiza this' linha cfg conf_inicial maximo
            end
        end
  end.
Proof. destruct linha; reflexivity. Qed.

Lemma memo_cresce_refl (m : Memo) : memo_cresce m m.
Proof. intros l c a H. exact H. Qed.

Lemma memo_cresce_trans (m1 m2 m3 : Memo) :
  memo_cresce m1 m2 -> memo_cresce m2 m3 -> memo_cresce m1 m3.
Proof. intros H12 H23 l c a H. auto. Qed.

Lemma grava_mesma (m : Memo) (l : nat) (c a : Z) (r : Resposta) :
  grava m l c a r l c a = r.
Proof. unfold grava. now rewrite Nat.eqb_refl, !Z.eqb_refl. Qed.

Lemma grava_casos (m : Memo) (l : nat) (c a : Z) (r : Resposta)
  (l' : nat) (c' a' : Z) :
  (l' = l /\ c' = c /\ a' = a /\ grava m l c a r l' c' a' = r)
  \/ grava m l c a r l' c' a' = m l' c' a'.
Proof.
  unfold grava.
  destruct (Nat.eqb_spec l' l), (Z.eqb_spec c' c), (Z.eqb_spec a' a);
    cbn; auto.
Qed.

Lemma grava_cresce (m : Memo) (l : nat) (c a : Z) (r : Resposta) :
  calculado r = true -> memo_cresce m (grava m l c a r).
Proof.
  intros Hr l' c' a' H.
  destruct (grava_casos m l c a r l' c' a') as [(_ & _ & _ & ->)| ->]; auto.
Qed.

Lemma grava_ok (this : Cifra) (m : Memo) (l : nat) (c a : Z) :
  memo_ok this m ->
  (forall l0, l = S l0 ->
     valor (f_pura this l c a) <> -1 ->
     calculado (m l0 (conf (f_pura this l c a)) a) = true) ->
  memo_ok this (grava m l c a (f_pura this l c a)).
Proof.
  intros [H1 H2] Hp.
  pose proof (grava_cresce m l c a _ (f_pura_calculado this l c a)) as Hc.
  split.
  - intros l' c' a'.
    destruct (grava_casos m l c a (f_pura this l c a) l' c' a')
      as [(-> & -> & -> & ->)| ->]; auto.
  - intros l' c' a'.
    destruct (grava_casos m l c a (f_pura this l c a) (S l') c' a')
      as [(E & -> & -> & ->)| ->]; intros Hcal Hv; apply Hc; auto.
Qed.

Lemma dentro_spec (this : Cifra) (linha : nat) (cfg a : Z) :
  dentro this linha cfg a = true <->
  (linha < L_ this)%nat
  /\ 0 <= cfg < num_possibilidades_ this
  /\ 0 <= a < num_possibilidades_ this.
Proof.
  unfold dentro. rewrite !andb_true_iff, Nat.ltb_lt, !Z.leb_le, !Z.ltb_lt.
  lia.
Qed.

(** Splits the four parts of the statement about a call of [f]. *)
Ltac partes := split; [|split; [|split]].

Section Correcao.
Variable this : Cifra.
Local Abbreviation np := (num_possibilidades_ this).

Section Laco.
Variable acima : nat.
Variable cfg a : Z.
Hypothesis IHf : f_correta_em this acima.
Hypothesis Hacima : (acima < L_ this)%nat.
Hypothesis Ha : 0 <= a < np.

Lemma laco_correto (ps : list Z) :
  forall maximo m,
    memo_ok this m ->
    (forall p, In p ps -> 0 <= p < np) ->
    exists m',
      laco
        (fun poss maximo this' =>
           if negb (SaoCompativeis this' (S acima) cfg poss)
           then Some (maximo, this')
           else
             match f acima poss a this' with
             | None => None
             | Some (resp, this'') =>
                 Some (escolhe (valor_da_linha this (S acima) cfg)
                         poss resp maximo, this'')
             end)
        ps maximo (com_memo this m)
      = Some (fold_left
                (passo this (S acima) cfg
                   (valor_da_linha this (S acima) cfg)
                   (fun poss => f_pura this acima poss a))
                ps maximo,
              com_memo this m')
      /\ memo_ok this m'
      /\ memo_cresce m m'
      /\ (forall p, In p ps ->
            SaoCompativeis this (S acima) cfg p = true ->
            calculado (m' acima p a) = true).
Proof.
  induction ps as [|p ps IH]; intros maximo m Hok Hps.
  - exists m. cbn. partes; auto using memo_cresce_refl.
  - cbn [laco fold_left].
    change (SaoCompativeis (com_memo this m) (S acima) cfg p)
      with (SaoCompativeis this (S acima) cfg p).
    unfold passo at 2.
    destruct (SaoCompativeis this (S acima) cfg p) eqn:Ec; cbn [negb].
    + assert (Hd : dentro this acima p a = true).
      { apply dentro_spec. repeat split; try lia; apply Hps; now left. }
      destruct (IHf p a m Hd Hok) as (m1 & -> & Hok1 & Hc1 & Hcal1).
      destruct (IH (escolhe (valor_da_linha this (S acima) cfg) p
        (f_pura this acima p a) maximo) m1 Hok1)
        as (m2 & -> & Hok2 & Hc2 & Hcal2).
      { intros q Hq. apply Hps. now right. }
      exists m2. partes; eauto using memo_cresce_trans.
      intros q [<-|Hq] Hcq; [apply Hc2, Hcal1 | now apply Hcal2].
    + destruct (IH maximo m Hok) as (m2 & -> & Hok2 & Hc2 & Hcal2).
      { intros q Hq. apply Hps. now right. }
      exists m2. partes; auto.
      intros q [<-|Hq] Hcq; [congruence | now apply Hcal2].
Qed.
End Laco.

Lemma f_correta (linha : nat) : f_correta_em this linha.
Proof.
  induction linha as [|acima IH]; intros cfg a m Hd Hok.
  - rewrite f_eq. unfold le_memo.
    change (dentro (com_memo this m) 0 cfg a) with (dentro this 0 cfg a).
    rewrite Hd. cbn [memo_ com_memo].
    destruct (calculado (m 0%nat cfg a)) eqn:Ecal.
    { exists m. rewrite (proj1 Hok _ _ _ Ecal) at 1.
      partes; auto using memo_cresce_refl. }
    assert (Hw : exists m',
               memoiza (com_memo this m) 0 cfg a (f_pura this 0 cfg a)
               = Some (f_pura this 0 cfg a, com_memo this m')
               /\ memo_ok this m' /\ memo_cresce m m'
               /\ calculado (m' 0%nat cfg a) = true).
    { exists (grava m 0 cfg a (f_pura this 0 cfg a)).
      partes; [reflexivity| | |].
      - apply grava_ok; [assumption|discriminate].
      - apply grava_cresce, f_pura_calculado.
      - rewrite grava_mesma. apply f_pura_calculado. }
    change (EhInternamenteConsistente (com_memo this m) 0 cfg)
      with (EhInternamenteConsistente this 0 cfg).
    change (SaoCompativeis (com_memo this m) 0 cfg a)
      with (SaoCompativeis this 0 cfg a).
    change (valor_da_linha (com_memo this m) 0 cfg)
      with (valor_da_linha this 0 cfg).
    destruct (EhInternamenteConsistente this 0 cfg) eqn:Ei; cbn [negb].
    + rewrite f_pura_O in Hw |- * by assumption.
      destruct (SaoCompativeis this 0 cfg a); exact Hw.
    + rewrite f_pura_inconsistente in Hw |- * by assumption. exact Hw.
  - rewrite f_eq. unfold le_memo.
    change (dentro (com_memo this m) (S acima) cfg a)
      with (dentro this (S acima) cfg a).
    rewrite Hd. cbn [memo_ com_memo].
    destruct (calculado (m (S acima) cfg a)) eqn:Ecal.
    { exists m. rewrite (proj1 Hok _ _ _ Ecal) at 1.
      partes; auto using memo_cresce_refl. }
    change (EhInternamenteConsistente (com_memo this m) (S acima) cfg)
      with (EhInternamenteConsistente this (S acima) cfg).
    change (valor_da_linha (com_memo this m) (S acima) cfg)
      with (valor_da_linha this (S acima) cfg).
    change (possibilidades (com_memo this m)) with (possibilidades this).
    apply dentro_spec in Hd. destruct Hd as (Hl & Hcfg & Ha).
    destruct (EhInternamenteConsistente this (S acima) cfg) eqn:Ei;
      cbn [negb].
    + destruct (laco_correto acima cfg a IH ltac:(lia) Ha
        (possibilidades this) invalida m Hok)
        as (m1 & -> & Hok1 & Hc1 & Hcal1).
      { intros p. apply possibilidades_In. }
      rewrite <- f_pura_S by assumption.
      exists (grava m1 (S acima) cfg a (f_pura this (S acima) cfg a)).
      unfold memoiza. cbn [memo_ com_memo]. partes; [reflexivity| | |].
      * apply grava_ok; [assumption|].
        intros l0 [= <-] Hv.
        destruct (f_pura_viva_S this acima cfg a Hv)
          as (_ & Hp & Hcp & _).
        apply Hcal1; [now apply possibilidades_In | assumption].
      * eapply memo_cresce_trans; [exact Hc1|].
        apply grava_cresce, f_pura_calculado.
      * rewrite grava_mesma. apply f_pura_calculado.
    + rewrite f_pura_inconsistente by assumption.
      exists (grava m (S acima) cfg a invalida).
      unfold memoiza. cbn [memo_ com_memo]. partes; [reflexivity| | |].
      * rewrite <- (f_pura_inconsistente this (S acima) cfg a Ei).
        apply grava_ok; [assumption|].
        intros l0 _ Hv.
        rewrite f_pura_inconsistente in Hv by assumption. now cbn in Hv.
      * now apply grava_cresce.
      * now rewrite grava_mesma.
Qed.
End Correcao.

(** ** The anchor loop *)

Section Ancora.
Variable this : Cifra.
Variable ultima : nat.
Local Abbreviation np := (num_possibilidades_ this).
Local Abbreviation F := (fun i => f_pura this ultima i i).

Lemma ancora_intervalo (k : nat) :
  let acc := fold_left
             (fun (acc : Resposta * Z) i =>
                if valor (F i) >? valor (fst acc) then (F i, i) else acc)
             (intervalo k) (invalida, -1) in
  (forall p, 0 <= p < Z.of_nat k -> valor (F p) <= valor (fst acc))
  /\ ((acc = (invalida, -1))
    \/ (-1 < valor (fst acc) /\ 0 <= snd acc < Z.of_nat k
        /\ fst acc = F (snd acc)
        /\ forall p, 0 <= p < snd acc -> valor (F p) < valor (fst acc))).
Proof.
  induction k as [|k IH]; cbn zeta.
  - cbn. split; [lia|now left].
  - rewrite intervalo_S, fold_left_app. cbn [fold_left].
    cbn zeta in IH.
    set (acc := fold_left _ (intervalo k) (invalida, -1)) in *.
    destruct IH as (Hmax & Hsel).
    destruct (Z.gtb_spec (valor (F (Z.of_nat k))) (valor (fst acc)))
      as [G|G].
    + cbn [fst snd]. split.
      * intros p Hp.
        destruct (Z.eq_dec p (Z.of_nat k)) as [->|]; [lia|].
        specialize (Hmax p ltac:(lia)). lia.
      * right. assert (-1 <= valor (fst acc)).
        { destruct Hsel as [->|(H1 & _)]; cbn; lia. }
        repeat split; try lia.
        intros p Hp. specialize (Hmax p ltac:(lia)). lia.
    + split.
      * intros p Hp.
        destruct (Z.eq_dec p (Z.of_nat k)) as [->|]; [lia|].
        apply Hmax. lia.
      * destruct Hsel as [Hd|(H1 & H2 & H3 & H4)]; [now left|right].
        repeat split; auto; lia.
Qed.

(** The anchor loop picks the first configuration, in increasing order,
    whose self-anchored state of the last row has the greatest value;
    the empty configuration makes that value non-negative. *)
Lemma ancora_pura_spec :
  0 < np ->
  let acc := ancora_pura this ultima in
  0 <= valor (fst acc)
  /\ 0 <= snd acc < np
  /\ fst acc = F (snd acc)
  /\ (forall p, 0 <= p < np -> valor (F p) <= valor (fst acc))
  /\ (forall p, 0 <= p < snd acc -> valor (F p) < valor (fst acc)).
Proof.
  intros Hnp. cbn zeta. unfold ancora_pura, possibilidades.
  pose proof (ancora_intervalo (Z.to_nat np)) as M. cbn zeta in M.
  set (acc := fold_left _ _ (invalida, -1)) in *.
  destruct M as (Hmax & Hsel).
  pose proof (Hmax 0 ltac:(lia)) as H0.
  pose proof (f_pura_zero this ultima 0 Hnp) as Hz.
  destruct Hsel as [E|(H1 & H2 & H3 & H4)].
  - rewrite E in H0. cbn in H0. lia.
  - repeat split; auto; try lia. intros p Hp. apply Hmax. lia.
Qed.

Hypothesis Hult : (ultima < L_ this)%nat.

Lemma ancora_laco (ps : list Z) :
  forall acc m,
  memo_ok this m ->
  (forall p, In p ps -> 0 <= p < np) ->
  exists m',
    laco
      (fun i (acc : Resposta * Z) this' =>
         match f ultima i i this' with
         | None => None
         | Some (resp, this'') =>
             Some (if valor resp >? valor (fst acc)
                   then (resp, i) else acc, this'')
         end)
      ps acc (com_memo this m)
    = Some (fold_left
              (fun (acc : Resposta * Z) i =>
                 if valor (F i) >? valor (fst acc)
                 then (F i, i) else acc)
              ps acc,
            com_memo this m')
    /\ memo_ok this m'
    /\ memo_cresce m m'
    /\ (forall p, In p ps -> calculado (m' ultima p p) = true).
Proof.
  induction ps as [|p ps IH]; intros acc m Hok Hps.
  - exists m. cbn. partes; auto using memo_cresce_refl.
  - cbn [laco fold_left].
    assert (Hd : dentro this ultima p p = true).
    { apply dentro_spec. specialize (Hps p ltac:(now left)). lia. }
    destruct (f_correta this ultima p p m Hd Hok)
      as (m1 & -> & Hok1 & Hc1 & Hcal1).
    destruct (IH (if valor (F p) >? valor (fst acc)
      then (F p, p) else acc) m1 Hok1)
      as (m2 & -> & Hok2 & Hc2 & Hcal2).
    { intros q Hq. apply Hps. now right. }
    exists m2. partes; eauto using memo_cresce_trans.
    intros q [<-|Hq]; [apply Hc2, Hcal1 | now apply Hcal2].
Qed.

Lemma melhor_ancora_spec (m : Memo) :
  memo_ok this m ->
  exists m',
  melhor_ancora ultima (com_memo this m)
  = Some (ancora_pura this ultima, com_memo this m')
  /\ memo_ok this m'
  /\ memo_cresce m m'
  /\ (forall p, 0 <= p < np -> calculado (m' ultima p p) = true).
Proof.
  intros Hok.
  destruct (ancora_laco (possibilidades this) (invalida, -1) m Hok)
    as (m' & E & Hok' & Hc & Hcal).
  { intros p. apply possibilidades_In. }
  exists m'. partes; auto.
  intros p Hp. apply Hcal. now apply possibilidades_In.
Qed.
End Ancora.

(** ** The reconstruction *)

Lemma com_memo_id (this : Cifra) : com_memo this (memo_ this) = this.
Proof. now destruct this. Qed.

Lemma acrescenta_nil (this : Cifra) : acrescenta this [] = this.
Proof.
  destruct this. unfold acrescenta. cbn.
  now rewrite Z.add_0_r, app_nil_r.
Qed.

Lemma usa_acrescenta (this : Cifra) (ps : list (Z * Z)) (p : Z * Z) :
  usa (acrescenta this ps) p = acrescenta this (ps ++ [p]).
Proof.
  unfold usa, acrescenta. cbn. f_equal.
  - rewrite length_app. cbn. lia.
  - now rewrite app_assoc.
Qed.

Lemma marca_acrescenta (i : nat) (cfg : Z) (this : Cifra)
  (ps : list (Z * Z)) :
  marca i cfg (acrescenta this ps)
  = acrescenta this (ps ++ celulas_da_linha this i cfg).
Proof.
  unfold marca, celulas_da_linha.
  change (C_ (acrescenta this ps)) with (C_ this).
  generalize (rev (seq 0 (C_ this))). intros js. revert ps.
  induction js as [|j js IH]; intros ps; cbn [fold_left filter map].
  - now rewrite app_nil_r.
  - destruct (GET_BIT cfg j =? 1).
    + rewrite usa_acrescenta, IH, <- app_assoc. reflexivity.
    + apply IH.
Qed.

Lemma volta_da_linha (i L : nat) : (i < L)%nat -> ((i + L) mod L)%nat = i.
Proof.
  intros H. replace (i + L)%nat with (i + 1 * L)%nat by lia.
  rewrite Nat.Div0.mod_add. now apply Nat.mod_small.
Qed.

Lemma rev_seq_S (n : nat) : rev (seq 0 (S n)) = n :: rev (seq 0 n).
Proof. now rewrite seq_S, rev_app_distr. Qed.

Section Reconstrucao.
Variable this : Cifra.
Variable conf_inicial : Z.
Hypothesis Hok : memo_ok this (memo_ this).

Lemma cadeia_ok (linha : nat) :
  forall cfg,
  elo_ok this (memo_ this) conf_inicial (linha, cfg) ->
  Forall (elo_ok this (memo_ this) conf_inicial)
    (cadeia this conf_inicial linha cfg).
Proof.
  induction linha as [|acima IH]; intros cfg Helo; cbn [cadeia].
  - constructor; [assumption|constructor].
  - constructor; [assumption|]. apply IH.
    destruct Helo as (Hd & Hcal & Hv). cbn [fst snd] in *.
    destruct (f_pura_viva_S this acima cfg conf_inicial Hv)
      as (_ & Hp & _ & Hvp & _).
    apply dentro_spec in Hd.
    repeat split; cbn [fst snd]; auto.
    + apply dentro_spec. lia.
    + destruct Hok as [H1 H2].
      specialize (H2 acima cfg conf_inicial Hcal).
      rewrite (H1 _ _ _ Hcal) in H2. now apply H2.
Qed.

Lemma visita_spec (i : nat) (cfg : Z) (lidas : list (nat * Z * Z))
  (ps : list (Z * Z)) :
  elo_ok this (memo_ this) conf_inicial (i, cfg) ->
  visita conf_inicial i (cfg, lidas) (acrescenta this ps)
  = Some ((conf (f_pura this i cfg conf_inicial),
         lidas ++ [(i, cfg, conf_inicial)]),
        acrescenta this (ps ++ celulas_da_linha this i cfg)).
Proof.
  intros (Hd & Hcal & _). cbn [fst snd] in *.
  unfold visita. cbn [fst snd]. rewrite marca_acrescenta.
  change (L_ (acrescenta this (ps ++ celulas_da_linha this i cfg)))
    with (L_ this).
  pose proof Hd as Hd'. apply dentro_spec in Hd'.
  rewrite volta_da_linha by lia.
  unfold le_memo.
  change (dentro (acrescenta this (ps ++ celulas_da_linha this i cfg))
    i cfg conf_inicial)
    with (dentro this i cfg conf_inicial).
  rewrite Hd. cbn [memo_ acrescenta].
  now rewrite (proj1 Hok _ _ _ Hcal).
Qed.

Lemma percorre_laco (linha : nat) :
  forall cfg lidas ps,
  elo_ok this (memo_ this) conf_inicial (linha, cfg) ->
  exists cfg',
    laco (visita conf_inicial) (rev (seq 0 (S linha))) (cfg, lidas)
      (acrescenta this ps)
    = Some ((cfg',
             lidas
             ++ leituras conf_inicial
                  (cadeia this conf_inicial linha cfg)),
            acrescenta this
              (ps ++ celulas_da_cadeia this
                       (cadeia this conf_inicial linha cfg))).
Proof.
  induction linha as [|acima IH]; intros cfg lidas ps Helo;
    rewrite rev_seq_S; cbn [laco]; rewrite visita_spec by assumption.
  - eexists. cbn. now rewrite app_nil_r.
  - pose proof (cadeia_ok (S acima) cfg Helo) as Hc.
    cbn [cadeia] in Hc. inversion Hc as [|? ? _ Hc']; subst.
    assert (Hp : elo_ok this (memo_ this) conf_inicial
      (acima, conf (f_pura this (S acima) cfg conf_inicial))).
    { destruct acima; cbn [cadeia] in Hc'; now inversion Hc'. }
    destruct (IH _ (lidas ++ [(S acima, cfg, conf_inicial)])
      (ps ++ celulas_da_linha this (S acima) cfg) Hp)
      as (cfg' & ->).
    exists cfg'. cbn [cadeia leituras celulas_da_cadeia flat_map map fst snd].
    now rewrite <- !app_assoc.
Qed.
End Reconstrucao.

(** ** [Resolve] in terms of [f_pura] *)

Lemma Resolve_rastro_spec (this : Cifra) (ultima : nat) :
  L_ this = S ultima ->
  0 < num_possibilidades_ this ->
  memo_ok this (memo_ this) ->
  let acc := ancora_pura this ultima in
  let cs := cadeia this (snd acc) ultima (snd acc) in
  exists m',
    Resolve_rastro this
    = Some (leituras (snd acc) cs,
            acrescenta (com_max_valor (com_memo this m') (valor (fst acc)))
              (celulas_da_cadeia this cs))
    /\ memo_ok this m'
    /\ memo_cresce (memo_ this) m'
    /\ Forall (elo_ok this m' (snd acc)) cs
    /\ melhor_ancora ultima this = Some (acc, com_memo this m').
Proof.
  intros HL Hnp Hok acc cs.
  destruct (melhor_ancora_spec this ultima ltac:(lia) (memo_ this) Hok)
    as (m' & E & Hok' & Hc & Hcal).
  rewrite com_memo_id in E.
  pose proof (ancora_pura_spec this ultima Hnp) as A. cbn zeta in A.
  fold acc in A. destruct A as (Hv & Hcim & Hfst & _).
  set (this2 := com_max_valor (com_memo this m') (valor (fst acc))).
  assert (Hok2 : memo_ok this2 (memo_ this2)) by exact Hok'.
  assert (Helo : elo_ok this2 (memo_ this2) (snd acc) (ultima, snd acc)).
  { repeat split; cbn [fst snd].
    - apply dentro_spec. change (L_ this2) with (L_ this).
      change (num_possibilidades_ this2) with (num_possibilidades_ this).
      lia.
    - now apply Hcal.
    - change (f_pura this2) with (f_pura this). rewrite <- Hfst. lia. }
  exists m'. partes; [| | |split]; auto.
  - unfold Resolve_rastro. rewrite HL, E. fold acc.
    destruct acc as [maximo cim] eqn:Eacc. cbn [fst snd] in *.
    fold this2. unfold percorre.
    change (L_ this2) with (L_ this). rewrite HL.
    rewrite <- (acrescenta_nil this2) at 1.
    destruct (percorre_laco this2 cim Hok2 ultima cim [] [] Helo)
      as (cfg' & ->).
    reflexivity.
  - exact (cadeia_ok this2 (snd acc) Hok2 ultima (snd acc) Helo).
Qed.

(** ** The object built by [main] *)

Lemma AdicionaCristal_campos (x y v d c e b : Z) (this this' : Cifra) :
  AdicionaCristal x y v d c e b this = Some this' ->
  exists cx, this' = com_caixa this cx.
Proof.
  unfold AdicionaCristal.
  destruct ((x - 1 <? 0) || (y - 1 <? 0)); [discriminate|].
  destruct (nth_error (caixa_ this) (Z.to_nat (x - 1))) as [fila|];
    [|discriminate].
  destruct (atribui fila _ _) as [fila'|]; [|discriminate].
  destruct (atribui (caixa_ this) _ _) as [cx|]; [|discriminate].
  intros [= <-]. now exists cx.
Qed.

Lemma adiciona_todos_campos (rs : list Registro) :
  forall this this',
    adiciona_todos rs this = Some this' ->
    exists cx, this' = com_caixa this cx.
Proof.
  induction rs as [|r rs IH]; intros this this'; cbn [adiciona_todos].
  - intros [= <-]. exists (caixa_ this). now destruct this.
  - unfold adiciona.
    destruct (AdicionaCristal _ _ _ _ _ _ _ this) as [this1|] eqn:E;
      [|discriminate].
    apply AdicionaCristal_campos in E. destruct E as (cx1 & ->).
    intros H. apply IH in H. destruct H as (cx & ->). now exists cx.
Qed.

Lemma constroi_campos (L C : nat) (rs : list Registro) (this : Cifra) :
  constroi L C rs = Some this ->
  exists cx,
    this = com_caixa (Cifra_novo L C (Z.of_nat (length rs))) cx.
Proof. apply adiciona_todos_campos. Qed.

Lemma potencia_positiva (C : nat) : 0 < Z.shiftl 1 (Z.of_nat C).
Proof. rewrite Z.shiftl_1_l. apply Z.pow_pos_nonneg; lia. Qed.

Lemma constroi_pronta (L C : nat) (rs : list Registro) (this : Cifra) :
  constroi L C rs = Some this -> pronta this.
Proof.
  intros H. apply constroi_campos in H. destruct H as (cx & ->).
  split; [split|]; cbn.
  - discriminate.
  - discriminate.
  - apply potencia_positiva.
Qed.

(** ** The shape of the box

    The object built by [main] has [L_] rows of [C_] crystals, so the reads
    [caixa_[linha][j]] of the predicates, which [celula] models, are inside
    the vectors whenever [linha < L_] and [j < C_]. *)

Lemma atribui_forma {A : Type} (P : A -> Prop) (l l' : list A) (n : nat)
  (a : A) :
  atribui l n a = Some l' ->
  length l' = length l /\ (Forall P l -> P a -> Forall P l').
Proof.
  revert l' n. induction l as [|h t IH]; intros l' n; [discriminate|].
  destruct n as [|n]; cbn [atribui].
  - intros [= <-]. split; [reflexivity|].
    intros H Ha. inversion H; subst. now constructor.
  - destruct (atribui t n a) as [t'|] eqn:E; [|discriminate].
    intros [= <-]. destruct (IH _ _ E) as [Hl Hf]. split.
    + cbn. now rewrite Hl.
    + intros H Ha. inversion H; subst. constructor; auto.
Qed.

Lemma atribui_dentro {A : Type} (l : list A) (n : nat) (a : A) :
  (n < length l)%nat -> exists l', atribui l n a = Some l'.
Proof.
  revert n. induction l as [|h t IH]; intros n Hn; cbn in Hn; [lia|].
  destruct n as [|n]; cbn [atribui]; [eauto|].
  destruct (IH n ltac:(lia)) as (t' & ->). eauto.
Qed.

Lemma AdicionaCristal_forma (x y v d c e b : Z) (this this' : Cifra) :
  forma this ->
  AdicionaCristal x y v d c e b this = Some this' ->
  forma this'.
Proof.
  intros [Hl Hf]. unfold AdicionaCristal.
  destruct ((x - 1 <? 0) || (y - 1 <? 0)); [discriminate|].
  destruct (nth_error (caixa_ this) (Z.to_nat (x - 1))) as [fila|] eqn:En;
    [|discriminate].
  destruct (atribui fila _ _) as [fila'|] eqn:Ef; [|discriminate].
  destruct (atribui (caixa_ this) _ _) as [cx|] eqn:Ec; [|discriminate].
  intros [= <-]. unfold forma. cbn [caixa_ L_ C_ com_caixa].
  destruct (atribui_forma (fun fila => length fila = C_ this) _ _ _ _ Ec)
    as [Hl' Hf'].
  split; [congruence|]. apply Hf'; [exact Hf|].
  destruct (atribui_forma (fun _ => True) _ _ _ _ Ef) as [-> _].
  apply nth_error_In in En. rewrite Forall_forall in Hf. now apply Hf.
Qed.

Lemma constroi_forma (L C : nat) (rs : list Registro) (this : Cifra) :
  constroi L C rs = Some this -> forma this.
Proof.
  unfold constroi.
  assert (H0 : forma (Cifra_novo L C (Z.of_nat (length rs)))).
  { split; cbn; [apply repeat_length|].
    apply Forall_forall. intros fila H. apply repeat_spec in H.
    subst fila. apply repeat_length. }
  revert H0. generalize (Cifra_novo L C (Z.of_nat (length rs))).
  induction rs as [|r rs IH]; intros c0 H0; cbn [adiciona_todos].
  - now intros [= <-].
  - unfold adiciona.
    destruct (AdicionaCristal _ _ _ _ _ _ _ c0) as [c1|] eqn:E;
      [|discriminate].
    apply IH. eapply AdicionaCristal_forma; eassumption.
Qed.

Lemma celula_dentro (this : Cifra) (linha j : nat) :
  forma this ->
  (linha < L_ this)%nat -> (j < C_ this)%nat ->
  exists fila,
    nth_error (caixa_ this) linha = Some fila
    /\ nth_error fila j = Some (celula this linha j).
Proof.
  intros [Hl Hf] Hlinha Hj.
  destruct (nth_error (caixa_ this) linha) as [fila|] eqn:En.
  - exists fila. split; [reflexivity|].
    unfold celula. rewrite (nth_error_nth _ _ [] En).
    apply nth_error_nth'. apply nth_error_In in En.
    rewrite Forall_forall in Hf. rewrite (Hf _ En). exact Hj.
  - apply nth_error_None in En. lia.
Qed.

(** A property of the brightness values given to [main] that holds of
    [-1] holds of every cell of the box. *)
Lemma AdicionaCristal_brilho (P : Z -> Prop) (x y v d c e b : Z)
  (this this' : Cifra) :
  Forall (Forall (fun k => P (brilho k))) (caixa_ this) ->
  P v ->
  AdicionaCristal x y v d c e b this = Some this' ->
  Forall (Forall (fun k => P (brilho k))) (caixa_ this').
Proof.
  intros Hf Hv. unfold AdicionaCristal.
  destruct ((x - 1 <? 0) || (y - 1 <? 0)); [discriminate|].
  destruct (nth_error (caixa_ this) (Z.to_nat (x - 1))) as [fila|] eqn:En;
    [|discriminate].
  destruct (atribui fila _ _) as [fila'|] eqn:Ef; [|discriminate].
  destruct (atribui (caixa_ this) _ _) as [cx|] eqn:Ec; [|discriminate].
  intros [= <-]. cbn [caixa_ com_caixa].
  apply (proj2 (atribui_forma _ _ _ _ _ Ec)); [exact Hf|].
  apply (proj2 (atribui_forma _ _ _ _ _ Ef)); [|exact Hv].
  apply nth_error_In in En. rewrite Forall_forall in Hf. now apply Hf.
Qed.

Lemma constroi_brilho (L C : nat) (rs : list Registro) (this : Cifra)
  (P : Z -> Prop) :
  constroi L C rs = Some this ->
  P (-1) ->
  Forall (fun r => P (rv r)) rs ->
  forall i j, P (brilho (celula this i j)).
Proof.
  intros Hc Hp Hrs.
  assert (Hf : Forall (Forall (fun k => P (brilho k))) (caixa_ this)).
  { revert Hc. unfold constroi.
    assert (H0 : Forall (Forall (fun k => P (brilho k)))
                   (caixa_ (Cifra_novo L C (Z.of_nat (length rs))))).
    { cbn. apply Forall_forall. intros fila H. apply repeat_spec in H.
      subst fila. apply Forall_forall. intros k H.
      apply repeat_spec in H. now subst k. }
    revert H0. generalize (Cifra_novo L C (Z.of_nat (length rs))).
    induction Hrs as [|r rs Hr Hrs IH]; intros c0 H0;
      cbn [adiciona_todos].
    - now intros [= <-].
    - unfold adiciona.
      destruct (AdicionaCristal _ _ _ _ _ _ _ c0) as [c1|] eqn:E;
        [|discriminate].
      apply IH. eapply AdicionaCristal_brilho; eassumption. }
  intros i j. unfold celula.
  destruct (nth_in_or_default i (caixa_ this) []) as [H| ->].
  - rewrite Forall_forall in Hf. specialize (Hf _ H).
    destruct (nth_in_or_default j (nth i (caixa_ this) []) Cristal_padrao)
      as [H'| ->]; [|exact Hp].
    rewrite Forall_forall in Hf. now apply Hf.
  - destruct j; exact Hp.
Qed.

(** A position inside the box can always receive a crystal. *)
Lemma AdicionaCristal_dentro (x y v d c e b : Z) (this : Cifra) :
  forma this ->
  1 <= x <= Z.of_nat (L_ this) ->
  1 <= y <= Z.of_nat (C_ this) ->
  exists this', AdicionaCristal x y v d c e b this = Some this'.
Proof.
  intros Hforma Hx Hy. unfold AdicionaCristal.
  destruct (Z.ltb_spec (x - 1) 0); [lia|].
  destruct (Z.ltb_spec (y - 1) 0); [lia|]. cbn [orb].
  destruct (celula_dentro this (Z.to_nat (x - 1)) (Z.to_nat (y - 1)) Hforma)
    as (fila & En & Ej); try lia.
  rewrite En.
  destruct (atribui_dentro fila (Z.to_nat (y - 1))
              {| brilho := v;
                 conexoes :=
                   let conexoes := 0 in
                   let conexoes :=
                     if d =? 1 then SET_BIT conexoes 0
                     else CLEAR_BIT conexoes 0 in
                   let conexoes :=
                     if c =? 1 then SET_BIT conexoes 1
                     else CLEAR_BIT conexoes 1 in
                   let conexoes :=
                     if e =? 1 then SET_BIT conexoes 2
                     else CLEAR_BIT conexoes 2 in
                   if b =? 1 then SET_BIT conexoes 3
                   else CLEAR_BIT conexoes 3 |}) as (fila' & Ef).
  { apply nth_error_Some. congruence. }
  cbn zeta in Ef. rewrite Ef.
  destruct (atribui_dentro (caixa_ this) (Z.to_nat (x - 1)) fila')
    as (cx & ->).
  { apply nth_error_Some. congruence. }
  eauto.
Qed.

(** ** Chains *)

Section Cadeias.
Variable this : Cifra.
Variable a : Z.

Lemma cadeia_linhas (linha : nat) (cfg : Z) :
  map fst (cadeia this a linha cfg) = rev (seq 0 (S linha)).
Proof.
  revert cfg. induction linha as [|acima IH]; intros cfg.
  - reflexivity.
  - rewrite rev_seq_S. cbn [cadeia map fst]. now rewrite IH.
Qed.

Lemma cadeia_In_linha (linha : nat) (cfg : Z) (r : nat) (c : Z) :
  In (r, c) (cadeia this a linha cfg) -> (r <= linha)%nat.
Proof.
  intros H. apply (in_map fst) in H. rewrite cadeia_linhas in H.
  apply in_rev, in_seq in H. cbn [fst] in H. lia.
Qed.

Lemma cadeia_funcional (linha : nat) :
  forall cfg r c1 c2,
  In (r, c1) (cadeia this a linha cfg) ->
  In (r, c2) (cadeia this a linha cfg) ->
  c1 = c2.
Proof.
  induction linha as [|acima IH]; intros cfg r c1 c2; cbn [cadeia].
  - intros [[= <- <-]|[]] [[= <-]|[]]. reflexivity.
  - intros [[= <- <-]|H1] [E|H2].
    + now injection E.
    + apply cadeia_In_linha in H2. lia.
    + injection E as <- <-. apply cadeia_In_linha in H1. lia.
    + eapply IH; eassumption.
Qed.

Lemma cadeia_cabeca (linha : nat) (cfg : Z) :
  In (linha, cfg) (cadeia this a linha cfg).
Proof. destruct linha; cbn [cadeia]; now left. Qed.

(** Consecutive rows of a chain: the row above holds the predecessor
    recorded for the row below. *)
Lemma cadeia_vizinhas (linha : nat) :
  forall cfg r c,
  In (S r, c) (cadeia this a linha cfg) ->
  In (r, conf (f_pura this (S r) c a)) (cadeia this a linha cfg).
Proof.
  induction linha as [|acima IH]; intros cfg r c; cbn [cadeia].
  - intros [[=]|[]].
  - intros [[= <- <-]|H]; right.
    + apply cadeia_cabeca.
    + now apply IH.
Qed.
End Cadeias.

(** ** The cells of a chain *)

Lemma soma_app (l1 l2 : list Z) : soma (l1 ++ l2) = soma l1 + soma l2.
Proof. unfold soma. induction l1 as [|x l1 IH]; cbn in *; lia. Qed.

Lemma soma_rev (l : list Z) : soma (rev l) = soma l.
Proof.
  induction l as [|x l IH]; cbn [rev]; [reflexivity|].
  rewrite soma_app, IH. unfold soma. cbn. lia.
Qed.

Lemma filter_rev {A : Type} (p : A -> bool) (l : list A) :
  filter p (rev l) = rev (filter p l).
Proof.
  induction l as [|x l IH]; cbn [rev filter]; [reflexivity|].
  rewrite filter_app, IH. cbn [filter].
  destruct (p x); cbn [rev]; [reflexivity|now rewrite app_nil_r].
Qed.

Section Celulas.
Variable this : Cifra.

Lemma brilho_em_celula (i j : nat) :
  brilho_em this (Z.of_nat i + 1, Z.of_nat j + 1)
  = brilho (celula this i j).
Proof.
  unfold brilho_em. cbn [fst snd].
  now replace (Z.to_nat (Z.of_nat i + 1 - 1)) with i by lia;
    replace (Z.to_nat (Z.of_nat j + 1 - 1)) with j by lia.
Qed.

Lemma In_celulas_da_linha (i : nat) (cfg : Z) (r j : nat) :
  selecionada (celulas_da_linha this i cfg) r j
  <-> r = i /\ (j < C_ this)%nat /\ GET_BIT cfg j = 1.
Proof.
  unfold selecionada, celulas_da_linha.
  rewrite in_map_iff. split.
  - intros (j' & E & H). injection E as E1 E2.
    apply filter_In in H. destruct H as [H1 H2].
    apply in_rev, in_seq in H1. apply Z.eqb_eq in H2.
    assert (j' = j) by lia. subst j'. repeat split; auto; lia.
  - intros (-> & Hj & Hb). exists j. split; [reflexivity|].
    apply filter_In. split.
    + apply -> in_rev. apply in_seq. lia.
    + now apply Z.eqb_eq.
Qed.

Lemma In_celulas_da_cadeia (cs : list (nat * Z)) (r j : nat) :
  selecionada (celulas_da_cadeia this cs) r j
  <-> exists cfg,
      In (r, cfg) cs /\ (j < C_ this)%nat /\ GET_BIT cfg j = 1.
Proof.
  unfold selecionada, celulas_da_cadeia. rewrite in_flat_map. split.
  - intros ([i cfg] & Hin & H). cbn [fst snd] in H.
    apply In_celulas_da_linha in H. destruct H as (-> & Hj & Hb).
    now exists cfg.
  - intros (cfg & Hin & Hj & Hb). exists (r, cfg). split; [assumption|].
    cbn [fst snd]. now apply In_celulas_da_linha.
Qed.
End Celulas.

(** ** Sums that stay inside [int]

    When the brightness of every crystal lies between [- A] and [B], the
    box being small enough for [L_ * C_ * A] and [L_ * C_ * B] not to
    exceed [INT_MAX], no addition of [f] wraps around: the value of a row
    is the sum of the brightness of its cells, and the value of a live
    state is the brightness collected along its chain. *)

Section Exato.
Variable this : Cifra.
Variables A B : Z.
Hypothesis HA : 0 <= A.
Hypothesis HB : 0 <= B.
Hypothesis Hfaixa :
  forall i j,
    brilho (celula this i j) = -1 \/ - A <= brilho (celula this i j) <= B.

Local Abbreviation nc := (Z.of_nat (C_ this)).

Lemma valor_da_linha_exato (i : nat) (cfg : Z) :
  EhInternamenteConsistente this i cfg = true ->
  nc * A <= INT_MAX ->
  nc * B <= INT_MAX ->
  valor_da_linha this i cfg = brilho_da_linha this i cfg
  /\ - (nc * A) <= valor_da_linha this i cfg <= nc * B.
Proof.
  intros E HcA HcB. unfold EhInternamenteConsistente in E.
  rewrite forallb_forall in E.
  unfold valor_da_linha, brilho_da_linha, celulas_da_linha.
  rewrite filter_rev, !map_rev, soma_rev.
  enough (G : forall js lo hi v,
             (forall j, In j js -> In j (seq 0 (C_ this))) ->
             0 <= lo -> 0 <= hi -> - lo <= v <= hi ->
             lo + Z.of_nat (length js) * A <= INT_MAX ->
             hi + Z.of_nat (length js) * B <= INT_MAX ->
             let w := fold_left
                        (fun valor_linha j =>
                           if GET_BIT cfg j =? 1
                           then soma_int valor_linha
                                  (brilho (celula this i j))
                           else valor_linha) js v in
             w = v + soma (map (brilho_em this)
                             (map (fun j => (Z.of_nat i + 1, Z.of_nat j + 1))
                                (filter (fun j => GET_BIT cfg j =? 1) js)))
             /\ - (lo + Z.of_nat (length js) * A) <= w
                <= hi + Z.of_nat (length js) * B).
  { specialize (G (seq 0 (C_ this)) 0 0 0 (fun j H => H)). cbn zeta in G.
    rewrite length_seq in G.
    destruct G as [G1 G2]; lia. }
  induction js as [|j js IH]; intros lo hi v Hjs Hlo Hhi Hv HlA HhB;
    cbn [fold_left filter length] in *; cbn zeta.
  - unfold soma. cbn. lia.
  - rewrite Nat2Z.inj_succ, !Z.mul_succ_l in *.
    assert (HnA : 0 <= Z.of_nat (length js) * A)
      by (apply Z.mul_nonneg_nonneg; lia).
    assert (HnB : 0 <= Z.of_nat (length js) * B)
      by (apply Z.mul_nonneg_nonneg; lia).
    specialize (E j (Hjs j ltac:(now left))).
    destruct (GET_BIT cfg j =? 1).
    + destruct (Z.eqb_spec (brilho (celula this i j)) (-1)) as [|Hn];
        [now cbn in E|].
      destruct (Hfaixa i j) as [|Hb]; [contradiction|].
      rewrite soma_int_exata
        by (unfold INT_MIN, INT_MAX in *; lia).
      destruct (IH (lo + A) (hi + B) (v + brilho (celula this i j))
                  ltac:(intros k Hk; apply Hjs; now right))
        as [H1 H2]; try lia.
      cbn [map]. rewrite brilho_em_celula.
      unfold soma in *. cbn [fold_right]. lia.
    + destruct (IH (lo + A) (hi + B) v
                  ltac:(intros k Hk; apply Hjs; now right))
        as [H1 H2]; lia.
Qed.

(** The value of a live state is the brightness collected along its
    chain. *)
Lemma f_pura_exato (a : Z) (linha : nat) :
  Z.of_nat (S linha) * (nc * A) <= INT_MAX ->
  Z.of_nat (S linha) * (nc * B) <= INT_MAX ->
  forall cfg,
    valor (f_pura this linha cfg a) <> -1 ->
    valor (f_pura this linha cfg a)
    = soma (map (brilho_em this)
              (celulas_da_cadeia this (cadeia this a linha cfg)))
    /\ - (Z.of_nat (S linha) * (nc * A))
       <= valor (f_pura this linha cfg a)
       <= Z.of_nat (S linha) * (nc * B).
Proof.
  assert (HcA : 0 <= nc * A) by (apply Z.mul_nonneg_nonneg; lia).
  assert (HcB : 0 <= nc * B) by (apply Z.mul_nonneg_nonneg; lia).
  induction linha as [|acima IH]; intros HlA HlB cfg Hv;
    cbn [cadeia celulas_da_cadeia flat_map fst snd];
    rewrite map_app, soma_app.
  - destruct (f_pura_viva_O this cfg a Hv) as (Ei & _ & -> & _).
    change (Z.of_nat 1) with 1 in *. rewrite !Z.mul_1_l in *.
    destruct (valor_da_linha_exato 0 cfg Ei HlA HlB) as [H1 H2].
    fold (brilho_da_linha this 0 cfg). rewrite <- H1.
    split; [unfold soma; cbn; lia|lia].
  - destruct (f_pura_viva_S this acima cfg a Hv)
      as (Ei & _ & _ & Hp & -> & _).
    rewrite Nat2Z.inj_succ, !Z.mul_succ_l in HlA, HlB |- *.
    assert (HnA : 0 <= Z.of_nat (S acima) * (nc * A))
      by (apply Z.mul_nonneg_nonneg; lia).
    assert (HnB : 0 <= Z.of_nat (S acima) * (nc * B))
      by (apply Z.mul_nonneg_nonneg; lia).
    destruct (valor_da_linha_exato (S acima) cfg Ei) as [H1 H2];
      [lia|lia|].
    destruct (IH ltac:(lia) ltac:(lia) _ Hp) as [H3 H4].
    fold (celulas_da_cadeia this
            (cadeia this a acima (conf (f_pura this (S acima) cfg a)))).
    fold (brilho_da_linha this (S acima) cfg).
    rewrite soma_int_exata by (unfold INT_MIN, INT_MAX in *; lia).
    rewrite <- H1, <- H3. split; lia.
Qed.
End Exato.

(** ** [Resolve] on the object built by [main] *)

Lemma f_pura_viva_consistente (this : Cifra) (linha : nat) (cfg a : Z) :
  valor (f_pura this linha cfg a) <> -1 ->
  EhInternamenteConsistente this linha cfg = true.
Proof.
  intros H. destruct (EhInternamenteConsistente this linha cfg) eqn:E;
    [reflexivity|].
  rewrite f_pura_inconsistente in H by assumption. now cbn in H.
Qed.

Lemma Resolve_pronta (this : Cifra) (ultima : nat) :
  pronta this ->
  L_ this = S ultima ->
  let acc := ancora_pura this ultima in
  let cs := cadeia this (snd acc) ultima (snd acc) in
  exists m',
    Resolve this
    = Some (acrescenta
              (com_max_valor (com_memo this m') (valor (fst acc)))
              (celulas_da_cadeia this cs))
    /\ memo_ok this m'
    /\ 0 <= valor (fst acc)
    /\ 0 <= snd acc < num_possibilidades_ this
    /\ fst acc = f_pura this ultima (snd acc) (snd acc)
    /\ Forall
         (fun ic => valor (f_pura this (fst ic) (snd ic) (snd acc)) <> -1)
         cs.
Proof.
  intros [Hok Hnp] HL acc cs.
  destruct (Resolve_rastro_spec this ultima HL Hnp Hok)
    as (m' & E & Hok' & _ & Hcs & _).
  destruct (ancora_pura_spec this ultima Hnp) as (Hv & Hcim & Hf & _).
  exists m'. unfold Resolve. rewrite E. cbn [option_map snd].
  repeat split; auto; try apply Hok'; try apply Hcim.
  eapply Forall_impl; [|exact Hcs]. intros ic H. apply H.
Qed.

Lemma constroi_L (L C : nat) (rs : list Registro) (this : Cifra) :
  constroi L C rs = Some this ->
  L_ this = L /\ C_ this = C
  /\ num_cristais_usados_ this = 0 /\ cristais_solucao_ this = [].
Proof.
  intros H. apply constroi_campos in H. destruct H as (cx & ->).
  now cbn.
Qed.

(** ** The reported values and the constraints *)




Lemma linha_acima_O (L : nat) : (1 <= L)%nat -> linha_acima L 0 = (L - 1)%nat.
Proof.
  intros H. unfold linha_acima.
  rewrite Z.rem_small by lia. lia.
Qed.

Lemma linha_acima_S (L r : nat) : linha_acima L (S r) = (r mod L)%nat.
Proof.
  unfold linha_acima. destruct L as [|L'].
  - cbn [Nat.modulo]. rewrite Z.rem_0_r_ext by reflexivity. lia.
  - rewrite Z.rem_mod_nonneg by lia.
    replace (Z.of_nat (S r) - 1 + Z.of_nat (S L'))
      with (Z.of_nat r + 1 * Z.of_nat (S L')) by lia.
    rewrite Z.mod_add by lia.
    rewrite <- Nat2Z.inj_mod. lia.
Qed.

(** The solution of a ready object, with what is known of its chain. *)
Lemma solucao_pronta (L C : nat) (rs : list Registro) (this : Cifra)
  (ultima : nat) :
  constroi L C rs = Some this ->
  L = S ultima ->
  exists this' a,
    Resolve this = Some this'
    /\ GetCristaisSolucao this'
       = celulas_da_cadeia this (cadeia this a ultima a)
    /\ C_ this = C
    /\ Forall (fun ic => valor (f_pura this (fst ic) (snd ic) a) <> -1)
         (cadeia this a ultima a).
Proof.
  intros Hc ->.
  destruct (constroi_L _ _ _ _ Hc) as (EL & EC & En & Ec).
  destruct (Resolve_pronta this ultima (constroi_pronta _ _ _ _ Hc) EL)
    as (m' & -> & _ & _ & _ & _ & Hcs).
  eexists. eexists. split; [reflexivity|].
  unfold GetCristaisSolucao. cbn [acrescenta cristais_solucao_ com_max_valor
                                    com_memo].
  rewrite Ec. cbn [app]. auto.
Qed.

(** C2. The selection emitted by [Resolve] violates no horizontal
    constraint: no selected cell with its right-connection bit (bit 0) set
    has the cell of the next column, cyclically, selected in the same
    row. *)
Theorem C2_restricao_horizontal (L C : nat) (rs : list Registro)
  (this : Cifra) :
  constroi L C rs = Some this ->
  (1 <= L)%nat ->
  exists this',
    Resolve this = Some this'
    /\ forall r j,
         selecionada (GetCristaisSolucao this') r j ->
         selecionada (GetCristaisSolucao this') r ((j + 1) mod C) ->
         GET_BIT (conexoes (celula this r j)) 0 <> 1.
Proof.
  intros Hc HL. destruct L as [|ultima]; [lia|].
  destruct (solucao_pronta _ _ _ _ ultima Hc eq_refl)
    as (this' & a & HR & HG & EC & Hcs).
  exists this'. split; [assumption|]. rewrite HG. intros r j H1 H2 Hb.
  apply In_celulas_da_cadeia in H1, H2.
  destruct H1 as (c1 & Hin1 & Hj & Hb1), H2 as (c2 & Hin2 & _ & Hb2).
  assert (c2 = c1) by (eapply cadeia_funcional; eassumption). subst c2.
  rewrite Forall_forall in Hcs. specialize (Hcs _ Hin1). cbn [fst snd] in Hcs.
  apply f_pura_viva_consistente in Hcs.
  unfold EhInternamenteConsistente in Hcs.
  rewrite forallb_forall in Hcs.
  specialize (Hcs j ltac:(apply in_seq; lia)).
  rewrite EC, Hb, Hb1, Hb2 in Hcs. cbn in Hcs.
  now rewrite andb_false_r in Hcs.
Qed.

Lemma C2_restricao_horizontal_witness :
  exists this,
    constroi 2 2 caixa_exemplo = Some this
    /\ exists this',
         Resolve this = Some this'
         /\ forall r j,
              selecionada (GetCristaisSolucao this') r j ->
              selecionada (GetCristaisSolucao this') r ((j + 1) mod 2) ->
              GET_BIT (conexoes (celula this r j)) 0 <> 1.
Proof.
  eexists. split; [reflexivity|].
  apply (C2_restricao_horizontal 2 2 caixa_exemplo); [reflexivity|lia].
Defined.

(** C3. The selection emitted by [Resolve] violates no vertical
    constraint: no selected cell with its up-connection bit (bit 1) set has
    the cell of the same column selected in the row above, the row above
    row 0 being row [L - 1]. *)
Theorem C3_restricao_vertical (L C : nat) (rs : list Registro)
  (this : Cifra) :
  constroi L C rs = Some this ->
  (1 <= L)%nat ->
  exists this',
    Resolve this = Some this'
    /\ forall r j,
         selecionada (GetCristaisSolucao this') r j ->
         selecionada (GetCristaisSolucao this') (linha_acima L r) j ->
         GET_BIT (conexoes (celula this r j)) 1 <> 1.
Proof.
  intros Hc HL. destruct L as [|ultima]; [lia|].
  destruct (solucao_pronta _ _ _ _ ultima Hc eq_refl)
    as (this' & a & HR & HG & EC & Hcs).
  exists this'. split; [assumption|]. rewrite HG. intros r j H1 H2 Hb.
  apply In_celulas_da_cadeia in H1, H2.
  destruct H1 as (c1 & Hin1 & Hj & Hb1), H2 as (c2 & Hin2 & _ & Hb2).
  rewrite Forall_forall in Hcs. specialize (Hcs _ Hin1). cbn [fst snd] in Hcs.
  assert (Hcomp : SaoCompativeis this r c1 c2 = true).
  { destruct r as [|r0].
    - rewrite linha_acima_O in Hin2 by lia.
      replace (S ultima - 1)%nat with ultima in Hin2 by lia.
      assert (c2 = a)
        by (eapply cadeia_funcional; [eassumption|apply cadeia_cabeca]).
      subst c2. now destruct (f_pura_viva_O this c1 a Hcs) as (_ & ? & _).
    - pose proof (cadeia_In_linha _ _ _ _ _ _ Hin1) as Hr.
      rewrite linha_acima_S, Nat.mod_small in Hin2 by lia.
      apply cadeia_vizinhas in Hin1.
      assert (c2 = conf (f_pura this (S r0) c1 a))
        by (eapply cadeia_funcional; eassumption).
      subst c2. now destruct (f_pura_viva_S this r0 c1 a Hcs) as (_ & _ & ? & _). }
  unfold SaoCompativeis in Hcomp. rewrite forallb_forall in Hcomp.
  specialize (Hcomp j ltac:(apply in_seq; lia)).
  rewrite Hb, Hb1, Hb2 in Hcomp. now cbn in Hcomp.
Qed.

Lemma C3_restricao_vertical_witness :
  exists this,
    constroi 2 2 caixa_exemplo = Some this
    /\ exists this',
         Resolve this = Some this'
         /\ forall r j,
              selecionada (GetCristaisSolucao this') r j ->
              selecionada (GetCristaisSolucao this') (linha_acima 2 r) j ->
              GET_BIT (conexoes (celula this r j)) 1 <> 1.
Proof.
  eexists. split; [reflexivity|].
  apply (C3_restricao_vertical 2 2 caixa_exemplo); [reflexivity|lia].
Defined.

(** ** The box without crystals *)


Lemma celula_nova (l c : nat) (n : Z) (i j : nat) :
  celula (Cifra_novo l c n) i j = Cristal_padrao.
Proof.
  unfold celula. cbn [caixa_ Cifra_novo].
  destruct (nth_in_or_default i (repeat (repeat Cristal_padrao c) l) [])
    as [H| ->].
  - apply repeat_spec in H. rewrite H.
    destruct (nth_in_or_default j (repeat Cristal_padrao c) Cristal_padrao)
      as [H'|H']; [now apply repeat_spec in H'|exact H'].
  - now destruct j.
Qed.

Section Vazia.
Variable this : Cifra.
Hypothesis Hvazia : forall i j, brilho (celula this i j) = -1.
Hypothesis Hnp : num_possibilidades_ this = Z.shiftl 1 (Z.of_nat (C_ this)).





End Vazia.




(** ** [Resolve] called twice on the same object *)

(** The first call leaves an object on which [Resolve] may be called
    again, with the same box. *)
Lemma Resolve_duas_vezes (this : Cifra) (ultima : nat) :
  pronta this ->
  L_ this = S ultima ->
  exists this1 this2 cels,
    Resolve this = Some this1
    /\ Resolve this1 = Some this2
    /\ max_valor_caixa_ this2 = max_valor_caixa_ this1
    /\ num_cristais_usados_ this1
       = num_cristais_usados_ this + Z.of_nat (length cels)
    /\ num_cristais_usados_ this2
       = num_cristais_usados_ this1 + Z.of_nat (length cels)
    /\ cristais_solucao_ this1 = cristais_solucao_ this ++ cels
    /\ cristais_solucao_ this2 = cristais_solucao_ this1 ++ cels.
Proof.
  intros Hp HL.
  destruct (Resolve_pronta this ultima Hp HL) as (m1 & E1 & Hok1 & _).
  set (acc := ancora_pura this ultima) in *.
  set (cels := celulas_da_cadeia this
                 (cadeia this (snd acc) ultima (snd acc))) in *.
  set (this1 := acrescenta (com_max_valor (com_memo this m1)
                              (valor (fst acc))) cels) in *.
  assert (Hp1 : pronta this1) by (split; [exact Hok1|exact (proj2 Hp)]).
  destruct (Resolve_pronta this1 ultima Hp1 HL) as (m2 & E2 & _).
  change (ancora_pura this1 ultima) with acc in E2.
  change (celulas_da_cadeia this1 (cadeia this1 (snd acc) ultima (snd acc)))
    with cels in E2.
  exists this1. eexists. exists cels.
  split; [exact E1|]. split; [exact E2|].
  cbn. repeat split; reflexivity.
Qed.

(** C5, as amended.  A second call of [Resolve] on the same object returns
    and leaves the total value unchanged, but the counter and the list are
    not reset: the count is doubled and the list holds the cells of the
    first call twice. *)
Theorem C5_resolve_duas_vezes (L C : nat) (rs : list Registro)
  (this : Cifra) :
  constroi L C rs = Some this ->
  (1 <= L)%nat ->
  exists this1 this2,
    Resolve this = Some this1
    /\ Resolve this1 = Some this2
    /\ snd (GetValoresSolucao this2) = snd (GetValoresSolucao this1)
    /\ fst (GetValoresSolucao this2) = 2 * fst (GetValoresSolucao this1)
    /\ GetCristaisSolucao this2
       = GetCristaisSolucao this1 ++ GetCristaisSolucao this1.
Proof.
  intros Hc HL. destruct L as [|ultima]; [lia|].
  destruct (constroi_L _ _ _ _ Hc) as (EL & _ & En & Ec).
  destruct (Resolve_duas_vezes this ultima (constroi_pronta _ _ _ _ Hc) EL)
    as (this1 & this2 & cels & E1 & E2 & Hv & Hn1 & Hn2 & Hc1 & Hc2).
  exists this1, this2. unfold GetValoresSolucao, GetCristaisSolucao.
  cbn [fst snd]. rewrite En in Hn1. rewrite Ec in Hc1. cbn [app] in Hc1.
  repeat split; auto; [lia|]. now rewrite Hc2, Hc1.
Qed.

Lemma C5_resolve_duas_vezes_witness :
  exists this,
    constroi 2 2 caixa_exemplo = Some this
    /\ exists this1 this2,
         Resolve this = Some this1
         /\ Resolve this1 = Some this2
         /\ snd (GetValoresSolucao this2) = snd (GetValoresSolucao this1)
         /\ fst (GetValoresSolucao this2)
            = 2 * fst (GetValoresSolucao this1)
         /\ GetCristaisSolucao this2
            = GetCristaisSolucao this1 ++ GetCristaisSolucao this1.
Proof.
  eexists. split; [reflexivity|].
  apply (C5_resolve_duas_vezes 2 2 caixa_exemplo); [reflexivity|lia].
Defined.

(** C5, as stated, fails: on the box of one crystal of brightness 5 the
    first call reports [(1, 5)] and the second [(2, 5)]. *)
Lemma C5_contraexemplo :
  exists this this1 this2,
    constroi 1 1 [reg 1 1 5 0 0 0 0] = Some this
    /\ Resolve this = Some this1
    /\ Resolve this1 = Some this2
    /\ GetValoresSolucao this1 = (1, 5)
    /\ GetValoresSolucao this2 = (2, 5)
    /\ GetValoresSolucao this2 <> GetValoresSolucao this1.
Proof.
  eexists. eexists. eexists.
  split; [reflexivity|]. split; [vm_compute; reflexivity|].
  split; [vm_compute; reflexivity|].
  split; [reflexivity|]. split; [reflexivity|]. discriminate.
Qed.

(** ** The anchor that wins and the reads of the reconstruction *)

Lemma cadeia_length (this : Cifra) (a : Z) (linha : nat) (cfg : Z) :
  length (cadeia this a linha cfg) = S linha.
Proof.
  rewrite <- (length_map fst), cadeia_linhas, length_rev, length_seq.
  reflexivity.
Qed.

(** C10. On a box of at least one row the state of the last row under the
    empty configuration anchored to itself has a value of at least 0, so
    the anchor loop of [Resolve] ends with [conf_inicial_maxima] in
    [0, 2^C) and a maximum of at least 0, which becomes
    [max_valor_caixa_]; and the reconstruction reads one entry of [memo_]
    per row, each inside the table and already computed when the anchor
    loop ended. *)
Theorem C10_ancora_vencedora (L C : nat) (rs : list Registro)
  (this : Cifra) :
  constroi L C rs = Some this ->
  (1 <= L)%nat ->
  (exists r this0,
      f (L - 1) 0 0 this = Some (r, this0) /\ 0 <= valor r)
  /\ exists maximo conf_inicial_maxima this1 lidas this3,
       melhor_ancora (L - 1) this
       = Some ((maximo, conf_inicial_maxima), this1)
       /\ 0 <= conf_inicial_maxima < 2 ^ Z.of_nat C
       /\ 0 <= valor maximo
       /\ Resolve_rastro this = Some (lidas, this3)
       /\ max_valor_caixa_ this3 = valor maximo
       /\ memo_ this3 = memo_ this1
       /\ length lidas = L
       /\ Forall (lida_ok this1) lidas.
Proof.
  intros Hc HL. destruct L as [|ultima]; [lia|].
  replace (S ultima - 1)%nat with ultima by lia.
  destruct (constroi_L _ _ _ _ Hc) as (EL & EC & _).
  pose proof (constroi_pronta _ _ _ _ Hc) as [Hok Hnp].
  assert (Enp : num_possibilidades_ this = 2 ^ Z.of_nat C).
  { apply constroi_campos in Hc. destruct Hc as (cx & ->).
    cbn. apply Z.shiftl_1_l. }
  split.
  - assert (Hd : dentro this ultima 0 0 = true)
      by (apply dentro_spec; lia).
    destruct (f_correta this ultima 0 0 (memo_ this) Hd Hok)
      as (m0 & E & _).
    rewrite com_memo_id in E. do 2 eexists. split; [exact E|].
    now apply f_pura_zero.
  - destruct (Resolve_rastro_spec this ultima EL Hnp Hok)
      as (m' & E & _ & _ & Hcs & Ea).
    destruct (ancora_pura_spec this ultima Hnp) as (Hv & Hcim & _).
    destruct (ancora_pura this ultima) as [maximo cim] eqn:Eacc.
    cbn [fst snd] in *.
    do 5 eexists. split; [exact Ea|]. split; [lia|]. split; [exact Hv|].
    split; [exact E|]. split; [reflexivity|]. split; [reflexivity|].
    split.
    + unfold leituras. now rewrite length_map, cadeia_length.
    + unfold leituras. apply Forall_map.
      eapply Forall_impl; [|exact Hcs].
      intros ic (Hd & Hcal & _). split; [exact Hd|exact Hcal].
Qed.

Lemma C10_ancora_vencedora_witness :
  exists this,
    constroi 2 2 caixa_exemplo = Some this
    /\ (exists r this0,
           f (2 - 1) 0 0 this = Some (r, this0) /\ 0 <= valor r)
    /\ exists maximo conf_inicial_maxima this1 lidas this3,
         melhor_ancora (2 - 1) this
         = Some ((maximo, conf_inicial_maxima), this1)
         /\ 0 <= conf_inicial_maxima < 2 ^ Z.of_nat 2
         /\ 0 <= valor maximo
         /\ Resolve_rastro this = Some (lidas, this3)
         /\ max_valor_caixa_ this3 = valor maximo
         /\ memo_ this3 = memo_ this1
         /\ length lidas = 2%nat
         /\ Forall (lida_ok this1) lidas.
Proof.
  eexists. split; [reflexivity|].
  apply (C10_ancora_vencedora 2 2 caixa_exemplo); [reflexivity|lia].
Defined.

(** ** The range of the values

    When every brightness lies between [-1] and [B] and
    [(linha + 1) * C_ * B] does not exceed [INT_MAX], the value of a live
    state of row [linha] lies between 0 and that bound, and a consistent
    state of a row above 0 that has a candidate is alive.  The total of
    the anchor loop lies between 0 and [L_ * C_ * B] whatever the size of
    the box. *)

Section Faixa.
Variable this : Cifra.
Variable B : Z.
Hypothesis HB : 0 <= B.
Hypothesis Hfaixa : forall i j, -1 <= brilho (celula this i j) <= B.

Local Abbreviation nc := (Z.of_nat (C_ this)).

Lemma faixa_de_cristal (i j : nat) :
  brilho (celula this i j) = -1 \/ - 0 <= brilho (celula this i j) <= B.
Proof. specialize (Hfaixa i j). lia. Qed.

Lemma valor_da_linha_faixa (linha : nat) (cfg : Z) :
  EhInternamenteConsistente this linha cfg = true ->
  nc * B <= INT_MAX ->
  valor_da_linha this linha cfg = brilho_da_linha this linha cfg
  /\ 0 <= valor_da_linha this linha cfg <= nc * B.
Proof.
  intros Ei Hmax.
  destruct (valor_da_linha_exato this 0 B ltac:(lia) HB faixa_de_cristal
              linha cfg Ei) as [H1 H2]; auto.
  - rewrite Z.mul_0_r. unfold INT_MAX. lia.
  - rewrite Z.mul_0_r in H2. split; [exact H1|lia].
Qed.

Lemma f_pura_faixa (linha : nat) (cfg a : Z) :
  Z.of_nat (S linha) * (nc * B) <= INT_MAX ->
  valor (f_pura this linha cfg a) <> -1 ->
  0 <= valor (f_pura this linha cfg a) <= Z.of_nat (S linha) * (nc * B).
Proof.
  intros Hmax Hv.
  destruct (f_pura_exato this 0 B ltac:(lia) HB faixa_de_cristal
              a linha) with (cfg := cfg) as [_ H]; auto.
  - rewrite !Z.mul_0_r. unfold INT_MAX. lia.
  - rewrite !Z.mul_0_r in H. lia.
Qed.


Lemma ancora_pura_faixa (ultima : nat) :
  0 < num_possibilidades_ this ->
  0 <= valor (fst (ancora_pura this ultima))
  <= Z.of_nat (S ultima) * (nc * B).
Proof.
  intros Hnp.
  destruct (ancora_pura_spec this ultima Hnp) as (Hv & _ & Hf & _).
  split; [exact Hv|]. rewrite Hf in Hv |- *.
  destruct (Z.le_gt_cases (Z.of_nat (S ultima) * (nc * B)) INT_MAX)
    as [Hmax|Hmax].
  - apply f_pura_faixa; [exact Hmax|lia].
  - pose proof (f_pura_int this ultima (snd (ancora_pura this ultima))
                  (snd (ancora_pura this ultima))). lia.
Qed.
End Faixa.

(** ** Ties in the transition *)






(** In the example box the configurations 1 and 2 of row 0 tie for the
    state of row 1 under configuration 2 and anchor 2 (cumulative value 2
    each); the lower one, 1, is the recorded predecessor. *)
Example C7_exemplo_de_empate :
  option_map
    (fun '(r, this') =>
       (r, acumulado this' 0 2 2 1, acumulado this' 0 2 2 2))
    (match constroi 2 2 caixa_exemplo with
     | Some this => f 1 2 2 this
     | None => None
     end)
  = Some ({| calculado := true; valor := 2; conf := 1 |}, 2, 2).
Proof. vm_compute. reflexivity. Qed.

(** ** The order of the cells *)

Lemma sorted_app {A : Type} (R : A -> A -> Prop) (l1 l2 : list A) :
  StronglySorted R l1 ->
  StronglySorted R l2 ->
  (forall x y, In x l1 -> In y l2 -> R x y) ->
  StronglySorted R (l1 ++ l2).
Proof.
  intros H1 H2 H. induction H1 as [|x l1 Hs IH Hx]; cbn [app].
  - exact H2.
  - constructor.
    + apply IH. intros u v Hu Hv. apply H; [now right|assumption].
    + apply Forall_app. split; [exact Hx|].
      apply Forall_forall. intros v Hv. apply H; [now left|assumption].
Qed.

Lemma rev_seq_decrescente (n : nat) :
  StronglySorted (fun x y => (y < x)%nat) (rev (seq 0 n)).
Proof.
  induction n as [|n IH]; [constructor|].
  rewrite rev_seq_S. constructor; [exact IH|].
  apply Forall_forall. intros y Hy. apply in_rev, in_seq in Hy. lia.
Qed.

Lemma linha_impressa_ordenada (C i : nat) (cfg : Z) :
  StronglySorted antes (linha_impressa C i cfg).
Proof.
  unfold linha_impressa.
  pose proof (rev_seq_decrescente C) as H.
  induction H as [|j js Hs IH Hj]; cbn [filter map]; [constructor|].
  destruct (GET_BIT cfg j =? 1); [|exact IH].
  cbn [map]. constructor; [exact IH|].
  apply Forall_forall. intros q Hq. apply in_map_iff in Hq.
  destruct Hq as (j' & <- & Hj'). apply filter_In in Hj'.
  rewrite Forall_forall in Hj. specialize (Hj j' (proj1 Hj')).
  right. cbn [fst snd]. lia.
Qed.

Lemma linha_impressa_linha (C i : nat) (cfg : Z) (q : Z * Z) :
  In q (linha_impressa C i cfg) -> fst q = Z.of_nat i + 1.
Proof.
  unfold linha_impressa. rewrite in_map_iff. now intros (j & <- & _).
Qed.

Lemma cadeia_ordenada (this : Cifra) (a : Z) (linha : nat) :
  forall cfg,
    StronglySorted antes (celulas_da_cadeia this (cadeia this a linha cfg))
    /\ Forall (fun q => fst q <= Z.of_nat linha + 1)
         (celulas_da_cadeia this (cadeia this a linha cfg)).
Proof.
  induction linha as [|acima IH]; intros cfg;
    cbn [cadeia celulas_da_cadeia flat_map fst snd];
    change (celulas_da_linha this) with (linha_impressa (C_ this)).
  - rewrite app_nil_r. split; [apply linha_impressa_ordenada|].
    apply Forall_forall. intros q Hq.
    apply linha_impressa_linha in Hq. lia.
  - destruct (IH (conf (f_pura this (S acima) cfg a))) as [Hs Hf].
    unfold celulas_da_cadeia in Hs, Hf.
    change (celulas_da_linha this) with (linha_impressa (C_ this)) in Hs, Hf.
    split.
    + apply sorted_app; [apply linha_impressa_ordenada|exact Hs|].
      intros x y Hx Hy. apply linha_impressa_linha in Hx.
      rewrite Forall_forall in Hf. specialize (Hf y Hy).
      left. cbn beta in Hf. lia.
    + apply Forall_app. split.
      * apply Forall_forall. intros q Hq.
        apply linha_impressa_linha in Hq. lia.
      * eapply Forall_impl; [|exact Hf]. cbn beta. intros q Hq. lia.
Qed.

(** C8. [main] prints the pair of [GetValoresSolucao] and then the cells
    of [GetCristaisSolucao]; that list is made of one block per row, from
    row [L - 1] down to row 0, each block listing the 1-based cells
    [(row + 1, column + 1)] selected in its row from column [C - 1] down
    to column 0.  So a cell is printed before every cell of a row of
    smaller index and before every cell of its row at a smaller column. *)
Theorem C8_ordem_da_saida (L C : nat) (rs : list Registro) (this : Cifra) :
  constroi L C rs = Some this ->
  (1 <= L)%nat ->
  exists this' cfgs,
    Resolve this = Some this'
    /\ main L C rs
       = Some (GetValoresSolucao this' :: GetCristaisSolucao this')
    /\ map fst cfgs = rev (seq 0 L)
    /\ GetCristaisSolucao this'
       = flat_map (fun ic => linha_impressa C (fst ic) (snd ic)) cfgs
    /\ StronglySorted antes (GetCristaisSolucao this').
Proof.
  intros Hc HL. destruct L as [|ultima]; [lia|].
  destruct (solucao_pronta _ _ _ _ ultima Hc eq_refl)
    as (this' & a & HR & HG & EC & _).
  exists this', (cadeia this a ultima a).
  split; [exact HR|]. split; [|split; [|split]].
  - unfold main. rewrite Hc, HR. reflexivity.
  - apply cadeia_linhas.
  - rewrite HG, <- EC. reflexivity.
  - rewrite HG. apply cadeia_ordenada.
Qed.

Lemma C8_ordem_da_saida_witness :
  exists this,
    constroi 2 2 caixa_exemplo = Some this
    /\ exists this' cfgs,
         Resolve this = Some this'
         /\ main 2 2 caixa_exemplo
            = Some (GetValoresSolucao this' :: GetCristaisSolucao this')
         /\ map fst cfgs = rev (seq 0 2)
         /\ GetCristaisSolucao this'
            = flat_map (fun ic => linha_impressa 2 (fst ic) (snd ic)) cfgs
         /\ StronglySorted antes (GetCristaisSolucao this').
Proof.
  eexists. split; [reflexivity|].
  apply (C8_ordem_da_saida 2 2 caixa_exemplo); [reflexivity|lia].
Defined.

(** ** Boxes that the predicates cannot tell apart *)

Lemma fold_left_ext {A B : Type} (g h : A -> B -> A) (l : list B) (a : A) :
  (forall x y, g x y = h x y) -> fold_left g l a = fold_left h l a.
Proof.
  intros H. revert a. induction l as [|y l IH]; intros a; cbn [fold_left].
  - reflexivity.
  - now rewrite H, IH.
Qed.

Lemma forallb_ext {A : Type} (g h : A -> bool) (l : list A) :
  (forall x, g x = h x) -> forallb g l = forallb h l.
Proof.
  intros H. induction l as [|x l IH]; cbn [forallb]; [reflexivity|].
  now rewrite H, IH.
Qed.

Section Indistinguiveis.
Variables this1 this2 : Cifra.
Hypothesis HC : C_ this1 = C_ this2.
Hypothesis Hnp : num_possibilidades_ this1 = num_possibilidades_ this2.
Hypothesis Hcel : forall i j, ve_igual (celula this1 i j) (celula this2 i j).

Lemma consistente_igual (linha : nat) (cfg : Z) :
  EhInternamenteConsistente this1 linha cfg
  = EhInternamenteConsistente this2 linha cfg.
Proof.
  unfold EhInternamenteConsistente. rewrite HC. apply forallb_ext.
  intros j. destruct (Hcel linha j) as (-> & -> & _). reflexivity.
Qed.

Lemma compativeis_igual (linha : nat) (conf_i conf_s : Z) :
  SaoCompativeis this1 linha conf_i conf_s
  = SaoCompativeis this2 linha conf_i conf_s.
Proof.
  unfold SaoCompativeis. rewrite HC. apply forallb_ext.
  intros j. destruct (Hcel linha j) as (_ & _ & ->). reflexivity.
Qed.

Lemma valor_da_linha_igual (linha : nat) (cfg : Z) :
  valor_da_linha this1 linha cfg = valor_da_linha this2 linha cfg.
Proof.
  unfold valor_da_linha. rewrite HC. apply fold_left_ext.
  intros v j. destruct (Hcel linha j) as (-> & _). reflexivity.
Qed.

Lemma possibilidades_igual : possibilidades this1 = possibilidades this2.
Proof. unfold possibilidades. now rewrite Hnp. Qed.

Lemma f_pura_igual (linha : nat) :
  forall cfg a, f_pura this1 linha cfg a = f_pura this2 linha cfg a.
Proof.
  induction linha as [|acima IH]; intros cfg a; cbn [f_pura];
    rewrite consistente_igual, valor_da_linha_igual.
  - now rewrite compativeis_igual.
  - destruct (EhInternamenteConsistente this2 (S acima) cfg);
      [|reflexivity].
    cbn [negb]. rewrite possibilidades_igual. apply fold_left_ext.
    intros maximo poss. unfold passo.
    now rewrite compativeis_igual, IH.
Qed.

Lemma ancora_pura_igual (ultima : nat) :
  ancora_pura this1 ultima = ancora_pura this2 ultima.
Proof.
  unfold ancora_pura. rewrite possibilidades_igual. apply fold_left_ext.
  intros acc i. now rewrite f_pura_igual.
Qed.

Lemma cadeia_igual (a : Z) (linha : nat) :
  forall cfg, cadeia this1 a linha cfg = cadeia this2 a linha cfg.
Proof.
  induction linha as [|acima IH]; intros cfg; cbn [cadeia];
    [reflexivity|].
  now rewrite f_pura_igual, IH.
Qed.

Lemma celulas_da_cadeia_igual (cs : list (nat * Z)) :
  celulas_da_cadeia this1 cs = celulas_da_cadeia this2 cs.
Proof.
  unfold celulas_da_cadeia, celulas_da_linha. now rewrite HC.
Qed.

(** [Resolve] reports the same on both objects. *)
Lemma saida_igual :
  pronta this1 -> pronta this2 ->
  L_ this1 = L_ this2 ->
  num_cristais_usados_ this1 = num_cristais_usados_ this2 ->
  cristais_solucao_ this1 = cristais_solucao_ this2 ->
  option_map saida (Resolve this1) = option_map saida (Resolve this2).
Proof.
  intros Hp1 Hp2 HL Hn Hc.
  destruct (L_ this2) as [|ultima] eqn:EL.
  - unfold Resolve, Resolve_rastro. now rewrite HL, EL.
  - destruct (Resolve_pronta this1 ultima Hp1 HL) as (m1 & -> & _).
    destruct (Resolve_pronta this2 ultima Hp2 EL) as (m2 & -> & _).
    rewrite ancora_pura_igual, cadeia_igual, celulas_da_cadeia_igual.
    cbn. unfold saida, GetValoresSolucao, GetCristaisSolucao. cbn.
    now rewrite Hn, Hc.
Qed.
End Indistinguiveis.

(** ** Records that differ in the flags [e] and [b] *)

Lemma Forall2_nth_rel {A B : Type} (R : A -> B -> Prop)
  (l1 : list A) (l2 : list B) (d1 : A) (d2 : B) (n : nat) :
  Forall2 R l1 l2 -> R d1 d2 -> R (nth n l1 d1) (nth n l2 d2).
Proof.
  intros H Hd. revert n.
  induction H as [|x y l1 l2 Hxy H IH]; intros [|n]; cbn [nth]; auto.
Qed.

Lemma Forall2_nth_error_rel {A B : Type} (R : A -> B -> Prop)
  (l1 : list A) (l2 : list B) (n : nat) :
  Forall2 R l1 l2 -> rel_opcao R (nth_error l1 n) (nth_error l2 n).
Proof.
  intros H. revert n.
  induction H as [|x y l1 l2 Hxy H IH]; intros [|n]; cbn; auto.
Qed.

Lemma Forall2_atribui {A B : Type} (R : A -> B -> Prop)
  (l1 : list A) (l2 : list B) (n : nat) (a : A) (b : B) :
  Forall2 R l1 l2 -> R a b ->
  rel_opcao (Forall2 R) (atribui l1 n a) (atribui l2 n b).
Proof.
  intros H Hab. revert n.
  induction H as [|x y l1 l2 Hxy H IH]; intros [|n]; cbn [atribui rel_opcao];
    auto.
  specialize (IH n).
  destruct (atribui l1 n a), (atribui l2 n b); cbn in *; auto.
Qed.

Lemma conexoes_ve_igual (v d c e1 b1 e2 b2 : Z) :
  let mascara e b :=
    let conexoes := 0 in
    let conexoes :=
      if d =? 1 then SET_BIT conexoes 0 else CLEAR_BIT conexoes 0 in
    let conexoes :=
      if c =? 1 then SET_BIT conexoes 1 else CLEAR_BIT conexoes 1 in
    let conexoes :=
      if e =? 1 then SET_BIT conexoes 2 else CLEAR_BIT conexoes 2 in
    if b =? 1 then SET_BIT conexoes 3 else CLEAR_BIT conexoes 3 in
  ve_igual {| brilho := v; conexoes := mascara e1 b1 |}
           {| brilho := v; conexoes := mascara e2 b2 |}.
Proof.
  cbn zeta. unfold ve_igual. cbn [brilho conexoes].
  destruct (d =? 1), (c =? 1), (e1 =? 1), (b1 =? 1), (e2 =? 1), (b2 =? 1);
    repeat split; reflexivity.
Qed.

Lemma celula_rel (this1 this2 : Cifra) :
  Forall2 (Forall2 ve_igual) (caixa_ this1) (caixa_ this2) ->
  forall i j, ve_igual (celula this1 i j) (celula this2 i j).
Proof.
  intros H i j. unfold celula.
  apply Forall2_nth_rel; [|now repeat split].
  apply Forall2_nth_rel; [exact H|constructor].
Qed.

Lemma AdicionaCristal_rel (x y v d c e1 b1 e2 b2 : Z)
  (this1 this2 : Cifra) :
  Forall2 (Forall2 ve_igual) (caixa_ this1) (caixa_ this2) ->
  rel_opcao
    (fun t1 t2 => Forall2 (Forall2 ve_igual) (caixa_ t1) (caixa_ t2))
    (AdicionaCristal x y v d c e1 b1 this1)
    (AdicionaCristal x y v d c e2 b2 this2).
Proof.
  intros H. unfold AdicionaCristal.
  destruct ((x - 1 <? 0) || (y - 1 <? 0)); [exact I|].
  pose proof (Forall2_nth_error_rel _ _ _ (Z.to_nat (x - 1)) H) as Hn.
  destruct (nth_error (caixa_ this1) (Z.to_nat (x - 1))) as [f1|],
           (nth_error (caixa_ this2) (Z.to_nat (x - 1))) as [f2|];
    cbn in Hn; try contradiction; [|exact I].
  pose proof (Forall2_atribui _ _ _ (Z.to_nat (y - 1)) _ _ Hn
                (conexoes_ve_igual v d c e1 b1 e2 b2)) as Ha.
  cbn zeta in Ha.
  destruct (atribui f1 _ _) as [f1'|], (atribui f2 _ _) as [f2'|];
    cbn in Ha; try contradiction; [|exact I].
  pose proof (Forall2_atribui _ _ _ (Z.to_nat (x - 1)) _ _ H Ha) as Hb.
  destruct (atribui (caixa_ this1) _ _) as [c1|],
           (atribui (caixa_ this2) _ _) as [c2|];
    cbn in Hb; try contradiction; [exact Hb|exact I].
Qed.

Lemma adiciona_todos_rel (rs1 rs2 : list Registro) :
  Forall2 mesmo_registro rs1 rs2 ->
  forall this1 this2,
    Forall2 (Forall2 ve_igual) (caixa_ this1) (caixa_ this2) ->
    rel_opcao
      (fun t1 t2 => Forall2 (Forall2 ve_igual) (caixa_ t1) (caixa_ t2))
      (adiciona_todos rs1 this1) (adiciona_todos rs2 this2).
Proof.
  induction 1 as [|r1 r2 rs1 rs2 Hr Hrs IH]; intros this1 this2 H;
    cbn [adiciona_todos]; [exact H|].
  unfold adiciona. destruct Hr as (-> & -> & -> & -> & ->).
  pose proof (AdicionaCristal_rel (rx r2) (ry r2) (rv r2) (rd r2) (rc r2)
                (re r1) (rb r1) (re r2) (rb r2) this1 this2 H) as Ha.
  destruct (AdicionaCristal _ _ _ _ _ (re r1) _ this1) as [t1|],
           (AdicionaCristal _ _ _ _ _ (re r2) _ this2) as [t2|];
    cbn in Ha; try contradiction; [now apply IH|exact I].
Qed.

Lemma Forall2_mesma {A : Type} (R : A -> A -> Prop) (l : list A) :
  (forall x, R x x) -> Forall2 R l l.
Proof. intros H. induction l; constructor; auto. Qed.

Lemma caixa_nova_rel (l c : nat) :
  Forall2 (Forall2 ve_igual)
    (repeat (repeat Cristal_padrao c) l) (repeat (repeat Cristal_padrao c) l).
Proof.
  apply Forall2_mesma. intros fila. apply Forall2_mesma.
  intros x. now repeat split.
Qed.

(** C9. Two inputs whose records differ at most in the left and down
    flags make [main] print the same: the same pair and the same cells, or
    the same error. *)
Theorem C9_independe_de_e_b (L C : nat) (rs1 rs2 : list Registro) :
  Forall2 mesmo_registro rs1 rs2 ->
  main L C rs1 = main L C rs2.
Proof.
  intros Hrs. unfold main.
  pose proof (adiciona_todos_rel rs1 rs2 Hrs
                (Cifra_novo L C (Z.of_nat (length rs1)))
                (Cifra_novo L C (Z.of_nat (length rs2)))
                (caixa_nova_rel L C)) as H.
  fold (constroi L C rs1) in H. fold (constroi L C rs2) in H.
  destruct (constroi L C rs1) as [this1|] eqn:E1,
           (constroi L C rs2) as [this2|] eqn:E2;
    cbn in H; try contradiction; [|reflexivity].
  destruct (constroi_L _ _ _ _ E1) as (EL1 & EC1 & En1 & Ec1).
  destruct (constroi_L _ _ _ _ E2) as (EL2 & EC2 & En2 & Ec2).
  apply saida_igual; try congruence.
  - pose proof (constroi_campos _ _ _ _ E1) as (c1 & ->).
    pose proof (constroi_campos _ _ _ _ E2) as (c2 & ->).
    reflexivity.
  - now apply celula_rel.
  - exact (constroi_pronta _ _ _ _ E1).
  - exact (constroi_pronta _ _ _ _ E2).
Qed.

Lemma C9_independe_de_e_b_witness :
  main 2 2 caixa_exemplo
  = main 2 2 [reg 1 1 1 1 0 1 0; reg 1 2 1 0 0 1 1;
              reg 2 1 1 0 1 0 1; reg 2 2 1 0 0 1 0].
Proof.
  apply C9_independe_de_e_b.
  repeat (constructor; [repeat split; reflexivity|]). constructor.
Defined.

(** ** A crystal added at an empty position *)

Lemma atribui_nth {A : Type} (l l' : list A) (n : nat) (a : A) :
  atribui l n a = Some l' ->
  forall k d, nth k l' d = if (k =? n)%nat then a else nth k l d.
Proof.
  revert l' n. induction l as [|h t IH]; intros l' n; [discriminate|].
  destruct n as [|n]; cbn [atribui].
  - intros [= <-] [|k] d; reflexivity.
  - destruct (atribui t n a) as [t'|] eqn:E; [|discriminate].
    intros [= <-] [|k] d; cbn [nth Nat.eqb]; [reflexivity|].
    now apply IH.
Qed.

Lemma AdicionaCristal_celula (x y v d c e b : Z) (this this' : Cifra) :
  AdicionaCristal x y v d c e b this = Some this' ->
  forall i j,
    ~ (i = Z.to_nat (x - 1) /\ j = Z.to_nat (y - 1)) ->
    celula this' i j = celula this i j.
Proof.
  unfold AdicionaCristal.
  destruct ((x - 1 <? 0) || (y - 1 <? 0)); [discriminate|].
  destruct (nth_error (caixa_ this) (Z.to_nat (x - 1))) as [fila|] eqn:En;
    [|discriminate].
  destruct (atribui fila _ _) as [fila'|] eqn:Ef; [|discriminate].
  destruct (atribui (caixa_ this) _ _) as [cx|] eqn:Ec; [|discriminate].
  intros [= <-] i j Hij. unfold celula. cbn [caixa_ com_caixa].
  rewrite (atribui_nth _ _ _ _ Ec).
  destruct (Nat.eqb_spec i (Z.to_nat (x - 1))) as [->|]; [|reflexivity].
  rewrite (atribui_nth _ _ _ _ Ef).
  destruct (Nat.eqb_spec j (Z.to_nat (y - 1))) as [->|]; [tauto|].
  now rewrite (nth_error_nth _ _ [] En).
Qed.

Lemma atribui_Some_dentro {A : Type} (l l' : list A) (n : nat) (a : A) :
  atribui l n a = Some l' -> (n < length l)%nat.
Proof.
  revert l' n. induction l as [|h t IH]; intros l' n; [discriminate|].
  destruct n as [|n]; cbn [atribui length]; [lia|].
  destruct (atribui t n a) as [t'|] eqn:E; [|discriminate].
  intros _. specialize (IH _ _ E). lia.
Qed.

Lemma AdicionaCristal_guarda (x y v d c e b : Z) (this this' : Cifra) :
  AdicionaCristal x y v d c e b this = Some this' ->
  celula this' (Z.to_nat (x - 1)) (Z.to_nat (y - 1))
  = cristal_de (reg x y v d c e b).
Proof.
  unfold AdicionaCristal.
  destruct ((x - 1 <? 0) || (y - 1 <? 0)); [discriminate|].
  destruct (nth_error (caixa_ this) (Z.to_nat (x - 1))) as [fila|] eqn:En;
    [|discriminate].
  destruct (atribui fila _ _) as [fila'|] eqn:Ef; [|discriminate].
  destruct (atribui (caixa_ this) _ _) as [cx|] eqn:Ec; [|discriminate].
  intros [= <-]. unfold celula. cbn [caixa_ com_caixa].
  rewrite (atribui_nth _ _ _ _ Ec), Nat.eqb_refl.
  rewrite (atribui_nth _ _ _ _ Ef), Nat.eqb_refl.
  unfold cristal_de, reg. cbn [rx ry rv rd rc re rb].
  destruct (d =? 1), (c =? 1), (e =? 1), (b =? 1); reflexivity.
Qed.

Lemma AdicionaCristal_Some_dentro (x y v d c e b : Z) (this this' : Cifra) :
  forma this ->
  AdicionaCristal x y v d c e b this = Some this' ->
  1 <= x <= Z.of_nat (L_ this) /\ 1 <= y <= Z.of_nat (C_ this).
Proof.
  intros [Hl Hf]. unfold AdicionaCristal.
  destruct (Z.ltb_spec (x - 1) 0); [discriminate|].
  destruct (Z.ltb_spec (y - 1) 0); [discriminate|]. cbn [orb].
  destruct (nth_error (caixa_ this) (Z.to_nat (x - 1))) as [fila|] eqn:En;
    [|discriminate].
  destruct (atribui fila _ _) as [fila'|] eqn:Ef; [|discriminate].
  intros _. apply atribui_Some_dentro in Ef.
  assert (Hx : (Z.to_nat (x - 1) < length (caixa_ this))%nat)
    by (apply nth_error_Some; congruence).
  apply nth_error_In in En. rewrite Forall_forall in Hf.
  rewrite (Hf _ En) in Ef. lia.
Qed.

Lemma forallb_ext_in {A : Type} (g h : A -> bool) (l : list A) :
  (forall x, In x l -> g x = h x) -> forallb g l = forallb h l.
Proof.
  induction l as [|x l IH]; intros H; cbn [forallb]; [reflexivity|].
  rewrite (H x) by now left. rewrite IH; [reflexivity|].
  intros y Hy. apply H. now right.
Qed.

Lemma fold_left_ext_in {A B : Type} (g h : A -> B -> A) (l : list B) :
  (forall x y, In y l -> g x y = h x y) ->
  forall a, fold_left g l a = fold_left h l a.
Proof.
  induction l as [|y l IH]; intros H a; cbn [fold_left]; [reflexivity|].
  rewrite (H a y) by now left. apply IH.
  intros x z Hz. apply H. now right.
Qed.

Lemma testbit_de_um_bit (b m : nat) :
  Z.testbit (Z.shiftl 1 (Z.of_nat b)) (Z.of_nat m) = (b =? m)%nat.
Proof.
  rewrite Z.shiftl_1_l, Z.pow2_bits_eqb by lia.
  destruct (Nat.eqb_spec b m) as [->|Hn].
  - apply Z.eqb_refl.
  - apply Z.eqb_neq. lia.
Qed.

Lemma GET_BIT_CLEAR_BIT (number : Z) (bit j : nat) :
  GET_BIT (CLEAR_BIT number bit) j
  = if (bit =? j)%nat then 0 else GET_BIT number j.
Proof.
  unfold CLEAR_BIT. rewrite !GET_BIT_testbit.
  rewrite Z.land_spec, Z.lnot_spec by lia.
  rewrite testbit_de_um_bit.
  destruct (bit =? j)%nat, (Z.testbit number (Z.of_nat j)); reflexivity.
Qed.

(** Clearing a bit that is set in a non-negative number makes the number
    smaller. *)
Lemma CLEAR_BIT_menor (number : Z) (bit : nat) :
  0 <= number ->
  GET_BIT number bit = 1 ->
  0 <= CLEAR_BIT number bit < number.
Proof.
  intros Hn Hb. unfold CLEAR_BIT. rewrite <- Z.ldiff_land.
  assert (E : Z.ldiff (Z.shiftl 1 (Z.of_nat bit)) number = 0).
  { apply Z.bits_inj'. intros m Hm.
    rewrite Z.ldiff_spec, Z.bits_0.
    rewrite <- (Z2Nat.id m Hm), testbit_de_um_bit.
    destruct (Nat.eqb_spec bit (Z.to_nat m)) as [<-|]; [|reflexivity].
    rewrite GET_BIT_testbit in Hb.
    now destruct (Z.testbit number (Z.of_nat bit)). }
  pose proof (proj2 (Z.ldiff_nonneg number (Z.shiftl 1 (Z.of_nat bit)))
                (or_introl Hn)) as Hl.
  rewrite <- (Z.sub_nocarry_ldiff _ _ E) in Hl |- *.
  pose proof (potencia_positiva bit). lia.
Qed.

(** The predicates on configurations with fewer cells. *)
Lemma consistente_menor (this : Cifra) (linha : nat) (cfg menor : Z) :
  (forall j, GET_BIT menor j = 1 -> GET_BIT cfg j = 1) ->
  EhInternamenteConsistente this linha cfg = true ->
  EhInternamenteConsistente this linha menor = true.
Proof.
  intros Hm E. unfold EhInternamenteConsistente in *.
  rewrite forallb_forall in *. intros j Hj. specialize (E j Hj).
  destruct (Z.eqb_spec (GET_BIT menor j) 1) as [Hb|]; [|reflexivity].
  rewrite (Hm _ Hb) in E. cbn [Z.eqb] in E.
  destruct (Z.eqb_spec (GET_BIT menor ((j + 1) mod C_ this)) 1)
    as [Hb'|]; [|now rewrite andb_true_r in *; cbn in *;
                  apply andb_true_iff in E; destruct E as [-> _]].
  now rewrite (Hm _ Hb') in E.
Qed.

Lemma compativeis_menor (this : Cifra) (linha : nat)
  (conf_i conf_s menor_i menor_s : Z) :
  (forall j, GET_BIT menor_i j = 1 -> GET_BIT conf_i j = 1) ->
  (forall j, GET_BIT menor_s j = 1 -> GET_BIT conf_s j = 1) ->
  SaoCompativeis this linha conf_i conf_s = true ->
  SaoCompativeis this linha menor_i menor_s = true.
Proof.
  intros Hi Hs E. unfold SaoCompativeis in *. rewrite forallb_forall in *.
  intros j Hj. specialize (E j Hj).
  destruct (Z.eqb_spec (GET_BIT menor_i j) 1) as [Hb|]; [|reflexivity].
  destruct (Z.eqb_spec (GET_BIT menor_s j) 1) as [Hb'|]; [|reflexivity].
  now rewrite (Hi _ Hb), (Hs _ Hb') in E.
Qed.

Lemma bit_apos_CLEAR_BIT (cfg : Z) (bit j : nat) :
  GET_BIT (CLEAR_BIT cfg bit) j = 1 -> GET_BIT cfg j = 1.
Proof.
  rewrite GET_BIT_CLEAR_BIT. now destruct (bit =? j)%nat.
Qed.

Section Acrescimo.
Variables this this' : Cifra.
Variables X Y : nat.
Hypothesis HL : L_ this' = L_ this.
Hypothesis HC : C_ this' = C_ this.
Hypothesis Hnp : num_possibilidades_ this' = num_possibilidades_ this.
Hypothesis Hvazio : brilho (celula this X Y) = -1.
Hypothesis Houtras :
  forall i j, ~ (i = X /\ j = Y) -> celula this' i j = celula this i j.

Lemma consistente_nao_usa (linha : nat) (cfg : Z) :
  EhInternamenteConsistente this linha cfg = true ->
  (Y < C_ this)%nat ->
  nao_usa X Y linha cfg.
Proof.
  intros E HY -> Hb. unfold EhInternamenteConsistente in E.
  rewrite forallb_forall in E. specialize (E Y ltac:(apply in_seq; lia)).
  rewrite Hb, Hvazio in E. now cbn in E.
Qed.

Lemma mesma_celula (linha j : nat) (cfg : Z) :
  ((Y < C_ this)%nat -> nao_usa X Y linha cfg) ->
  (j < C_ this)%nat ->
  GET_BIT cfg j = 1 ->
  celula this' linha j = celula this linha j.
Proof.
  intros Hn Hj Hb. apply Houtras. intros [-> ->].
  now apply (Hn Hj).
Qed.

Lemma consistente_acrescimo (linha : nat) (cfg : Z) :
  ((Y < C_ this)%nat -> nao_usa X Y linha cfg) ->
  EhInternamenteConsistente this' linha cfg
  = EhInternamenteConsistente this linha cfg.
Proof.
  intros Hn. unfold EhInternamenteConsistente. rewrite HC.
  apply forallb_ext_in. intros j Hj. apply in_seq in Hj.
  destruct (Z.eqb_spec (GET_BIT cfg j) 1) as [Hb|]; [|reflexivity].
  now rewrite (mesma_celula linha j cfg Hn) by (auto; lia).
Qed.

Lemma compativeis_acrescimo (linha : nat) (cfg conf_s : Z) :
  ((Y < C_ this)%nat -> nao_usa X Y linha cfg) ->
  SaoCompativeis this' linha cfg conf_s
  = SaoCompativeis this linha cfg conf_s.
Proof.
  intros Hn. unfold SaoCompativeis. rewrite HC.
  apply forallb_ext_in. intros j Hj. apply in_seq in Hj.
  destruct (Z.eqb_spec (GET_BIT cfg j) 1) as [Hb|]; [|reflexivity].
  now rewrite (mesma_celula linha j cfg Hn) by (auto; lia).
Qed.

Lemma valor_da_linha_acrescimo (linha : nat) (cfg : Z) :
  ((Y < C_ this)%nat -> nao_usa X Y linha cfg) ->
  valor_da_linha this' linha cfg = valor_da_linha this linha cfg.
Proof.
  intros Hn. unfold valor_da_linha. rewrite HC.
  apply fold_left_ext_in. intros v j Hj. apply in_seq in Hj.
  destruct (Z.eqb_spec (GET_BIT cfg j) 1) as [Hb|]; [|reflexivity].
  now rewrite (mesma_celula linha j cfg Hn) by (auto; lia).
Qed.

Lemma viavel_acrescimo (sel : nat -> Z) :
  GET_BIT (sel X) Y <> 1 ->
  viavel this' sel = viavel this sel.
Proof.
  intros Hs. unfold viavel. rewrite HL. apply forallb_ext_in.
  intros r _.
  assert (Hn : (Y < C_ this)%nat -> nao_usa X Y r (sel r))
    by (intros _ ->; exact Hs).
  now rewrite consistente_acrescimo, compativeis_acrescimo.
Qed.
(** A crystal of brightness 0 whose up flag is 0.  A configuration of row
    [X] that selects the new crystal is dead or has the state of the
    configuration without it, which comes first in the loop over the
    configurations: the new crystal changes no state of a configuration
    that does not select it. *)

Section Nulo.
Hypothesis HY : (Y < C_ this)%nat.
Hypothesis Hbrilho : brilho (celula this' X Y) = 0.
Hypothesis Hcima : GET_BIT (conexoes (celula this' X Y)) 1 = 0.

Lemma valor_da_linha_sem (cfg : Z) :
  valor_da_linha this' X (CLEAR_BIT cfg Y) = valor_da_linha this' X cfg.
Proof.
  unfold valor_da_linha.
  enough (G : forall js v,
             INT_MIN <= v <= INT_MAX ->
             fold_left
               (fun valor_linha j =>
                  if GET_BIT (CLEAR_BIT cfg Y) j =? 1
                  then soma_int valor_linha (brilho (celula this' X j))
                  else valor_linha) js v
             = fold_left
                 (fun valor_linha j =>
                    if GET_BIT cfg j =? 1
                    then soma_int valor_linha (brilho (celula this' X j))
                    else valor_linha) js v)
    by (apply G; unfold INT_MIN, INT_MAX; lia).
  induction js as [|j js IH]; intros v Hv; cbn [fold_left];
    [reflexivity|].
  rewrite GET_BIT_CLEAR_BIT.
  destruct (Nat.eqb_spec Y j) as [<-|Hj].
  - cbn [Z.eqb]. rewrite Hbrilho.
    destruct (GET_BIT cfg Y =? 1); [|now apply IH].
    rewrite soma_int_exata by lia. rewrite Z.add_0_r. now apply IH.
  - destruct (GET_BIT cfg j =? 1); apply IH;
      [apply soma_int_faixa|exact Hv].
Qed.

Lemma compativeis_sem (cfg conf_s : Z) :
  SaoCompativeis this' X (CLEAR_BIT cfg Y) conf_s
  = SaoCompativeis this' X cfg conf_s.
Proof.
  unfold SaoCompativeis. apply forallb_ext_in. intros j _.
  rewrite GET_BIT_CLEAR_BIT.
  destruct (Nat.eqb_spec Y j) as [<-|Hj]; [|reflexivity].
  rewrite Hcima. cbn. now rewrite !andb_false_r.
Qed.

(** The state of a consistent configuration of row [X] is the state of
    the configuration without the new crystal. *)
Lemma f_pura_sem (linha : nat) (cfg a : Z) :
  linha = X ->
  EhInternamenteConsistente this' linha cfg = true ->
  f_pura this' linha cfg a = f_pura this' linha (CLEAR_BIT cfg Y) a.
Proof.
  intros E Ei.
  pose proof (consistente_menor this' linha cfg (CLEAR_BIT cfg Y)
                (bit_apos_CLEAR_BIT cfg Y) Ei) as Ei'.
  destruct linha as [|acima].
  - rewrite !f_pura_O by assumption. rewrite E.
    now rewrite compativeis_sem, valor_da_linha_sem.
  - rewrite !f_pura_S by assumption. rewrite E, valor_da_linha_sem.
    apply fold_left_ext. intros maximo poss. unfold passo.
    now rewrite compativeis_sem.
Qed.

(** The loop of [f] over the configurations of row [X]. *)
Lemma laco_nulo (cfg a valor_linha : Z) (k : nat) :
  (forall p, GET_BIT p Y <> 1 ->
             f_pura this' X p a = f_pura this X p a) ->
  fold_left
    (passo this' (S X) cfg valor_linha (fun poss => f_pura this' X poss a))
    (intervalo k) invalida
  = fold_left
      (passo this (S X) cfg valor_linha (fun poss => f_pura this X poss a))
      (intervalo k) invalida.
Proof.
  intros Hold. induction k as [|k IH]; [reflexivity|].
  rewrite intervalo_S, !fold_left_app. cbn [fold_left].
  pose proof (melhor_intervalo this' (S X) cfg valor_linha
                (fun poss => f_pura this' X poss a) k) as M.
  cbn zeta in M. destruct M as (_ & _ & Hmax & _).
  rewrite <- IH.
  set (r := fold_left _ (intervalo k) invalida) in *.
  unfold passo.
  rewrite <- (compativeis_acrescimo (S X) cfg (Z.of_nat k))
    by (intros _ E; exfalso; lia).
  destruct (SaoCompativeis this' (S X) cfg (Z.of_nat k)) eqn:Ec;
    cbn [negb]; [|reflexivity].
  destruct (Z.eq_dec (GET_BIT (Z.of_nat k) Y) 1) as [Hb|Hb];
    [|now rewrite Hold].
  assert (Ed : f_pura this X (Z.of_nat k) a = invalida).
  { apply f_pura_inconsistente.
    destruct (EhInternamenteConsistente this X (Z.of_nat k)) eqn:Ei;
      [|reflexivity].
    exfalso. exact (consistente_nao_usa X (Z.of_nat k) Ei HY eq_refl Hb). }
  rewrite Ed. unfold escolhe at 2. cbn [valor invalida Z.eqb].
  unfold escolhe.
  destruct (Z.eqb_spec (valor (f_pura this' X (Z.of_nat k) a)) (-1))
    as [|Hv]; [reflexivity|].
  pose proof (f_pura_viva_consistente _ _ _ _ Hv) as Ei.
  pose proof (CLEAR_BIT_menor (Z.of_nat k) Y ltac:(lia) Hb) as Hlt.
  specialize (Hmax (CLEAR_BIT (Z.of_nat k) Y) Hlt).
  rewrite <- (f_pura_sem X _ a eq_refl Ei) in Hmax.
  destruct (Z.gtb_spec
              (soma_int (valor (f_pura this' X (Z.of_nat k) a)) valor_linha)
              (valor r)) as [Hgt|]; [|reflexivity].
  exfalso. apply (Z.lt_irrefl (valor r)).
  eapply Z.lt_le_trans; [exact Hgt|]. apply Hmax. split; [|exact Hv].
  apply (compativeis_menor this' (S X) cfg (Z.of_nat k));
    [auto|apply bit_apos_CLEAR_BIT|exact Ec].
Qed.

(** The states of the configurations that do not select the new
    crystal. *)
Lemma f_pura_nulo (a : Z) (linha : nat) :
  forall cfg,
    nao_usa X Y linha cfg ->
    f_pura this' linha cfg a = f_pura this linha cfg a.
Proof.
  induction linha as [|acima IH]; intros cfg Hn;
    assert (Hn' : (Y < C_ this)%nat -> nao_usa X Y _ cfg)
      by (intros _; exact Hn).
  - destruct (EhInternamenteConsistente this 0 cfg) eqn:Ei.
    + rewrite !f_pura_O
        by (try rewrite consistente_acrescimo by exact Hn'; exact Ei).
      now rewrite compativeis_acrescimo, valor_da_linha_acrescimo.
    + rewrite !f_pura_inconsistente
        by (try rewrite consistente_acrescimo by exact Hn'; exact Ei).
      reflexivity.
  - destruct (EhInternamenteConsistente this (S acima) cfg) eqn:Ei.
    + rewrite !f_pura_S
        by (try rewrite consistente_acrescimo by exact Hn'; exact Ei).
      rewrite valor_da_linha_acrescimo by exact Hn'.
      unfold possibilidades. rewrite Hnp.
      destruct (Nat.eq_dec acima X) as [E|Hne].
      * subst acima. apply laco_nulo. intros p Hp. apply IH.
        intros _. exact Hp.
      * apply fold_left_ext. intros maximo poss. unfold passo.
        rewrite compativeis_acrescimo by exact Hn'.
        rewrite IH; [reflexivity|]. intros E. contradiction.
    + rewrite !f_pura_inconsistente
        by (try rewrite consistente_acrescimo by exact Hn'; exact Ei).
      reflexivity.
Qed.

Lemma ancora_nulo (ultima : nat) :
  0 < num_possibilidades_ this ->
  valor (fst (ancora_pura this ultima))
  <= valor (fst (ancora_pura this' ultima)).
Proof.
  intros Hpos.
  destruct (ancora_pura_spec this ultima Hpos) as (Hv & Hcim & Hf & _).
  destruct (ancora_pura_spec this' ultima ltac:(now rewrite Hnp))
    as (_ & _ & _ & Hmax & _).
  rewrite Hnp in Hmax. specialize (Hmax _ Hcim).
  rewrite f_pura_nulo in Hmax.
  - now rewrite <- Hf in Hmax.
  - apply consistente_nao_usa; [|exact HY].
    apply (f_pura_viva_consistente this ultima _
             (snd (ancora_pura this ultima))).
    rewrite <- Hf. lia.
Qed.
End Nulo.

(** A crystal of any brightness between [-1] and [B] and any flags, in a
    box where no sum wraps around.  A state that is alive before the
    crystal is added is alive after it, with a value at least as great. *)

Section Limitado.
Variable B : Z.
Hypothesis HB : 0 <= B.
Hypothesis Hfaixa : forall i j, -1 <= brilho (celula this i j) <= B.
Hypothesis Hfaixa' : forall i j, -1 <= brilho (celula this' i j) <= B.

Lemma f_pura_acrescimo (linha : nat) :
  Z.of_nat (S linha) * (Z.of_nat (C_ this) * B) <= INT_MAX ->
  forall cfg a,
    valor (f_pura this linha cfg a) <> -1 ->
    valor (f_pura this' linha cfg a) <> -1
    /\ valor (f_pura this linha cfg a) <= valor (f_pura this' linha cfg a).
Proof.
  assert (HcB : 0 <= Z.of_nat (C_ this) * B)
    by (apply Z.mul_nonneg_nonneg; lia).
  induction linha as [|acima IH]; intros Hmax cfg a Hv.
  - destruct (f_pura_viva_O this cfg a Hv) as (Ei & Ec & Ev & _).
    pose proof (consistente_nao_usa 0 cfg Ei) as Hn.
    assert (E : f_pura this' 0 cfg a = f_pura this 0 cfg a).
    { rewrite !f_pura_O
        by (try rewrite consistente_acrescimo by exact Hn; exact Ei).
      now rewrite compativeis_acrescimo, valor_da_linha_acrescimo. }
    rewrite E. split; [exact Hv|lia].
  - destruct (f_pura_viva_S this acima cfg a Hv)
      as (Ei & Hp & Ec & Hvp & Ev & Hpos).
    pose proof (consistente_nao_usa (S acima) cfg Ei) as Hn.
    assert (HnB : 0 <= Z.of_nat (S acima) * (Z.of_nat (C_ this) * B))
      by (apply Z.mul_nonneg_nonneg; lia).
    rewrite Nat2Z.inj_succ, Z.mul_succ_l in Hmax.
    destruct (IH ltac:(lia) _ a Hvp) as (Hvp' & Hle).
    pose proof (f_pura_maximo this' acima cfg a
                  (conf (f_pura this (S acima) cfg a))) as Hm.
    rewrite consistente_acrescimo, compativeis_acrescimo,
      valor_da_linha_acrescimo, Hnp in Hm by exact Hn.
    specialize (Hm Ei Hp Ec Hvp').
    destruct (valor_da_linha_faixa this B HB Hfaixa (S acima) cfg Ei
                ltac:(lia)) as [_ H1].
    pose proof (f_pura_faixa this B HB Hfaixa acima _ a
                  ltac:(lia) Hvp) as H2.
    pose proof (f_pura_faixa this' B HB Hfaixa' acima _ a
                  ltac:(rewrite HC; lia) Hvp') as H3.
    rewrite HC in H3.
    rewrite soma_int_exata in Ev, Hm
      by (unfold INT_MIN, INT_MAX in *; lia).
    lia.
Qed.

Lemma ancora_acrescimo (ultima : nat) :
  Z.of_nat (S ultima) * (Z.of_nat (C_ this) * B) <= INT_MAX ->
  0 < num_possibilidades_ this ->
  valor (fst (ancora_pura this ultima))
  <= valor (fst (ancora_pura this' ultima)).
Proof.
  intros Hlim Hpos.
  destruct (ancora_pura_spec this ultima Hpos) as (Hv & Hcim & Hf & _).
  destruct (ancora_pura_spec this' ultima ltac:(now rewrite Hnp))
    as (_ & _ & _ & Hmax & _).
  rewrite Hnp in Hmax. specialize (Hmax _ Hcim).
  destruct (f_pura_acrescimo ultima Hlim (snd (ancora_pura this ultima))
              (snd (ancora_pura this ultima))) as (_ & Hle).
  - rewrite <- Hf. lia.
  - rewrite <- Hf in Hle. lia.
Qed.
End Limitado.
End Acrescimo.

(** C6. Adding a crystal of brightness 0 with its four flags 0 at a
    position of the box that holds no crystal does not decrease the total
    value reported after [Resolve], and leaves the feasibility of every
    selection that does not use the new crystal as it was. *)
Theorem C6_cristal_nulo (L C : nat) (rs : list Registro)
  (this this' : Cifra) (x y : Z) :
  constroi L C rs = Some this ->
  (1 <= L)%nat ->
  brilho_em this (x, y) = -1 ->
  AdicionaCristal x y 0 0 0 0 0 this = Some this' ->
  (exists s1 s2,
      Resolve this = Some s1
      /\ Resolve this' = Some s2
      /\ snd (GetValoresSolucao s1) <= snd (GetValoresSolucao s2))
  /\ forall sel,
       GET_BIT (sel (Z.to_nat (x - 1))) (Z.to_nat (y - 1)) <> 1 ->
       viavel this' sel = viavel this sel.
Proof.
  intros Hc HL Hv Ha.
  pose proof (AdicionaCristal_celula _ _ _ _ _ _ _ _ _ Ha) as Houtras.
  pose proof (constroi_pronta _ _ _ _ Hc) as Hp.
  destruct (constroi_L _ _ _ _ Hc) as (EL & _).
  assert (Hp' : pronta this').
  { apply AdicionaCristal_campos in Ha. destruct Ha as (cx & ->).
    apply constroi_campos in Hc. destruct Hc as (cx0 & ->).
    split; [split; intros l c a H; discriminate H|exact (proj2 Hp)]. }
  assert (Hcampos : L_ this' = L_ this /\ C_ this' = C_ this
                    /\ num_possibilidades_ this' = num_possibilidades_ this).
  { apply AdicionaCristal_campos in Ha. destruct Ha as (cx & ->).
    now cbn. }
  destruct Hcampos as (HL' & HC' & Hnp').
  split.
  - destruct L as [|ultima]; [lia|].
    destruct (Resolve_pronta this ultima Hp EL) as (m1 & -> & _).
    destruct (Resolve_pronta this' ultima Hp' ltac:(congruence))
      as (m2 & -> & _).
    do 2 eexists. split; [reflexivity|]. split; [reflexivity|].
    cbn.
    apply (ancora_nulo this this' (Z.to_nat (x - 1)) (Z.to_nat (y - 1)));
      auto.
    + pose proof (AdicionaCristal_Some_dentro _ _ _ _ _ _ _ _ _
                    (constroi_forma _ _ _ _ Hc) Ha). lia.
    + now rewrite (AdicionaCristal_guarda _ _ _ _ _ _ _ _ _ Ha).
    + now rewrite (AdicionaCristal_guarda _ _ _ _ _ _ _ _ _ Ha).
    + exact (proj2 Hp).
  - intros sel Hs. eapply viavel_acrescimo; eauto.
Qed.

Lemma C6_cristal_nulo_witness :
  exists this this',
    constroi 2 2 caixa_com_vaga = Some this
    /\ AdicionaCristal 2 1 0 0 0 0 0 this = Some this'
    /\ (exists s1 s2,
           Resolve this = Some s1
           /\ Resolve this' = Some s2
           /\ snd (GetValoresSolucao s1) <= snd (GetValoresSolucao s2))
    /\ forall sel,
         GET_BIT (sel (Z.to_nat (2 - 1))) (Z.to_nat (1 - 1)) <> 1 ->
         viavel this' sel = viavel this sel.
Proof.
  do 2 eexists. split; [reflexivity|]. split; [reflexivity|].
  apply (C6_cristal_nulo 2 2 caixa_com_vaga);
    [reflexivity|lia|reflexivity|reflexivity].
Defined.

(** ** The examples of the specification, evaluated *)

(** One crystal of brightness 5 in a box of one cell: [1 5] and [1 1]. *)
Example main_um_cristal :
  main 1 1 [reg 1 1 5 0 0 0 0] = Some [(1, 5); (1, 1)].
Proof. vm_compute. reflexivity. Qed.

(** The box of two rows and two columns of [caixa_exemplo]: three crystals
    are kept, the last row first and each row from its last column. *)
Example main_caixa_exemplo :
  main 2 2 caixa_exemplo = Some [(3, 3); (2, 2); (2, 1); (1, 2)].
Proof. vm_compute. reflexivity. Qed.

(** A record for a row that the box does not have indexes [caixa_] out of
    its bounds. *)
Example main_fora_da_caixa : main 2 2 [reg 3 1 5 0 0 0 0] = None.
Proof. reflexivity. Qed.

(** * Further properties of the code *)

(** ** The bit helpers *)

(** X1. [GET_BIT] returns 0 or 1 for every number, negative ones
    included, and every bit index. *)
Theorem GET_BIT_zero_ou_um (number : Z) (bit : nat) :
  GET_BIT number bit = 0 \/ GET_BIT number bit = 1.
Proof.
  rewrite GET_BIT_testbit.
  destruct (Z.testbit number (Z.of_nat bit)); cbn; auto.
Qed.

(** X2. Reading back after [SET_BIT] or [CLEAR_BIT]: the bit written reads
    1, respectively 0, and every other bit reads as before. *)
Theorem GET_BIT_apos_escrita (number : Z) (bit bit' : nat) :
  GET_BIT (SET_BIT number bit) bit'
  = (if (bit =? bit')%nat then 1 else GET_BIT number bit')
  /\ GET_BIT (CLEAR_BIT number bit) bit'
     = (if (bit =? bit')%nat then 0 else GET_BIT number bit').
Proof.
  unfold SET_BIT, CLEAR_BIT. rewrite !GET_BIT_testbit.
  rewrite Z.lor_spec, Z.land_spec, Z.lnot_spec by lia.
  rewrite testbit_de_um_bit.
  destruct (bit =? bit')%nat, (Z.testbit number (Z.of_nat bit'));
    cbn; auto.
Qed.

(** ** [AdicionaCristal] *)

Lemma conexoes_de_registro (r : Registro) :
  GET_BIT (conexoes (cristal_de r)) 0 = Z.b2z (rd r =? 1)
  /\ GET_BIT (conexoes (cristal_de r)) 1 = Z.b2z (rc r =? 1)
  /\ GET_BIT (conexoes (cristal_de r)) 2 = Z.b2z (re r =? 1)
  /\ GET_BIT (conexoes (cristal_de r)) 3 = Z.b2z (rb r =? 1)
  /\ 0 <= conexoes (cristal_de r) < 16.
Proof.
  unfold cristal_de. cbn [conexoes].
  destruct (rd r =? 1), (rc r =? 1), (re r =? 1), (rb r =? 1);
    cbn; repeat split; try reflexivity; lia.
Qed.

(** X3. Reading back after [AdicionaCristal]: the cell at the 1-based
    position [(x, y)] holds the brightness [v], and bits 0, 1, 2 and 3 of
    its mask are 1 exactly for the flags [d], [c], [e] and [b] that equal
    1 (any other flag value, 0 or not, clears the bit); no other bit of
    the mask is set. *)
Theorem AdicionaCristal_leitura (x y v d c e b : Z) (this this' : Cifra) :
  AdicionaCristal x y v d c e b this = Some this' ->
  let cel := celula this' (Z.to_nat (x - 1)) (Z.to_nat (y - 1)) in
  brilho cel = v
  /\ GET_BIT (conexoes cel) 0 = Z.b2z (d =? 1)
  /\ GET_BIT (conexoes cel) 1 = Z.b2z (c =? 1)
  /\ GET_BIT (conexoes cel) 2 = Z.b2z (e =? 1)
  /\ GET_BIT (conexoes cel) 3 = Z.b2z (b =? 1)
  /\ 0 <= conexoes cel < 16.
Proof.
  intros H. cbn zeta. rewrite (AdicionaCristal_guarda _ _ _ _ _ _ _ _ _ H).
  split; [reflexivity|].
  exact (conexoes_de_registro (reg x y v d c e b)).
Qed.

Lemma AdicionaCristal_leitura_witness :
  exists this',
    AdicionaCristal 2 1 7 1 0 2 1 (Cifra_novo 2 2 0) = Some this'
    /\ let cel := celula this' (Z.to_nat (2 - 1)) (Z.to_nat (1 - 1)) in
       brilho cel = 7
       /\ GET_BIT (conexoes cel) 0 = Z.b2z (1 =? 1)
       /\ GET_BIT (conexoes cel) 1 = Z.b2z (0 =? 1)
       /\ GET_BIT (conexoes cel) 2 = Z.b2z (2 =? 1)
       /\ GET_BIT (conexoes cel) 3 = Z.b2z (1 =? 1)
       /\ 0 <= conexoes cel < 16.
Proof.
  eexists. split; [reflexivity|].
  apply (AdicionaCristal_leitura 2 1 7 1 0 2 1 (Cifra_novo 2 2 0)).
  reflexivity.
Defined.

(** X4. [AdicionaCristal] changes one cell only: every other cell of the
    box, the dimensions, the table and the fields of the solution are as
    before. *)
Theorem AdicionaCristal_so_uma_celula (x y v d c e b : Z)
  (this this' : Cifra) :
  AdicionaCristal x y v d c e b this = Some this' ->
  (forall i j,
      ~ (i = Z.to_nat (x - 1) /\ j = Z.to_nat (y - 1)) ->
      celula this' i j = celula this i j)
  /\ L_ this' = L_ this /\ C_ this' = C_ this
  /\ num_possibilidades_ this' = num_possibilidades_ this
  /\ memo_ this' = memo_ this
  /\ GetValoresSolucao this' = GetValoresSolucao this
  /\ GetCristaisSolucao this' = GetCristaisSolucao this.
Proof.
  intros H. split; [exact (AdicionaCristal_celula _ _ _ _ _ _ _ _ _ H)|].
  apply AdicionaCristal_campos in H. destruct H as (cx & ->).
  repeat split.
Qed.

Lemma AdicionaCristal_so_uma_celula_witness :
  exists this',
    AdicionaCristal 2 1 7 1 0 2 1 (Cifra_novo 2 2 0) = Some this'
    /\ (forall i j,
           ~ (i = Z.to_nat (2 - 1) /\ j = Z.to_nat (1 - 1)) ->
           celula this' i j = celula (Cifra_novo 2 2 0) i j)
    /\ L_ this' = 2%nat /\ C_ this' = 2%nat
    /\ num_possibilidades_ this' = 4
    /\ memo_ this' = memo_ (Cifra_novo 2 2 0)
    /\ GetValoresSolucao this' = (0, 0)
    /\ GetCristaisSolucao this' = [].
Proof.
  eexists. split; [reflexivity|].
  apply (AdicionaCristal_so_uma_celula 2 1 7 1 0 2 1 (Cifra_novo 2 2 0)).
  reflexivity.
Defined.

(** X5. On the object built by [main], [AdicionaCristal] succeeds exactly
    for the positions of the box, [1 <= x <= L] and [1 <= y <= C]; any
    other position indexes [caixa_] out of its bounds. *)
Theorem AdicionaCristal_sse_dentro (L C : nat) (rs : list Registro)
  (this : Cifra) (x y v d c e b : Z) :
  constroi L C rs = Some this ->
  (exists this', AdicionaCristal x y v d c e b this = Some this')
  <-> 1 <= x <= Z.of_nat L /\ 1 <= y <= Z.of_nat C.
Proof.
  intros Hc. pose proof (constroi_forma _ _ _ _ Hc) as Hf.
  destruct (constroi_L _ _ _ _ Hc) as (EL & EC & _).
  rewrite <- EL, <- EC. split.
  - intros (this' & H). eapply AdicionaCristal_Some_dentro; eassumption.
  - intros [Hx Hy]. now apply AdicionaCristal_dentro.
Qed.

Lemma AdicionaCristal_sse_dentro_witness :
  exists this,
    constroi 2 2 caixa_exemplo = Some this
    /\ ((exists this', AdicionaCristal 3 1 5 0 0 0 0 this = Some this')
        <-> 1 <= 3 <= Z.of_nat 2 /\ 1 <= 1 <= Z.of_nat 2).
Proof.
  eexists. split; [reflexivity|].
  apply (AdicionaCristal_sse_dentro 2 2 caixa_exemplo). reflexivity.
Defined.

(** ** The reading loop of [main] *)

Lemma reg_de_registro (r : Registro) :
  reg (rx r) (ry r) (rv r) (rd r) (rc r) (re r) (rb r) = r.
Proof. now destruct r. Qed.

Lemma adiciona_celula (r : Registro) (s s1 : Cifra) (i j : nat) :
  adiciona r s = Some s1 ->
  celula s1 i j = if registro_em r i j then cristal_de r else celula s i j.
Proof.
  unfold adiciona. intros H.
  assert (Hpos : 0 <= rx r - 1 /\ 0 <= ry r - 1).
  { revert H. unfold AdicionaCristal.
    destruct (Z.ltb_spec (rx r - 1) 0); [discriminate|].
    destruct (Z.ltb_spec (ry r - 1) 0); [discriminate|]. lia. }
  unfold registro_em.
  destruct (Z.eqb_spec (rx r - 1) (Z.of_nat i)) as [Ex|Ex];
    destruct (Z.eqb_spec (ry r - 1) (Z.of_nat j)) as [Ey|Ey]; cbn [andb].
  - replace (cristal_de r)
      with (cristal_de (reg (rx r) (ry r) (rv r) (rd r) (rc r) (re r)
                          (rb r)))
      by (now rewrite reg_de_registro).
    rewrite <- (AdicionaCristal_guarda _ _ _ _ _ _ _ _ _ H).
    f_equal; lia.
  - apply (AdicionaCristal_celula _ _ _ _ _ _ _ _ _ H). lia.
  - apply (AdicionaCristal_celula _ _ _ _ _ _ _ _ _ H). lia.
  - apply (AdicionaCristal_celula _ _ _ _ _ _ _ _ _ H). lia.
Qed.

Lemma adiciona_todos_celula (rs : list Registro) :
  forall s t i j,
    adiciona_todos rs s = Some t ->
    celula t i j
    = match ultimo_em rs i j with
      | Some r => cristal_de r
      | None => celula s i j
      end.
Proof.
  induction rs as [|r rs IH]; intros s t i j; cbn [adiciona_todos ultimo_em].
  - now intros [= <-].
  - destruct (adiciona r s) as [s1|] eqn:E; [|discriminate].
    intros H. rewrite (IH _ _ i j H).
    destruct (ultimo_em rs i j); [reflexivity|].
    rewrite (adiciona_celula _ _ _ i j E).
    now destruct (registro_em r i j).
Qed.

Lemma constroi_celula (L C : nat) (rs : list Registro) (this : Cifra)
  (i j : nat) :
  constroi L C rs = Some this ->
  celula this i j
  = match ultimo_em rs i j with
    | Some r => cristal_de r
    | None => Cristal_padrao
    end.
Proof.
  intros H. unfold constroi in H.
  rewrite (adiciona_todos_celula _ _ _ i j H).
  now rewrite celula_nova.
Qed.

(** X6. After the reading loop of [main], every cell of the box holds the
    crystal of the last record given for its position, and a cell for
    which no record was given is absent, with brightness [-1] and no
    connection. *)
Theorem constroi_ultimo_registro (L C : nat) (rs : list Registro)
  (this : Cifra) (i j : nat) :
  constroi L C rs = Some this ->
  celula this i j
  = match ultimo_em rs i j with
    | Some r => cristal_de r
    | None => Cristal_padrao
    end.
Proof. apply constroi_celula. Qed.

Lemma constroi_ultimo_registro_witness :
  exists this,
    constroi 2 2 (caixa_exemplo ++ [reg 1 1 9 0 0 0 0]) = Some this
    /\ celula this 0 0
       = match ultimo_em (caixa_exemplo ++ [reg 1 1 9 0 0 0 0]) 0 0 with
         | Some r => cristal_de r
         | None => Cristal_padrao
         end.
Proof.
  eexists. split; [reflexivity|].
  apply (constroi_ultimo_registro 2 2
           (caixa_exemplo ++ [reg 1 1 9 0 0 0 0])).
  reflexivity.
Defined.

Lemma adiciona_todos_sse_dentro (rs : list Registro) :
  forall s,
    forma s ->
    (exists t, adiciona_todos rs s = Some t)
    <-> Forall (registro_dentro (L_ s) (C_ s)) rs.
Proof.
  induction rs as [|r rs IH]; intros s Hf; cbn [adiciona_todos].
  - split; [constructor|eauto].
  - unfold adiciona. split.
    + intros (t & H).
      destruct (AdicionaCristal _ _ _ _ _ _ _ s) as [s1|] eqn:E;
        [|discriminate].
      pose proof (AdicionaCristal_Some_dentro _ _ _ _ _ _ _ _ _ Hf E) as Hd.
      pose proof (AdicionaCristal_forma _ _ _ _ _ _ _ _ _ Hf E) as Hf1.
      pose proof (AdicionaCristal_campos _ _ _ _ _ _ _ _ _ E) as (cx & Es).
      constructor; [exact Hd|].
      replace (L_ s) with (L_ s1) by (now rewrite Es).
      replace (C_ s) with (C_ s1) by (now rewrite Es).
      apply IH; eauto.
    + intros H. inversion H as [|? ? [Hx Hy] Hrs]; subst.
      destruct (AdicionaCristal_dentro (rx r) (ry r) (rv r) (rd r) (rc r)
                  (re r) (rb r) s Hf Hx Hy) as (s1 & E).
      rewrite E.
      pose proof (AdicionaCristal_forma _ _ _ _ _ _ _ _ _ Hf E) as Hf1.
      pose proof (AdicionaCristal_campos _ _ _ _ _ _ _ _ _ E) as (cx & Es).
      apply IH; [exact Hf1|]. now rewrite Es.
Qed.

Lemma Cifra_novo_forma (L C : nat) (n : Z) : forma (Cifra_novo L C n).
Proof.
  split; cbn; [apply repeat_length|].
  apply Forall_forall. intros fila H. apply repeat_spec in H.
  subst fila. apply repeat_length.
Qed.

Lemma constroi_sse_dentro (L C : nat) (rs : list Registro) :
  (exists this, constroi L C rs = Some this)
  <-> Forall (registro_dentro L C) rs.
Proof.
  unfold constroi.
  apply (adiciona_todos_sse_dentro rs
           (Cifra_novo L C (Z.of_nat (length rs)))).
  apply Cifra_novo_forma.
Qed.



Lemma ultimo_em_Some (rs : list Registro) (i j : nat) (r : Registro) :
  ultimo_em rs i j = Some r -> In r rs /\ registro_em r i j = true.
Proof.
  induction rs as [|r0 rs IH]; cbn [ultimo_em]; [discriminate|].
  destruct (ultimo_em rs i j) as [r'|].
  - intros [= <-]. destruct (IH eq_refl). split; [now right|assumption].
  - destruct (registro_em r0 i j) eqn:E; [|discriminate].
    intros [= <-]. split; [now left|assumption].
Qed.

Lemma ultimo_em_None (rs : list Registro) (i j : nat) :
  ultimo_em rs i j = None ->
  forall r, In r rs -> registro_em r i j = false.
Proof.
  induction rs as [|r0 rs IH]; cbn [ultimo_em]; [intros _ r []|].
  destruct (ultimo_em rs i j) as [r'|]; [discriminate|].
  destruct (registro_em r0 i j) eqn:E; [discriminate|].
  intros _ r [<-|Hr]; [exact E|now apply IH].
Qed.

Lemma NoDup_map_In {A B : Type} (g : A -> B) (l : list A) (x y : A) :
  NoDup (map g l) -> In x l -> In y l -> g x = g y -> x = y.
Proof.
  induction l as [|h t IH]; cbn [map]; [intros _ []|].
  intros Hn Hx Hy E. inversion Hn as [|? ? Hh Ht]; subst.
  destruct Hx as [<-|Hx], Hy as [<-|Hy]; auto.
  - exfalso. apply Hh. rewrite E. now apply in_map.
  - exfalso. apply Hh. rewrite <- E. now apply in_map.
Qed.

Lemma ultimo_em_unico (rs : list Registro) (i j : nat) (r : Registro) :
  NoDup (map (fun r => (rx r, ry r)) rs) ->
  In r rs -> registro_em r i j = true ->
  ultimo_em rs i j = Some r.
Proof.
  intros Hn Hin Hr.
  destruct (ultimo_em rs i j) as [r'|] eqn:E.
  - apply ultimo_em_Some in E. destruct E as [Hin' Hr']. f_equal.
    apply (NoDup_map_In (fun r => (rx r, ry r)) rs); auto.
    unfold registro_em in Hr, Hr'.
    apply andb_true_iff in Hr, Hr'. rewrite !Z.eqb_eq in Hr, Hr'.
    f_equal; lia.
  - rewrite (ultimo_em_None _ _ _ E r Hin) in Hr. discriminate.
Qed.

Lemma ultimo_em_permutacao (rs1 rs2 : list Registro) (i j : nat) :
  Permutation rs1 rs2 ->
  NoDup (map (fun r => (rx r, ry r)) rs1) ->
  ultimo_em rs1 i j = ultimo_em rs2 i j.
Proof.
  intros Hp Hn.
  assert (Hn2 : NoDup (map (fun r => (rx r, ry r)) rs2)).
  { eapply Permutation_NoDup; [|exact Hn]. now apply Permutation_map. }
  destruct (ultimo_em rs1 i j) as [r|] eqn:E1.
  - apply ultimo_em_Some in E1. destruct E1 as [Hin Hr]. symmetry.
    apply ultimo_em_unico; auto. eapply Permutation_in; eassumption.
  - destruct (ultimo_em rs2 i j) as [r|] eqn:E2; [|reflexivity].
    apply ultimo_em_Some in E2. destruct E2 as [Hin Hr].
    rewrite (ultimo_em_None _ _ _ E1 r) in Hr; [discriminate|].
    eapply Permutation_in; [apply Permutation_sym|]; eassumption.
Qed.

(** X8. The order of the input records does not matter when no position
    is given twice: [main] prints the same for any reordering of such
    records. *)
Theorem main_ordem_dos_registros (L C : nat) (rs1 rs2 : list Registro) :
  Permutation rs1 rs2 ->
  NoDup (map (fun r => (rx r, ry r)) rs1) ->
  main L C rs1 = main L C rs2.
Proof.
  intros Hp Hn. unfold main.
  destruct (constroi L C rs1) as [this1|] eqn:E1.
  - assert (H2 : exists this2, constroi L C rs2 = Some this2).
    { apply constroi_sse_dentro.
      eapply Permutation_Forall; [exact Hp|].
      apply constroi_sse_dentro. eauto. }
    destruct H2 as (this2 & E2). rewrite E2.
    destruct (constroi_L _ _ _ _ E1) as (EL1 & EC1 & En1 & Ec1).
    destruct (constroi_L _ _ _ _ E2) as (EL2 & EC2 & En2 & Ec2).
    apply saida_igual; try congruence.
    + pose proof (constroi_campos _ _ _ _ E1) as (c1 & ->).
      pose proof (constroi_campos _ _ _ _ E2) as (c2 & ->).
      reflexivity.
    + intros i j.
      rewrite (constroi_celula _ _ _ _ i j E1),
        (constroi_celula _ _ _ _ i j E2),
        (ultimo_em_permutacao rs1 rs2 i j Hp Hn).
      now repeat split.
    + exact (constroi_pronta _ _ _ _ E1).
    + exact (constroi_pronta _ _ _ _ E2).
  - destruct (constroi L C rs2) as [this2|] eqn:E2; [|reflexivity].
    assert (H1 : exists this1, constroi L C rs1 = Some this1).
    { apply constroi_sse_dentro.
      eapply Permutation_Forall; [apply Permutation_sym; exact Hp|].
      apply constroi_sse_dentro. eauto. }
    destruct H1 as (this1 & E1'). congruence.
Qed.

Lemma main_ordem_dos_registros_witness :
  main 2 2 caixa_exemplo
  = main 2 2 [reg 1 2 1 0 0 0 0; reg 1 1 1 1 0 0 1;
              reg 2 1 1 0 1 0 0; reg 2 2 1 0 0 0 0].
Proof.
  apply main_ordem_dos_registros.
  - apply perm_swap.
  - repeat (constructor; [cbn; intuition discriminate|]).
    constructor.
Defined.

(** The order does matter when a position is given twice: the later
    record replaces the earlier one. *)
Example main_posicao_repetida :
  main 1 1 [reg 1 1 5 0 0 0 0; reg 1 1 7 0 0 0 0] = Some [(1, 7); (1, 1)]
  /\ main 1 1 [reg 1 1 7 0 0 0 0; reg 1 1 5 0 0 0 0] = Some [(1, 5); (1, 1)].
Proof. split; vm_compute; reflexivity. Qed.

(** ** The compatibility predicates on smaller configurations *)

Lemma bit_de_subconfiguracao (menor cfg : Z) (j : nat) :
  Z.land menor cfg = menor -> GET_BIT menor j = 1 -> GET_BIT cfg j = 1.
Proof.
  intros Hs. rewrite !GET_BIT_testbit, <- Hs, Z.land_spec.
  destruct (Z.testbit menor (Z.of_nat j)), (Z.testbit cfg (Z.of_nat j));
    cbn; auto.
Qed.

(** X9. The constraints are closed under taking cells out: a configuration
    whose selected columns are among those of an internally consistent
    configuration is internally consistent, and two configurations taken
    inside a compatible pair are compatible. *)
Theorem predicados_em_subconfiguracoes (this : Cifra) (linha : nat)
  (cfg conf_s menor menor_s : Z) :
  Z.land menor cfg = menor ->
  Z.land menor_s conf_s = menor_s ->
  (EhInternamenteConsistente this linha cfg = true ->
   EhInternamenteConsistente this linha menor = true)
  /\ (SaoCompativeis this linha cfg conf_s = true ->
      SaoCompativeis this linha menor menor_s = true).
Proof.
  intros Hm Hs. split; intros E.
  - unfold EhInternamenteConsistente in *. rewrite forallb_forall in *.
    intros j Hj. specialize (E j Hj).
    destruct (Z.eqb_spec (GET_BIT menor j) 1) as [Hb|]; [|reflexivity].
    rewrite (bit_de_subconfiguracao _ _ _ Hm Hb) in E. cbn [Z.eqb] in E.
    destruct (Z.eqb_spec (GET_BIT menor ((j + 1) mod C_ this)) 1)
      as [Hb'|]; [|now rewrite andb_true_r in *; cbn in *;
                    apply andb_true_iff in E; destruct E as [-> _]].
    now rewrite (bit_de_subconfiguracao _ _ _ Hm Hb') in E.
  - unfold SaoCompativeis in *. rewrite forallb_forall in *.
    intros j Hj. specialize (E j Hj).
    destruct (Z.eqb_spec (GET_BIT menor j) 1) as [Hb|]; [|reflexivity].
    destruct (Z.eqb_spec (GET_BIT menor_s j) 1) as [Hb'|]; [|reflexivity].
    now rewrite (bit_de_subconfiguracao _ _ _ Hm Hb),
      (bit_de_subconfiguracao _ _ _ Hs Hb') in E.
Qed.

Lemma predicados_em_subconfiguracoes_witness :
  exists this,
    constroi 2 2 caixa_exemplo = Some this
    /\ (EhInternamenteConsistente this 1 3 = true ->
        EhInternamenteConsistente this 1 2 = true)
    /\ (SaoCompativeis this 1 3 2 = true ->
        SaoCompativeis this 1 2 2 = true).
Proof.
  eexists. split; [reflexivity|].
  apply predicados_em_subconfiguracoes; reflexivity.
Defined.

(** ** The table of [f] *)

(** X10. The second of two calls of [f] with the same arguments finds the
    entry in the table: it returns the answer of the first call and leaves
    the object as the first call left it. *)
Theorem f_segunda_chamada (this : Cifra) (linha : nat) (cfg a : Z) :
  pronta this ->
  dentro this linha cfg a = true ->
  exists r this1,
    f linha cfg a this = Some (r, this1)
    /\ f linha cfg a this1 = Some (r, this1).
Proof.
  intros [Hok _] Hd.
  destruct (f_correta this linha cfg a (memo_ this) Hd Hok)
    as (m' & E & Hok' & _ & Hcal).
  rewrite com_memo_id in E. do 2 eexists. split; [exact E|].
  rewrite f_eq. unfold le_memo.
  change (dentro (com_memo this m') linha cfg a)
    with (dentro this linha cfg a).
  rewrite Hd. cbn [memo_ com_memo]. rewrite Hcal.
  now rewrite (proj1 Hok' _ _ _ Hcal).
Qed.

Lemma f_segunda_chamada_witness :
  exists this,
    constroi 2 2 caixa_exemplo = Some this
    /\ exists r this1,
         f 1 2 2 this = Some (r, this1)
         /\ f 1 2 2 this1 = Some (r, this1).
Proof.
  eexists. split; [reflexivity|].
  apply f_segunda_chamada.
  - split; [split; intros l c a H; vm_compute in H; discriminate H
           | reflexivity].
  - reflexivity.
Defined.

Lemma estavel_refl (linha : nat) (a : Z) (s : Cifra) : estavel linha a s s.
Proof. repeat split. now rewrite com_memo_id. Qed.

Lemma estavel_trans (l1 l2 : nat) (a : Z) (s s1 s2 : Cifra) :
  (l1 <= l2)%nat ->
  estavel l1 a s s1 -> estavel l2 a s1 s2 -> estavel l2 a s s2.
Proof.
  intros Hl (E1 & Hc1 & Hf1) (E2 & Hc2 & Hf2). repeat split.
  - rewrite E2, E1 at 1. reflexivity.
  - intros l c a' H. rewrite <- (Hc1 _ _ _ H).
    apply Hc2. now rewrite (Hc1 _ _ _ H).
  - intros l c a' H. rewrite <- Hf1 by (destruct H; [left; lia|now right]).
    now apply Hf2.
Qed.

Lemma memoiza_estavel (linha : nat) (cfg a : Z) (r r' : Resposta)
  (s s' : Cifra) :
  calculado (memo_ s linha cfg a) = false ->
  memoiza s linha cfg a r = Some (r', s') ->
  estavel linha a s s'.
Proof.
  intros Hn [= _ <-]. repeat split; cbn [memo_ com_memo].
  - intros l c a' H.
    destruct (grava_casos (memo_ s) linha cfg a r l c a')
      as [(-> & -> & -> & _)|E]; [congruence|exact E].
  - intros l c a' H.
    destruct (grava_casos (memo_ s) linha cfg a r l c a')
      as [(-> & -> & -> & _)|E]; [destruct H; [lia|congruence]|exact E].
Qed.

Lemma laco_estavel (acima : nat) (linha : nat) (cfg a valor_linha : Z)
  (ps : list Z) :
  (forall poss s r s', f acima poss a s = Some (r, s') ->
                       estavel acima a s s') ->
  forall maximo s maximo' s',
    laco
      (fun poss maximo this' =>
         if negb (SaoCompativeis this' linha cfg poss)
         then Some (maximo, this')
         else
           match f acima poss a this' with
           | None => None
           | Some (resp, this'') =>
               Some (escolhe valor_linha poss resp maximo, this'')
           end)
      ps maximo s = Some (maximo', s') ->
    estavel acima a s s'.
Proof.
  intros IHf. induction ps as [|p ps IH]; intros maximo s maximo' s';
    cbn [laco].
  - intros [= _ <-]. apply estavel_refl.
  - destruct (negb (SaoCompativeis s linha cfg p)); [apply IH|].
    destruct (f acima p a s) as [[resp s1]|] eqn:E; [|discriminate].
    intros H. eapply estavel_trans; [apply Nat.le_refl|eauto|eauto].
Qed.

(** X11. A call of [f] for row [linha] and anchor [conf_inicial] changes
    nothing of the object but [memo_], and in [memo_] it changes no entry
    that was already computed, no entry of a row whose index is greater
    than [linha] and no entry of another anchor: it fills entries of the
    rows [0 .. linha] for its own anchor only. *)
Theorem f_so_preenche (linha : nat) :
  forall cfg a s r s',
    f linha cfg a s = Some (r, s') -> estavel linha a s s'.
Proof.
  induction linha as [|acima IH]; intros cfg a s r s'; rewrite f_eq;
    unfold le_memo;
    (destruct (dentro s _ cfg a); [|discriminate]);
    (destruct (calculado (memo_ s _ cfg a)) eqn:Ecal;
     [intros [= _ <-]; apply estavel_refl|]).
  - destruct (negb (EhInternamenteConsistente s 0 cfg));
      [|destruct (negb (SaoCompativeis s 0 cfg a))];
      now apply memoiza_estavel.
  - destruct (negb (EhInternamenteConsistente s (S acima) cfg));
      [now apply memoiza_estavel|].
    destruct (laco _ (possibilidades s) invalida s) as [[maximo s1]|] eqn:El;
      [|discriminate].
    apply laco_estavel in El; [|exact (fun p => IH p a)].
    intros H. eapply estavel_trans; [apply Nat.le_succ_diag_r|exact El|].
    eapply memoiza_estavel; [|exact H].
    destruct El as (_ & _ & Hf). rewrite Hf by (left; lia). exact Ecal.
Qed.

Lemma f_so_preenche_witness :
  exists s r s',
    constroi 2 2 caixa_exemplo = Some s
    /\ f 1 2 2 s = Some (r, s')
    /\ estavel 1 2 s s'.
Proof.
  do 3 eexists. split; [reflexivity|].
  split; [vm_compute; reflexivity|].
  eapply (f_so_preenche 1 2 2). vm_compute. reflexivity.
Defined.

(** ** The selection that [Resolve] reports *)

Lemma cadeia_total (this : Cifra) (a : Z) (linha : nat) (cfg : Z) (r : nat) :
  (r <= linha)%nat -> exists c, In (r, c) (cadeia this a linha cfg).
Proof.
  intros Hr.
  assert (H : In r (map fst (cadeia this a linha cfg))).
  { rewrite cadeia_linhas. apply -> in_rev. apply in_seq. lia. }
  apply in_map_iff in H. destruct H as ([r' c] & E & H).
  cbn in E. subst r'. now exists c.
Qed.

Lemma cadeia_config (this : Cifra) (a : Z) (linha : nat) (cfg : Z)
  (r : nat) (c : Z) :
  In (r, c) (cadeia this a linha cfg) ->
  config_da_linha (cadeia this a linha cfg) r = c.
Proof.
  intros Hin. unfold config_da_linha.
  destruct (find _ (cadeia this a linha cfg)) as [[r' c']|] eqn:E.
  - apply find_some in E. destruct E as [Hin' Hr]. cbn [fst snd] in *.
    apply Nat.eqb_eq in Hr. subst r'.
    eapply cadeia_funcional; eassumption.
  - apply (find_none _ _ E) in Hin. cbn [fst] in Hin.
    now rewrite Nat.eqb_refl in Hin.
Qed.

Lemma lista_como_mapa (g : nat -> Z) (cs : list (nat * Z)) :
  (forall ic, In ic cs -> g (fst ic) = snd ic) ->
  cs = map (fun r => (r, g r)) (map fst cs).
Proof.
  induction cs as [|[r c] cs IH]; intros H; cbn [map fst]; [reflexivity|].
  rewrite <- IH by (intros ic Hic; apply H; now right).
  pose proof (H (r, c) (or_introl eq_refl)) as E. cbn [fst snd] in E.
  now rewrite E.
Qed.

Lemma cadeia_como_mapa (this : Cifra) (a : Z) (linha : nat) (cfg : Z) :
  cadeia this a linha cfg
  = map (fun r => (r, config_da_linha (cadeia this a linha cfg) r))
      (rev (seq 0 (S linha))).
Proof.
  rewrite <- (cadeia_linhas this a linha cfg). apply lista_como_mapa.
  intros [r c] H. now apply cadeia_config.
Qed.

(** The brightness of the cells of a chain, row by row. *)
Lemma valor_da_cadeia (this : Cifra) (cs : list (nat * Z)) :
  soma (map (brilho_em this) (celulas_da_cadeia this cs))
  = soma (map (fun ic => brilho_da_linha this (fst ic) (snd ic)) cs).
Proof.
  induction cs as [|ic cs IH]; [reflexivity|].
  cbn [celulas_da_cadeia flat_map map].
  rewrite map_app, soma_app.
  fold (celulas_da_cadeia this cs). rewrite IH.
  unfold brilho_da_linha, soma. reflexivity.
Qed.

(** What is known of the object that [Resolve] leaves. *)
Lemma solucao_completa (L C : nat) (rs : list Registro) (this : Cifra)
  (ultima : nat) :
  constroi L C rs = Some this ->
  L = S ultima ->
  exists this' a,
    Resolve this = Some this'
    /\ GetCristaisSolucao this'
       = celulas_da_cadeia this (cadeia this a ultima a)
    /\ snd (GetValoresSolucao this') = valor (f_pura this ultima a a)
    /\ valor (f_pura this ultima a a)
       = valor (fst (ancora_pura this ultima))
    /\ 0 <= valor (f_pura this ultima a a)
    /\ L_ this = L /\ C_ this = C
    /\ num_possibilidades_ this = 2 ^ Z.of_nat C
    /\ Forall
         (fun ic =>
            0 <= snd ic < 2 ^ Z.of_nat C
            /\ valor (f_pura this (fst ic) (snd ic) a) <> -1)
         (cadeia this a ultima a).
Proof.
  intros Hc ->.
  destruct (constroi_L _ _ _ _ Hc) as (EL & EC & En & Ec).
  pose proof (constroi_pronta _ _ _ _ Hc) as [Hok Hnp].
  assert (Enp : num_possibilidades_ this = 2 ^ Z.of_nat C).
  { pose proof (constroi_campos _ _ _ _ Hc) as (cx & ->).
    cbn. apply Z.shiftl_1_l. }
  destruct (Resolve_rastro_spec this ultima EL Hnp Hok)
    as (m' & E & _ & _ & Hcs & _).
  destruct (ancora_pura_spec this ultima Hnp) as (Hv & _ & Hf & _).
  exists (acrescenta
            (com_max_valor (com_memo this m')
               (valor (fst (ancora_pura this ultima))))
            (celulas_da_cadeia this
               (cadeia this (snd (ancora_pura this ultima)) ultima
                  (snd (ancora_pura this ultima))))),
    (snd (ancora_pura this ultima)).
  unfold Resolve. rewrite E. cbn [option_map snd].
  unfold GetCristaisSolucao, GetValoresSolucao.
  cbn [snd acrescenta com_max_valor com_memo cristais_solucao_
         max_valor_caixa_].
  rewrite Ec, <- Hf. cbn [app]. repeat split; auto.
  eapply Forall_impl; [|exact Hcs]. intros ic (Hd & _ & Hal).
  apply dentro_spec in Hd. rewrite Enp in Hd. split; [lia|exact Hal].
Qed.

Lemma solucao_viavel (L C : nat) (rs : list Registro) (this : Cifra) :
  constroi L C rs = Some this ->
  (1 <= L)%nat ->
  exists this' sel,
    Resolve this = Some this'
    /\ viavel this sel = true
    /\ (forall r, (r < L)%nat -> 0 <= sel r < 2 ^ Z.of_nat C)
    /\ (forall r j,
          selecionada (GetCristaisSolucao this') r j
          <-> (r < L)%nat /\ (j < C)%nat /\ GET_BIT (sel r) j = 1)
    /\ soma (map (brilho_em this) (GetCristaisSolucao this'))
       = valor_da_selecao this sel.
Proof.
  intros Hc HL. destruct L as [|ultima]; [lia|].
  destruct (solucao_completa _ _ _ _ ultima Hc eq_refl)
    as (this' & a & HR & HG & HV & _ & Hpos & EL & EC & Enp & Hcs).
  exists this', (config_da_linha (cadeia this a ultima a)).
  rewrite Forall_forall in Hcs.
  assert (Hsel : forall r, (r < S ultima)%nat ->
                           In (r, config_da_linha (cadeia this a ultima a) r) (cadeia this a ultima a)).
  { intros r Hr. destruct (cadeia_total this a ultima a r ltac:(lia))
      as (c & Hin).
    now rewrite (cadeia_config _ _ _ _ _ _ Hin). }
  split; [exact HR|]. split; [|split; [|split]].
  - unfold viavel. rewrite EL. apply forallb_forall. intros r Hr.
    apply in_seq in Hr. pose proof (Hsel r ltac:(lia)) as Hin.
    destruct (Hcs _ Hin) as [_ Hal]. cbn [fst snd] in Hal.
    rewrite (f_pura_viva_consistente _ _ _ _ Hal). cbn [andb].
    destruct r as [|r0].
    + rewrite linha_acima_O by lia.
      replace (S ultima - 1)%nat with ultima by lia.
      rewrite (cadeia_config _ _ _ _ _ _ (cadeia_cabeca this a ultima a)).
      now destruct (f_pura_viva_O this _ a Hal) as (_ & ? & _).
    + rewrite linha_acima_S, Nat.mod_small by lia.
      rewrite (cadeia_config _ _ _ _ _ _
                 (cadeia_vizinhas this a ultima a r0 _ Hin)).
      now destruct (f_pura_viva_S this r0 _ a Hal) as (_ & _ & ? & _).
  - intros r Hr. exact (proj1 (Hcs _ (Hsel r Hr))).
  - intros r j. rewrite HG, In_celulas_da_cadeia, EC. split.
    + intros (c & Hin & Hj & Hb).
      pose proof (cadeia_In_linha _ _ _ _ _ _ Hin) as Hr.
      rewrite (cadeia_config _ _ _ _ _ _ Hin).
      repeat split; auto; lia.
    + intros (Hr & Hj & Hb). exists (config_da_linha (cadeia this a ultima a) r). auto.
  - rewrite HG, valor_da_cadeia.
    unfold valor_da_selecao. rewrite EL.
    rewrite (cadeia_como_mapa this a ultima a) at 1.
    rewrite map_map. cbn [fst snd].
    now rewrite map_rev, soma_rev.
Qed.

(** X12. The selection that [Resolve] reports is feasible: there is one
    configuration per row, each below [2^C], such that the printed cells
    are exactly the cells these configurations select, every row passes
    [EhInternamenteConsistente] and [SaoCompativeis] against the row
    cyclically above it, and the value of the selection is the sum of the
    brightness of the printed cells. *)
Theorem Resolve_solucao_viavel (L C : nat) (rs : list Registro)
  (this : Cifra) :
  constroi L C rs = Some this ->
  (1 <= L)%nat ->
  exists this' sel,
    Resolve this = Some this'
    /\ viavel this sel = true
    /\ (forall r, (r < L)%nat -> 0 <= sel r < 2 ^ Z.of_nat C)
    /\ (forall r j,
          selecionada (GetCristaisSolucao this') r j
          <-> (r < L)%nat /\ (j < C)%nat /\ GET_BIT (sel r) j = 1)
    /\ soma (map (brilho_em this) (GetCristaisSolucao this'))
       = valor_da_selecao this sel.
Proof. apply solucao_viavel. Qed.

Lemma Resolve_solucao_viavel_witness :
  exists this,
    constroi 2 2 caixa_exemplo = Some this
    /\ exists this' sel,
         Resolve this = Some this'
         /\ viavel this sel = true
         /\ (forall r, (r < 2)%nat -> 0 <= sel r < 2 ^ Z.of_nat 2)
         /\ (forall r j,
               selecionada (GetCristaisSolucao this') r j
               <-> (r < 2)%nat /\ (j < 2)%nat /\ GET_BIT (sel r) j = 1)
         /\ soma (map (brilho_em this) (GetCristaisSolucao this'))
            = valor_da_selecao this sel.
Proof.
  eexists. split; [reflexivity|].
  apply (Resolve_solucao_viavel 2 2 caixa_exemplo); [reflexivity|lia].
Defined.

(** ** The reported total is the greatest *)

Section Otimo.
Variable this : Cifra.
Variable ultima : nat.
Variable sel : nat -> Z.
Variable B : Z.
Hypothesis HL : L_ this = S ultima.
Hypothesis HB : 0 <= B.
Hypothesis Hfaixa : forall i j, -1 <= brilho (celula this i j) <= B.
Hypothesis Hsel :
  forall r, (r < S ultima)%nat -> 0 <= sel r < num_possibilidades_ this.
Hypothesis Hviavel : viavel this sel = true.

Lemma viavel_linha (r : nat) :
  (r < S ultima)%nat ->
  EhInternamenteConsistente this r (sel r) = true
  /\ SaoCompativeis this r (sel r) (sel (linha_acima (S ultima) r)) = true.
Proof.
  intros Hr. unfold viavel in Hviavel. rewrite HL in Hviavel.
  rewrite forallb_forall in Hviavel.
  specialize (Hviavel r ltac:(apply in_seq; lia)).
  now apply andb_true_iff in Hviavel.
Qed.

Lemma f_pura_cobre_selecao (linha : nat) :
  (linha <= ultima)%nat ->
  Z.of_nat (S linha) * (Z.of_nat (C_ this) * B) <= INT_MAX ->
  0 <= soma (map (fun r => brilho_da_linha this r (sel r))
               (seq 0 (S linha)))
    <= valor (f_pura this linha (sel linha) (sel ultima)).
Proof.
  assert (HcB : 0 <= Z.of_nat (C_ this) * B)
    by (apply Z.mul_nonneg_nonneg; lia).
  induction linha as [|acima IH]; intros Hl Hlim.
  - destruct (viavel_linha 0 ltac:(lia)) as [Ei Ec].
    rewrite linha_acima_O in Ec by lia.
    replace (S ultima - 1)%nat with ultima in Ec by lia.
    rewrite f_pura_O, Ec by exact Ei.
    destruct (valor_da_linha_faixa this B HB Hfaixa 0 (sel 0%nat) Ei)
      as [H0 H1]; [lia|].
    unfold soma. cbn. lia.
  - destruct (viavel_linha (S acima) ltac:(lia)) as [Ei Ec].
    rewrite linha_acima_S, Nat.mod_small in Ec by lia.
    assert (HnB : 0 <= Z.of_nat (S acima) * (Z.of_nat (C_ this) * B))
      by (apply Z.mul_nonneg_nonneg; lia).
    rewrite Nat2Z.inj_succ, Z.mul_succ_l in Hlim.
    specialize (IH ltac:(lia) ltac:(lia)).
    pose proof (f_pura_maximo this acima (sel (S acima)) (sel ultima)
                  (sel acima) Ei (Hsel acima ltac:(lia)) Ec ltac:(lia))
      as Hmax.
    destruct (valor_da_linha_faixa this B HB Hfaixa (S acima)
                (sel (S acima)) Ei) as [H0 H1]; [lia|].
    pose proof (f_pura_faixa this B HB Hfaixa acima (sel acima)
                  (sel ultima) ltac:(lia) ltac:(lia)) as H2.
    rewrite soma_int_exata in Hmax
      by (unfold INT_MIN, INT_MAX in *; lia).
    rewrite seq_S, map_app, soma_app. cbn [map Nat.add].
    unfold soma at 2 4. cbn [fold_right]. lia.
Qed.

Lemma ancora_cobre_selecao :
  Z.of_nat (S ultima) * (Z.of_nat (C_ this) * B) <= INT_MAX ->
  valor_da_selecao this sel <= valor (fst (ancora_pura this ultima)).
Proof.
  intros Hlim.
  assert (Hnp : 0 < num_possibilidades_ this)
    by (specialize (Hsel 0%nat ltac:(lia)); lia).
  destruct (ancora_pura_spec this ultima Hnp) as (_ & _ & _ & Hmax & _).
  specialize (Hmax (sel ultima) (Hsel ultima ltac:(lia))).
  pose proof (f_pura_cobre_selecao ultima (Nat.le_refl _) Hlim) as H.
  unfold valor_da_selecao. rewrite HL. lia.
Qed.
End Otimo.

(** X13. When every brightness given lies between [-1] and [B] and
    [L * C * B] does not exceed [INT_MAX], so that no addition of [int]
    wraps around, the total that [Resolve] reports is the value of the
    selection it prints and is at least the value of every feasible
    selection whose rows are configurations below [2^C]: it is the
    greatest value of a feasible selection. *)
Theorem Resolve_total_maximo (L C : nat) (rs : list Registro)
  (this : Cifra) (B : Z) :
  constroi L C rs = Some this ->
  (1 <= L)%nat ->
  0 <= B ->
  Forall (fun r => -1 <= rv r <= B) rs ->
  Z.of_nat L * (Z.of_nat C * B) <= INT_MAX ->
  exists this',
    Resolve this = Some this'
    /\ snd (GetValoresSolucao this')
       = soma (map (brilho_em this) (GetCristaisSolucao this'))
    /\ forall sel,
         (forall r, (r < L)%nat -> 0 <= sel r < 2 ^ Z.of_nat C) ->
         viavel this sel = true ->
         valor_da_selecao this sel <= snd (GetValoresSolucao this').
Proof.
  intros Hc HL HB Hrs Hlim. destruct L as [|ultima]; [lia|].
  destruct (solucao_completa _ _ _ _ ultima Hc eq_refl)
    as (this' & a & HR & HG & HV & Ha & Hpos & EL & EC & Enp & _).
  pose proof (constroi_brilho _ _ _ _ (fun v => -1 <= v <= B) Hc
                ltac:(cbn beta; lia) Hrs) as Hb.
  cbn beta in Hb. rewrite <- EC in Hlim.
  exists this'. split; [exact HR|]. split.
  - rewrite HV, HG.
    destruct (f_pura_exato this 0 B ltac:(lia) HB
                (faixa_de_cristal this B Hb) a ultima) with (cfg := a)
      as [E _]; auto.
    + rewrite !Z.mul_0_r. unfold INT_MAX. lia.
    + lia.
  - intros sel Hsel Hv.
    rewrite HV, Ha. apply (ancora_cobre_selecao this ultima sel B); auto.
    now rewrite Enp.
Qed.

Lemma Resolve_total_maximo_witness :
  exists this,
    constroi 2 2 caixa_exemplo = Some this
    /\ exists this',
         Resolve this = Some this'
         /\ snd (GetValoresSolucao this')
            = soma (map (brilho_em this) (GetCristaisSolucao this'))
         /\ forall sel,
              (forall r, (r < 2)%nat -> 0 <= sel r < 2 ^ Z.of_nat 2) ->
              viavel this sel = true ->
              valor_da_selecao this sel <= snd (GetValoresSolucao this').
Proof.
  eexists. split; [reflexivity|].
  apply (Resolve_total_maximo 2 2 caixa_exemplo _ 1);
    [reflexivity|lia|lia| |vm_compute; discriminate].
  repeat (constructor; [cbn; lia|]). constructor.
Defined.

(** ** The cells of the solution *)

Lemma In_celulas_geral (this : Cifra) (cs : list (nat * Z)) (q : Z * Z) :
  In q (celulas_da_cadeia this cs) ->
  exists r j cfg,
    q = (Z.of_nat r + 1, Z.of_nat j + 1)
    /\ In (r, cfg) cs /\ (j < C_ this)%nat /\ GET_BIT cfg j = 1.
Proof.
  unfold celulas_da_cadeia, celulas_da_linha. rewrite in_flat_map.
  intros ([r cfg] & Hin & H). cbn [fst snd] in H.
  apply in_map_iff in H. destruct H as (j & <- & Hj).
  apply filter_In in Hj. destruct Hj as [Hj Hb].
  apply in_rev, in_seq in Hj. apply Z.eqb_eq in Hb.
  exists r, j, cfg. repeat split; auto; lia.
Qed.

Lemma sorted_NoDup {A : Type} (R : A -> A -> Prop) (l : list A) :
  (forall x, ~ R x x) -> StronglySorted R l -> NoDup l.
Proof.
  intros Hirr H. induction H as [|x l Hs IH Hx]; constructor; auto.
  intros Hin. rewrite Forall_forall in Hx. exact (Hirr x (Hx x Hin)).
Qed.

(** X14. The list of [GetCristaisSolucao] names no cell twice, and every
    cell it names lies inside the box and holds a crystal: an absent
    position (brightness [-1]) is never selected. *)
Theorem Resolve_celulas_validas (L C : nat) (rs : list Registro)
  (this : Cifra) :
  constroi L C rs = Some this ->
  (1 <= L)%nat ->
  exists this',
    Resolve this = Some this'
    /\ NoDup (GetCristaisSolucao this')
    /\ forall q,
         In q (GetCristaisSolucao this') ->
         1 <= fst q <= Z.of_nat L
         /\ 1 <= snd q <= Z.of_nat C
         /\ brilho_em this q <> -1.
Proof.
  intros Hc HL. destruct L as [|ultima]; [lia|].
  destruct (solucao_completa _ _ _ _ ultima Hc eq_refl)
    as (this' & a & HR & HG & _ & _ & _ & EL & EC & _ & Hcs).
  exists this'. split; [exact HR|]. rewrite HG. split.
  - apply (sorted_NoDup antes); [unfold antes; intros x; lia|].
    apply cadeia_ordenada.
  - intros q Hq. apply In_celulas_geral in Hq.
    destruct Hq as (r & j & cfg & -> & Hin & Hj & Hb).
    pose proof (cadeia_In_linha _ _ _ _ _ _ Hin) as Hr.
    rewrite Forall_forall in Hcs. destruct (Hcs _ Hin) as [_ Hal].
    cbn [fst snd] in *. rewrite brilho_em_celula.
    repeat split; try lia.
    apply f_pura_viva_consistente in Hal.
    unfold EhInternamenteConsistente in Hal. rewrite forallb_forall in Hal.
    specialize (Hal j ltac:(apply in_seq; lia)). rewrite Hb in Hal.
    intros E. rewrite E in Hal. now cbn in Hal.
Qed.

Lemma Resolve_celulas_validas_witness :
  exists this,
    constroi 2 2 caixa_com_vaga = Some this
    /\ exists this',
         Resolve this = Some this'
         /\ NoDup (GetCristaisSolucao this')
         /\ forall q,
              In q (GetCristaisSolucao this') ->
              1 <= fst q <= Z.of_nat 2
              /\ 1 <= snd q <= Z.of_nat 2
              /\ brilho_em this q <> -1.
Proof.
  eexists. split; [reflexivity|].
  apply (Resolve_celulas_validas 2 2 caixa_com_vaga); [reflexivity|lia].
Defined.

(** X15. When every brightness given lies between [-1] and [B], the total
    that [Resolve] reports lies between 0 and [L * C * B]; a box with
    [L * C * B] inside [int] therefore has a total inside [int]. *)
Theorem Resolve_total_limitado (L C : nat) (rs : list Registro)
  (this : Cifra) (B : Z) :
  constroi L C rs = Some this ->
  (1 <= L)%nat ->
  0 <= B ->
  Forall (fun r => -1 <= rv r <= B) rs ->
  exists this',
    Resolve this = Some this'
    /\ 0 <= snd (GetValoresSolucao this')
       <= Z.of_nat L * (Z.of_nat C * B).
Proof.
  intros Hc HL HB Hrs. destruct L as [|ultima]; [lia|].
  destruct (solucao_completa _ _ _ _ ultima Hc eq_refl)
    as (this' & a & HR & _ & HV & Ha & _ & _ & EC & _ & _).
  exists this'. split; [exact HR|]. rewrite HV, Ha, <- EC.
  pose proof (constroi_brilho _ _ _ _ (fun v => -1 <= v <= B) Hc
                ltac:(cbn beta; lia) Hrs) as Hb.
  cbn beta in Hb.
  apply ancora_pura_faixa; auto.
  exact (proj2 (constroi_pronta _ _ _ _ Hc)).
Qed.

Lemma Resolve_total_limitado_witness :
  exists this,
    constroi 2 2 caixa_exemplo = Some this
    /\ exists this',
         Resolve this = Some this'
         /\ 0 <= snd (GetValoresSolucao this')
            <= Z.of_nat 2 * (Z.of_nat 2 * 1).
Proof.
  eexists. split; [reflexivity|].
  apply (Resolve_total_limitado 2 2 caixa_exemplo); [reflexivity|lia|lia|].
  repeat (constructor; [cbn; lia|]). constructor.
Defined.

(** ** Boxes of one column or of one row *)

(** X16. In a box of one column the column next to a cell, [(j + 1) % C_],
    is the cell itself: a crystal whose right flag is 1 is never
    selected. *)
Theorem Resolve_uma_coluna (L : nat) (rs : list Registro) (this : Cifra) :
  constroi L 1 rs = Some this ->
  (1 <= L)%nat ->
  exists this',
    Resolve this = Some this'
    /\ forall r,
         GET_BIT (conexoes (celula this r 0)) 0 = 1 ->
         ~ selecionada (GetCristaisSolucao this') r 0.
Proof.
  intros Hc HL.
  destruct (solucao_viavel _ _ _ _ Hc HL)
    as (this' & sel & HR & Hv & _ & Hs & _).
  destruct (constroi_L _ _ _ _ Hc) as (EL & EC & _).
  exists this'. split; [exact HR|]. intros r Hb Hin.
  apply Hs in Hin. destruct Hin as (Hr & _ & Hbit).
  unfold viavel in Hv. rewrite forallb_forall in Hv.
  specialize (Hv r ltac:(apply in_seq; lia)).
  apply andb_true_iff in Hv. destruct Hv as [Hv _].
  unfold EhInternamenteConsistente in Hv. rewrite forallb_forall in Hv.
  specialize (Hv 0%nat ltac:(apply in_seq; lia)).
  rewrite EC in Hv. cbn [Nat.add Nat.modulo Nat.divmod fst snd Nat.sub] in Hv.
  rewrite Hbit, Hb in Hv. cbn in Hv. now rewrite andb_false_r in Hv.
Qed.

Lemma Resolve_uma_coluna_witness :
  exists this,
    constroi 2 1 [reg 1 1 5 1 0 0 0; reg 2 1 3 0 0 0 0] = Some this
    /\ exists this',
         Resolve this = Some this'
         /\ forall r,
              GET_BIT (conexoes (celula this r 0)) 0 = 1 ->
              ~ selecionada (GetCristaisSolucao this') r 0.
Proof.
  eexists. split; [reflexivity|].
  apply (Resolve_uma_coluna 2 [reg 1 1 5 1 0 0 0; reg 2 1 3 0 0 0 0]);
    [reflexivity|lia].
Defined.

(** X17. In a box of one row the row above row 0 is row 0 itself: a
    crystal whose up flag is 1 is never selected. *)
Theorem Resolve_uma_linha (C : nat) (rs : list Registro) (this : Cifra) :
  constroi 1 C rs = Some this ->
  exists this',
    Resolve this = Some this'
    /\ forall j,
         GET_BIT (conexoes (celula this 0 j)) 1 = 1 ->
         ~ selecionada (GetCristaisSolucao this') 0 j.
Proof.
  intros Hc.
  destruct (solucao_viavel _ _ _ _ Hc (Nat.le_refl 1))
    as (this' & sel & HR & Hv & _ & Hs & _).
  destruct (constroi_L _ _ _ _ Hc) as (EL & EC & _).
  exists this'. split; [exact HR|]. intros j Hb Hin.
  apply Hs in Hin. destruct Hin as (_ & Hj & Hbit).
  unfold viavel in Hv. rewrite forallb_forall in Hv.
  specialize (Hv 0%nat ltac:(apply in_seq; lia)).
  apply andb_true_iff in Hv. destruct Hv as [_ Hv].
  rewrite EL, linha_acima_O in Hv by lia. cbn [Nat.sub] in Hv.
  unfold SaoCompativeis in Hv. rewrite forallb_forall in Hv.
  specialize (Hv j ltac:(apply in_seq; lia)).
  rewrite Hbit, Hb in Hv. now cbn in Hv.
Qed.

Lemma Resolve_uma_linha_witness :
  exists this,
    constroi 1 2 [reg 1 1 5 0 1 0 0; reg 1 2 3 0 0 0 0] = Some this
    /\ exists this',
         Resolve this = Some this'
         /\ forall j,
              GET_BIT (conexoes (celula this 0 j)) 1 = 1 ->
              ~ selecionada (GetCristaisSolucao this') 0 j.
Proof.
  eexists. split; [reflexivity|].
  apply (Resolve_uma_linha 2 [reg 1 1 5 0 1 0 0; reg 1 2 3 0 0 0 0]).
  reflexivity.
Defined.

(** The crystal of brightness 5 is left out in both boxes. *)
Example main_uma_coluna_uma_linha :
  main 2 1 [reg 1 1 5 1 0 0 0; reg 2 1 3 0 0 0 0] = Some [(1, 3); (2, 1)]
  /\ main 1 2 [reg 1 1 5 0 1 0 0; reg 1 2 3 0 0 0 0]
     = Some [(1, 3); (1, 2)].
Proof. split; vm_compute; reflexivity. Qed.

(** ** Any crystal added at an empty position *)

(** X18. In a box whose brightness values lie between [-1] and [B], with
    [L * C * B] at most [INT_MAX] so that no addition of [int] wraps
    around, adding a crystal of a brightness between [-1] and [B], with
    any flags, at a position that holds no crystal does not decrease the
    total reported after [Resolve]: the connections of a crystal constrain
    only the selections that use it. *)
Theorem Resolve_cristal_a_mais (L C : nat) (rs : list Registro)
  (this this' : Cifra) (x y v d c e b B : Z) :
  constroi L C rs = Some this ->
  (1 <= L)%nat ->
  0 <= B ->
  Forall (fun r => -1 <= rv r <= B) rs ->
  -1 <= v <= B ->
  Z.of_nat L * (Z.of_nat C * B) <= INT_MAX ->
  brilho_em this (x, y) = -1 ->
  AdicionaCristal x y v d c e b this = Some this' ->
  exists s1 s2,
    Resolve this = Some s1
    /\ Resolve this' = Some s2
    /\ snd (GetValoresSolucao s1) <= snd (GetValoresSolucao s2).
Proof.
  intros Hc HL HB Hrs Hvb Hlim Hv Ha.
  pose proof (AdicionaCristal_celula _ _ _ _ _ _ _ _ _ Ha) as Houtras.
  pose proof (constroi_pronta _ _ _ _ Hc) as Hp.
  destruct (constroi_L _ _ _ _ Hc) as (EL & EC & _).
  pose proof (AdicionaCristal_campos _ _ _ _ _ _ _ _ _ Ha) as (cx & Et).
  assert (Hp' : pronta this').
  { pose proof (constroi_campos _ _ _ _ Hc) as (cx0 & E0).
    rewrite Et, E0.
    split; [split; intros l k a H; discriminate H|].
    rewrite E0 in Hp. exact (proj2 Hp). }
  assert (Hcampos : L_ this' = L_ this /\ C_ this' = C_ this
                    /\ num_possibilidades_ this' = num_possibilidades_ this)
    by (now rewrite Et).
  destruct Hcampos as (HL' & HC' & Hnp').
  pose proof (constroi_brilho _ _ _ _ (fun k => -1 <= k <= B) Hc
                ltac:(cbn beta; lia) Hrs) as Hb.
  cbn beta in Hb.
  assert (Hb' : forall i j, -1 <= brilho (celula this' i j) <= B).
  { intros i j.
    destruct (Nat.eq_dec i (Z.to_nat (x - 1))) as [Ei|Hi];
      [destruct (Nat.eq_dec j (Z.to_nat (y - 1))) as [Ej|Hj]|].
    - subst i j. now rewrite (AdicionaCristal_guarda _ _ _ _ _ _ _ _ _ Ha).
    - rewrite Houtras by tauto. apply Hb.
    - rewrite Houtras by tauto. apply Hb. }
  destruct L as [|ultima]; [lia|].
  destruct (Resolve_pronta this ultima Hp EL) as (m1 & -> & _).
  destruct (Resolve_pronta this' ultima Hp' ltac:(congruence))
    as (m2 & -> & _).
  do 2 eexists. split; [reflexivity|]. split; [reflexivity|].
  cbn. rewrite <- EC in Hlim.
  apply (ancora_acrescimo this this' (Z.to_nat (x - 1)) (Z.to_nat (y - 1)))
    with (B := B); auto.
  exact (proj2 Hp).
Qed.

Lemma Resolve_cristal_a_mais_witness :
  exists this this',
    constroi 2 2 caixa_com_vaga = Some this
    /\ AdicionaCristal 2 1 1 1 1 1 1 this = Some this'
    /\ exists s1 s2,
         Resolve this = Some s1
         /\ Resolve this' = Some s2
         /\ snd (GetValoresSolucao s1) <= snd (GetValoresSolucao s2).
Proof.
  do 2 eexists. split; [reflexivity|]. split; [reflexivity|].
  apply (Resolve_cristal_a_mais 2 2 caixa_com_vaga _ _ 2 1 1 1 1 1 1 1);
    [reflexivity|lia|lia| |lia|vm_compute; discriminate
    |reflexivity|reflexivity].
  repeat (constructor; [cbn; lia|]). constructor.
Defined.

(** Without the bound the total can decrease.  In a box of three rows and
    one column with a crystal of brightness 1500000000 at (3, 1), adding a
    crystal of brightness 1200000000 at (1, 1) makes the sum of the two
    wrap around to a negative value: the state of the last row that selects
    both is dead and the total drops from 1500000000 to 1200000000. *)
Example cristal_a_mais_sem_limite :
  main 3 1 [reg 3 1 1500000000 0 0 0 0] = Some [(1, 1500000000); (3, 1)]
  /\ main 3 1 [reg 3 1 1500000000 0 0 0 0; reg 1 1 1200000000 0 0 0 0]
     = Some [(1, 1200000000); (1, 1)].
Proof. split; vm_compute; reflexivity. Qed.

(** ** The anchor that [Resolve] keeps *)

(** X19. The anchor loop of [Resolve] keeps the smallest configuration
    whose self-anchored state of the last row has the greatest value: no
    configuration has a greater value and every smaller configuration has
    a strictly smaller one.  The configuration kept is the one that the
    reconstruction gives to the last row. *)
Theorem Resolve_menor_ancora (L C : nat) (rs : list Registro)
  (this : Cifra) :
  constroi L C rs = Some this ->
  (1 <= L)%nat ->
  exists maximo conf_inicial_maxima this1,
    melhor_ancora (L - 1) this
    = Some ((maximo, conf_inicial_maxima), this1)
    /\ maximo
       = f_pura this (L - 1) conf_inicial_maxima conf_inicial_maxima
    /\ (forall p,
          0 <= p < 2 ^ Z.of_nat C ->
          valor (f_pura this (L - 1) p p) <= valor maximo
          /\ (p < conf_inicial_maxima ->
              valor (f_pura this (L - 1) p p) < valor maximo))
    /\ exists lidas this3,
         Resolve_rastro this = Some (lidas, this3)
         /\ hd_error lidas
            = Some ((L - 1)%nat, conf_inicial_maxima, conf_inicial_maxima).
Proof.
  intros Hc HL. destruct L as [|ultima]; [lia|].
  replace (S ultima - 1)%nat with ultima by lia.
  destruct (constroi_L _ _ _ _ Hc) as (EL & _).
  pose proof (constroi_pronta _ _ _ _ Hc) as [Hok Hnp].
  assert (Enp : num_possibilidades_ this = 2 ^ Z.of_nat C).
  { pose proof (constroi_campos _ _ _ _ Hc) as (cx & ->).
    cbn. apply Z.shiftl_1_l. }
  destruct (Resolve_rastro_spec this ultima EL Hnp Hok)
    as (m' & E & _ & _ & _ & Ea).
  destruct (ancora_pura_spec this ultima Hnp)
    as (_ & Hcim & Hf & Hmax & Hmin).
  destruct (ancora_pura this ultima) as [maximo cim] eqn:Eacc.
  cbn [fst snd] in *.
  do 3 eexists. split; [exact Ea|]. split; [exact Hf|]. split.
  - intros p Hp. rewrite <- Enp in Hp. split; [now apply Hmax|].
    intros Hlt. apply Hmin. lia.
  - do 2 eexists. split; [exact E|].
    destruct ultima; reflexivity.
Qed.

Lemma Resolve_menor_ancora_witness :
  exists this,
    constroi 2 2 caixa_exemplo = Some this
    /\ exists maximo conf_inicial_maxima this1,
         melhor_ancora (2 - 1) this
         = Some ((maximo, conf_inicial_maxima), this1)
         /\ maximo
            = f_pura this (2 - 1) conf_inicial_maxima conf_inicial_maxima
         /\ (forall p,
               0 <= p < 2 ^ Z.of_nat 2 ->
               valor (f_pura this (2 - 1) p p) <= valor maximo
               /\ (p < conf_inicial_maxima ->
                   valor (f_pura this (2 - 1) p p) < valor maximo))
         /\ exists lidas this3,
              Resolve_rastro this = Some (lidas, this3)
              /\ hd_error lidas
                 = Some ((2 - 1)%nat, conf_inicial_maxima,
                         conf_inicial_maxima).
Proof.
  eexists. split; [reflexivity|].
  apply (Resolve_menor_ancora 2 2 caixa_exemplo); [reflexivity|lia].
Defined.

(** ** [f] and the table, again *)

(** X20. On an object whose table satisfies the invariant, [f] returns
    for every state inside the table the answer that its body computes
    without a table ([f_pura]), whatever the table already holds, and the
    table it leaves satisfies the invariant again; for a state outside
    the table the first read of [memo_] is out of bounds. *)
Theorem f_transparente (this : Cifra) (linha : nat) (cfg a : Z) :
  pronta this ->
  (dentro this linha cfg a = true ->
   exists this',
     f linha cfg a this = Some (f_pura this linha cfg a, this')
     /\ pronta this'
     /\ forall l c k, f_pura this' l c k = f_pura this l c k)
  /\ (dentro this linha cfg a = false -> f linha cfg a this = None).
Proof.
  intros [Hok Hnp]. split; intros Hd.
  - destruct (f_correta this linha cfg a (memo_ this) Hd Hok)
      as (m' & E & Hok' & _).
    rewrite com_memo_id in E. eexists. split; [exact E|].
    split; [split; [exact Hok'|exact Hnp]|reflexivity].
  - rewrite f_eq. unfold le_memo. now rewrite Hd.
Qed.

Lemma f_transparente_witness :
  exists this,
    constroi 2 2 caixa_exemplo = Some this
    /\ (dentro this 1 2 2 = true ->
        exists this',
          f 1 2 2 this = Some (f_pura this 1 2 2, this')
          /\ pronta this'
          /\ forall l c k, f_pura this' l c k = f_pura this l c k)
    /\ (dentro this 1 2 2 = false -> f 1 2 2 this = None).
Proof.
  eexists. split; [reflexivity|].
  apply f_transparente.
  split; [split; intros l c a H; vm_compute in H; discriminate H
         | reflexivity].
Defined.

Lemma f_pura_conf_dentro (this : Cifra) (linha : nat) (cfg a : Z) :
  0 <= a < num_possibilidades_ this ->
  0 <= conf (f_pura this linha cfg a) < num_possibilidades_ this.
Proof.
  intros Ha.
  destruct (EhInternamenteConsistente this linha cfg) eqn:Ei;
    [|rewrite f_pura_inconsistente by assumption; cbn; lia].
  destruct linha as [|acima].
  - rewrite f_pura_O by assumption.
    destruct (SaoCompativeis this 0 cfg a); cbn; lia.
  - rewrite f_pura_S by assumption.
    pose proof (melhor_intervalo this (S acima) cfg
                  (valor_da_linha this (S acima) cfg)
                  (fun poss => f_pura this acima poss a)
                  (Z.to_nat (num_possibilidades_ this))) as M.
    cbn zeta in M.
    change (intervalo (Z.to_nat (num_possibilidades_ this)))
      with (possibilidades this) in M.
    destruct M as (_ & _ & _ & [[_ ->]|(_ & H & _)]); lia.
Qed.

(** X21. Every answer that [f] returns is marked as computed, its
    predecessor [conf] is a valid index of the table, in
    [0, num_possibilidades_), and for a row above 0 its value is at least
    [-1]: following the predecessors never leaves [memo_]. *)
Theorem f_resposta_bem_formada (this this' : Cifra) (linha : nat)
  (cfg a : Z) (r : Resposta) :
  pronta this ->
  f linha cfg a this = Some (r, this') ->
  calculado r = true
  /\ 0 <= conf r < num_possibilidades_ this
  /\ (linha <> 0%nat -> -1 <= valor r).
Proof.
  intros [Hok Hnp] H.
  destruct (dentro this linha cfg a) eqn:Hd.
  - destruct (f_correta this linha cfg a (memo_ this) Hd Hok)
      as (m' & E & _).
    rewrite com_memo_id, H in E. injection E as -> _.
    apply dentro_spec in Hd. split; [apply f_pura_calculado|]. split.
    + apply f_pura_conf_dentro. lia.
    + destruct linha; [congruence|intros _; apply f_pura_limite_inferior].
  - rewrite f_eq in H. unfold le_memo in H. rewrite Hd in H. discriminate.
Qed.

Lemma f_resposta_bem_formada_witness :
  exists this r this',
    constroi 2 2 caixa_exemplo = Some this
    /\ f 1 3 1 this = Some (r, this')
    /\ calculado r = true
    /\ 0 <= conf r < num_possibilidades_ this
    /\ (1%nat <> 0%nat -> -1 <= valor r).
Proof.
  do 3 eexists. split; [reflexivity|].
  split; [vm_compute; reflexivity|].
  eapply (f_resposta_bem_formada _ _ 1 3 1).
  - split; [split; intros l c a H; vm_compute in H; discriminate H
           | reflexivity].
  - vm_compute. reflexivity.
Defined.
